(** * A shallow embedding of the byte-stream HTTP server

    The development follows the TypeScript sources: the dynamic buffer
    ([bufPush], [bufPop]), the socket wrapper ([soRead], [soWrite]), the
    header framer and parser ([cutMessage], [parseHTTPReq], [splitLines],
    [parseRequestLine], [fieldGet]), the body readers ([readerFromReq],
    [readerFromConnLength], [readerFromConnEOF], [readerFromGenerator],
    [readerFromMemory], [readChunks]), the response writer
    ([writeHTTPResp], [encodeHTTPResp]) and the server loop ([serveClient]).

    Conventions.
    - A Node [Buffer] is a [list byte]; JavaScript numbers used as lengths
      and indices are [Z] (they do go negative in the source: [indexOf]
      returns [-1], and [bufPop] can drive a length below zero).
    - A latin1 string is the list of its bytes.
    - [NaN] is [None] in [option Z].
    - Code that throws returns a [Throw]; code that loops is given fuel and
      returns [Diverge] when the fuel runs out. *)

From Stdlib Require Import ZArith List Lia Bool String.
From Stdlib Require Import Strings.Byte.
Import ListNotations.
Local Open Scope Z_scope.

Set Implicit Arguments.

(** ** Bytes *)

Definition bytes := list byte.

(** A string literal as the bytes of its latin1 encoding ([Buffer.from]). *)
Definition B (s : string) : bytes := list_byte_of_string s.

Definition blen (b : bytes) : Z := Z.of_nat (List.length b).

Definition CR : byte := x0d.
Definition LF : byte := x0a.
Definition CRLF : bytes := [CR; LF].

(** [a.equals(b)] *)
Fixpoint equals (a b : bytes) : bool :=
  match a, b with
  | [], [] => true
  | x :: a', y :: b' => Byte.eqb x y && equals a' b'
  | _, _ => false
  end.

(** ** Exceptions of the program *)

Inductive Exn : Type :=
| HTTPError (code : Z) (message : string)  (* class HTTPError *)
| Error (message : string)                 (* new Error(...) *)
| RangeError                               (* Buffer.copy, negative targetStart *)
| TypeError.                               (* property access on undefined *)

(** ** The Node [Buffer] primitives the sources use *)

Module Buf.

(** [Buffer.alloc(n)]: zero filled. *)
Definition alloc (n : Z) : bytes := repeat x00 (Z.to_nat n).

(** Relative index resolution shared by [subarray] and [copyWithin]:
    negative offsets count from the end, everything is clamped to
    [0, len]. *)
Definition adjustOffset (offset len : Z) : Z :=
  if offset <? 0 then Z.max (offset + len) 0 else Z.min offset len.

(** [b.subarray(s, e)] *)
Definition subarray (b : bytes) (s e : Z) : bytes :=
  let s' := adjustOffset s (blen b) in
  let e' := adjustOffset e (blen b) in
  firstn (Z.to_nat (e' - s')) (skipn (Z.to_nat s') b).

(** [b.copyWithin(target, start, end)] *)
Definition copyWithin (b : bytes) (target start end_ : Z) : bytes :=
  let len := blen b in
  let to := adjustOffset target len in
  let from := adjustOffset start len in
  let final := adjustOffset end_ len in
  let count := Z.min (final - from) (len - to) in
  if 0 <? count then
    firstn (Z.to_nat to) b
      ++ firstn (Z.to_nat count) (skipn (Z.to_nat from) b)
      ++ skipn (Z.to_nat (to + count)) b
  else b.

(** [src.copy(target, targetStart, 0)]: the new contents of [target];
    a negative [targetStart] is a [RangeError]. *)
Definition copy (src target : bytes) (targetStart : Z) : option bytes :=
  if targetStart <? 0 then None
  else if blen target <=? targetStart then Some target
  else
    let nb := Z.min (blen src) (blen target - targetStart) in
    Some (firstn (Z.to_nat targetStart) target
            ++ firstn (Z.to_nat nb) src
            ++ skipn (Z.to_nat (targetStart + nb)) target).

(** Is [p] a prefix of [l]? *)
Fixpoint startsWith (p l : bytes) : bool :=
  match p, l with
  | [], _ => true
  | x :: p', y :: l' => Byte.eqb x y && startsWith p' l'
  | _ :: _, [] => false
  end.

(** [hay.indexOf(needle)]: first position of [needle], or [-1]. *)
Fixpoint indexOf (hay needle : bytes) : Z :=
  if startsWith needle hay then 0
  else match hay with
       | [] => -1
       | _ :: t => let i := indexOf t needle in
                   if i <? 0 then -1 else i + 1
       end.

End Buf.

(** ** dynamic_buffer.ts *)

Record DynBuf : Type := mkDynBuf {
  data : bytes;      (* the backing store; its size is the capacity *)
  length : Z         (* actual data length *)
}.

Definition capacity (buf : DynBuf) : Z := blen (data buf).

(** The window [buf.data.subarray(0, buf.length)] every consumer looks at. *)
Definition window (buf : DynBuf) : bytes := Buf.subarray (data buf) 0 (length buf).

(** [while (cap < newLen) cap *= 2], with the number of doublings bounded
    by [fuel]; [grow_enough] below shows the bound used by [bufPush] is
    never reached. *)
Fixpoint double_until (fuel : nat) (cap newLen : Z) : Z :=
  match fuel with
  | O => cap
  | S f => if cap <? newLen then double_until f (cap * 2) newLen else cap
  end.

Definition grow (cap newLen : Z) : Z :=
  double_until (Z.to_nat (Z.log2_up newLen)) cap newLen.

Definition bufPush (buf : DynBuf) (d : bytes) : option Exn * DynBuf :=
  let newLen := length buf + blen d in
  let grown :=
    if blen (data buf) <? newLen then
      let cap := grow (Z.max (blen (data buf)) 32) newLen in
      Buf.copy (data buf) (Buf.alloc cap) 0
    else Some (data buf) in
  match grown with
  | None => (Some RangeError, buf)
  | Some store =>
      match Buf.copy d store (length buf) with
      | None => (Some RangeError, mkDynBuf store (length buf))
      | Some store' => (None, mkDynBuf store' newLen)
      end
  end.

Definition bufPop (buf : DynBuf) (len : Z) : DynBuf :=
  mkDynBuf (Buf.copyWithin (data buf) 0 len (length buf)) (length buf - len).

(** The buffer [serveClient] starts from. *)
Definition emptyBuf : DynBuf := mkDynBuf (Buf.alloc 0) 0.

(** A buffer is well formed when its logical length lies within its store. *)
Definition wf (buf : DynBuf) : Prop := 0 <= length buf <= capacity buf.

(** Sequences of buffer operations, for the algebraic properties. *)
Inductive BufOp : Type :=
| OpPush (d : bytes)
| OpPop (n : Z).

Definition stepOp (buf : DynBuf) (op : BufOp) : option Exn * DynBuf :=
  match op with
  | OpPush d => bufPush buf d
  | OpPop n => (None, bufPop buf n)
  end.

Fixpoint runOps (buf : DynBuf) (ops : list BufOp) : option Exn * DynBuf :=
  match ops with
  | [] => (None, buf)
  | op :: rest =>
      match stepOp buf op with
      | (None, buf') => runOps buf' rest
      | (Some e, buf') => (Some e, buf')
      end
  end.

(** Every eviction asks for at most the bytes that are there. *)
Fixpoint inContract (len : Z) (ops : list BufOp) : Prop :=
  match ops with
  | [] => True
  | OpPush d :: rest => inContract (len + blen d) rest
  | OpPop n :: rest => 0 <= n <= len /\ inContract (len - n) rest
  end.

Fixpoint appended (ops : list BufOp) : bytes :=
  match ops with
  | [] => []
  | OpPush d :: rest => d ++ appended rest
  | OpPop _ :: rest => appended rest
  end.

Fixpoint evicted (ops : list BufOp) : Z :=
  match ops with
  | [] => 0
  | OpPush _ :: rest => evicted rest
  | OpPop n :: rest => n + evicted rest
  end.

(** ** Numbers and strings *)

(** The value of an ASCII digit or letter in the given radix. *)
Definition digitVal (radix : Z) (c : byte) : option Z :=
  let n := Z.of_N (Byte.to_N c) in
  let v := if (48 <=? n) && (n <=? 57) then n - 48
           else if (97 <=? n) && (n <=? 122) then n - 87
           else if (65 <=? n) && (n <=? 90) then n - 55
           else 36 in
  if v <? radix then Some v else None.

(** The longest prefix of radix digits; [None] when there is none. *)
Fixpoint parseDigits (radix : Z) (s : bytes) (acc : option Z) : option Z :=
  match s with
  | [] => acc
  | c :: r =>
      match digitVal radix c with
      | Some v =>
          parseDigits radix r
            (Some (match acc with Some a => a * radix + v | None => v end))
      | None => acc
      end
  end.

(** The one-byte white space of a latin1-decoded string: TAB, LF, VT, FF,
    CR, SP and NBSP. *)
Definition isWS1 (c : byte) : bool :=
  let n := Z.of_N (Byte.to_N c) in
  ((9 <=? n) && (n <=? 13)) || (n =? 32).

Fixpoint skipWS_latin1 (s : bytes) : bytes :=
  match s with
  | c :: r => if isWS1 c || Byte.eqb c xa0 then skipWS_latin1 r else s
  | [] => []
  end.

(** The white space of a UTF-8-decoded string, as byte sequences: the
    ASCII ones, U+00A0, U+1680, U+2000..U+200A, U+2028, U+2029, U+202F,
    U+205F, U+3000 and U+FEFF. *)
Fixpoint skipWS_utf8 (s : bytes) : bytes :=
  match s with
  | c :: r =>
      if isWS1 c then skipWS_utf8 r
      else match r with
           | c2 :: r2 =>
               if Byte.eqb c xc2 && Byte.eqb c2 xa0 then skipWS_utf8 r2
               else match r2 with
                    | c3 :: r3 =>
                        let n3 := Z.of_N (Byte.to_N c3) in
                        if (Byte.eqb c xe1 && Byte.eqb c2 x9a && Byte.eqb c3 x80)
                           || (Byte.eqb c xe2 && Byte.eqb c2 x80
                               && (((128 <=? n3) && (n3 <=? 138))
                                   || (n3 =? 168) || (n3 =? 169) || (n3 =? 175)))
                           || (Byte.eqb c xe2 && Byte.eqb c2 x81 && Byte.eqb c3 x9f)
                           || (Byte.eqb c xe3 && Byte.eqb c2 x80 && Byte.eqb c3 x80)
                           || (Byte.eqb c xef && Byte.eqb c2 xbb && Byte.eqb c3 xbf)
                        then skipWS_utf8 r3
                        else s
                    | [] => s
                    end
           | [] => s
           end
  | [] => []
  end.

(** [parseInt(s)] with no radix argument, after the leading white space
    has been removed: sign, optional [0x]/[0X] prefix, digits.
    The result is exact (no rounding to a double). *)
Definition parseIntBody (s : bytes) : option Z :=
  let '(sign, s1) :=
    match s with
    | c :: r => if Byte.eqb c "-"%byte then (-1, r)
                else if Byte.eqb c "+"%byte then (1, r)
                else (1, s)
    | [] => (1, s)
    end in
  let '(radix, s2) :=
    match s1 with
    | c0 :: cx :: r =>
        if Byte.eqb c0 "0"%byte && (Byte.eqb cx "x"%byte || Byte.eqb cx "X"%byte)
        then (16, r) else (10, s1)
    | _ => (10, s1)
    end in
  match parseDigits radix s2 None with
  | Some v => Some (sign * v)
  | None => None
  end.

(** [parseDec(b.toString('latin1'))] *)
Definition parseDec (s : bytes) : option Z := parseIntBody (skipWS_latin1 s).

(** [parseDec(b.toString())], the default decoding being UTF-8. *)
Definition parseDec_utf8 (s : bytes) : option Z := parseIntBody (skipWS_utf8 s).

Definition digitChar (d : Z) : byte :=
  match Byte.of_N (Z.to_N (if d <? 10 then 48 + d else 87 + d)) with
  | Some b => b
  | None => x00
  end.

Fixpoint digitsOf (fuel : nat) (radix n : Z) (acc : bytes) : bytes :=
  match fuel with
  | O => acc
  | S f =>
      let acc' := digitChar (n mod radix) :: acc in
      if n / radix =? 0 then acc' else digitsOf f radix (n / radix) acc'
  end.

(** [n.toString(radix)] for an integer [n]. *)
Definition numToString (radix n : Z) : bytes :=
  if n <? 0 then "-"%byte :: digitsOf (S (Z.to_nat (Z.log2 (- n)))) radix (- n) []
  else digitsOf (S (Z.to_nat (Z.log2 n))) radix n [].

(** ** The state monad of the server *)

Inductive Outcome (A : Type) : Type :=
| Ret (a : A)
| Throw (e : Exn)
| Diverge.

Arguments Throw {A} e.
Arguments Diverge {A}.

(** A computation over a state [S]: the state survives a [Throw], as it
    does in JavaScript. *)
Definition M (S A : Type) : Type := S -> Outcome A * S.

Definition ret {S A} (a : A) : M S A := fun s => (Ret a, s).
Definition throw {S A} (e : Exn) : M S A := fun s => (Throw e, s).
Definition diverge {S A} : M S A := fun s => (Diverge, s).

Definition bind {S A C} (m : M S A) (k : A -> M S C) : M S C :=
  fun s =>
    match m s with
    | (Ret a, s') => k a s'
    | (Throw e, s') => (Throw e, s')
    | (Diverge, s') => (Diverge, s')
    end.

Declare Scope io_scope.
Delimit Scope io_scope with io.
Notation "x <- c1 ;; c2" := (bind c1 (fun x => c2))
  (at level 61, c1 at next level, right associativity) : io_scope.
Notation "c1 ;; c2" := (bind c1 (fun _ => c2))
  (at level 61, right associativity) : io_scope.
Local Open Scope io_scope.

(** Pure fallible code, lifted. *)
Definition liftO {S A} (o : Outcome A) : M S A := fun s => (o, s).

(** ** socket.ts

    The receiving side of one connection: the deliveries the transport
    still holds (each ['data'] event in order, then ['end']), the number
    of [soRead] calls made so far, and the connection's buffer.
    Transport errors ([conn.err]) are outside this model. *)

Record Conn : Type := mkConn {
  incoming : list bytes;
  reads : nat;
  buf : DynBuf
}.

Definition setBuf (b : DynBuf) (c : Conn) : Conn :=
  mkConn (incoming c) (reads c) b.

(** [soRead]: the next delivery, or the empty buffer once the stream has
    ended. *)
Definition soRead : M Conn bytes :=
  fun c =>
    match incoming c with
    | [] => (Ret [], mkConn [] (S (reads c)) (buf c))
    | d :: rest => (Ret d, mkConn rest (S (reads c)) (buf c))
    end.

Definition getBuf : M Conn DynBuf := fun c => (Ret (buf c), c).

Definition bufPushM (d : bytes) : M Conn unit :=
  fun c =>
    match bufPush (buf c) d with
    | (None, b) => (Ret tt, setBuf b c)
    | (Some e, b) => (Throw e, setBuf b c)
    end.

Definition bufPopM (n : Z) : M Conn unit :=
  fun c => (Ret tt, setBuf (bufPop (buf c) n) c).

(** ** The header parser *)

Record HTTPReq : Type := mkReq {
  method : bytes;
  uri : bytes;
  version : bytes;
  headers : list bytes
}.

Fixpoint splitLines_loop (fuel : nat) (d : bytes) (idx1 idx2 : Z)
         (lines : list bytes) : list bytes :=
  match fuel with
  | O => lines
  | S f =>
      if 0 <=? idx2 then
        let line := Buf.subarray d idx1 (idx1 + idx2 + 1) in
        let idx1' := idx1 + idx2 + 2 in
        splitLines_loop f d idx1'
          (Buf.indexOf (Buf.subarray d idx1' (blen d)) CRLF)
          (lines ++ [line])
      else lines
  end.

(** Every iteration moves [idx1] forward by at least two, so the length
    of the input bounds the number of iterations. *)
Definition splitLines (d : bytes) : list bytes :=
  splitLines_loop (S (List.length d)) d 0
    (Buf.indexOf (Buf.subarray d 0 (blen d)) CRLF) [].

Definition parseRequestLine (d : bytes) : Outcome (bytes * bytes * bytes) :=
  let methodIdx := Buf.indexOf (Buf.subarray d 0 (blen d)) (B " ") in
  if methodIdx <? 0 then Throw (HTTPError 400 "No method in request line")
  else
    let method := Buf.subarray d 0 methodIdx in
    let uriIdx := Buf.indexOf (Buf.subarray d (methodIdx + 1) (blen d)) (B " ") in
    if uriIdx <? 0 then Throw (HTTPError 400 "No uri in request line")
    else
      let uri := Buf.subarray d (methodIdx + 1) (methodIdx + uriIdx + 1) in
      let version := Buf.subarray d (methodIdx + uriIdx + 2) (blen d) in
      Ret (method, uri, version).

Definition validateHeader (d : bytes) : bool :=
  0 <=? Buf.indexOf (Buf.subarray d 0 (blen d)) (B ":").

(** The loop [for (i = 1; i < lines.length - 1; i++)] over the lines it
    visits. *)
Fixpoint checkHeaders (ls : list bytes) (acc : list bytes) : Outcome (list bytes) :=
  match ls with
  | [] => Ret acc
  | h :: rest =>
      if validateHeader h then checkHeaders rest (acc ++ [h])
      else Throw (HTTPError 400 "bad field")
  end.

Definition parseHTTPReq (d : bytes) : Outcome HTTPReq :=
  let lines := splitLines d in
  match lines with
  | [] => Throw TypeError
  | line0 :: rest =>
      match parseRequestLine line0 with
      | Ret (m, u, v) =>
          match checkHeaders (removelast rest) [] with
          | Ret hs => Ret (mkReq m u v hs)
          | Throw e => Throw e
          | Diverge => Diverge
          end
      | Throw e => Throw e
      | Diverge => Diverge
      end
  end.

(** The condition of [console.assert(lines[lines.length - 1].length === 0)]
    in [parseHTTPReq]; a failed [console.assert] only prints. *)
Definition parseHTTPReq_assertion (d : bytes) : bool :=
  blen (last (splitLines d) []) =? 0.

Definition kMaxHeaderLen : Z := 1024 * 8.

(** [cutMessage] of the HTTP server: [Ret None] is "no complete header". *)
Definition cutMessage (b : DynBuf) : Outcome (option HTTPReq) * DynBuf :=
  let idx := Buf.indexOf (window b) (CRLF ++ CRLF) in
  if idx <? 0 then
    if kMaxHeaderLen <=? length b
    then (Throw (HTTPError 413 "header is too large"), b)
    else (Ret None, b)
  else
    match parseHTTPReq (Buf.subarray (data b) 0 (idx + 4)) with
    | Ret msg => (Ret (Some msg), bufPop b (idx + 4))
    | Throw e => (Throw e, b)
    | Diverge => (Diverge, b)
    end.

Definition cutMessageM : M Conn (option HTTPReq) :=
  fun c => let '(o, b) := cutMessage (buf c) in (o, setBuf b c).

(** [fieldGet]: the value of the first header whose name is [key].  With
    no colon in a header [idx] is [-1], and the two [subarray] calls then
    take all but the last byte, and everything from index 1. *)
Fixpoint fieldGet (hs : list bytes) (key : bytes) : option bytes :=
  match hs with
  | [] => None
  | header :: rest =>
      let idx := Buf.indexOf (Buf.subarray header 0 (blen header)) (B ":") in
      let fieldName := Buf.subarray header 0 idx in
      if equals fieldName key
      then Some (Buf.subarray header (idx + 2) (blen header))
      else fieldGet rest key
  end.

(** ** Body readers

    A [BodyReader] is an object with an immutable [length] and a [read]
    closure over the connection, the buffer and some private mutable
    state.  The closures of the sources are enumerated by [ReaderState],
    which holds that private state. *)

(** The state of an async generator: [readChunks] before its first
    [next()], [readChunks] suspended at its [yield] (with the remaining
    size of the current chunk), [countSheep] about to run iteration [i],
    or a generator that has completed. *)
Inductive Gen : Type :=
| ChunksStart
| ChunksYield (remain : Z)
| Sheep (i : Z)
| GenDone.

Inductive ReaderState : Type :=
| ConnLength (remain : Z)             (* readerFromConnLength *)
| ConnEOF                             (* readerFromConnEOF *)
| Generator (g : Gen)                 (* readerFromGenerator *)
| Memory (d : bytes) (done : bool).   (* readerFromMemory *)

Record BodyReader : Type := mkReader {
  rlength : Z;           (* the [length] field; -1 for unknown *)
  rstate : ReaderState
}.

Definition readerFromConnLength (remain : Z) : BodyReader :=
  mkReader remain (ConnLength remain).

Definition readerFromConnEOF : BodyReader := mkReader 0 ConnEOF.

Definition readerFromGenerator (g : Gen) : BodyReader :=
  mkReader (-1) (Generator g).

Definition readerFromMemory (d : bytes) : BodyReader :=
  mkReader (blen d) (Memory d false).

Definition bufExpectMore : M Conn unit :=
  d <- soRead ;;
  if blen d =? 0 then throw (Error "Unexpected EOF")
  else bufPushM d.

(** The body of [readChunks]'s inner loop, entered with [remain > 0]: it
    runs up to the [yield], and returns the yielded bytes and the state
    the generator is suspended in. *)
Definition readChunks_body (remain : Z) : M Conn (option bytes * Gen) :=
  b <- getBuf ;;
  (if length b =? 0 then bufExpectMore else ret tt) ;;
  b <- getBuf ;;
  let consume := Z.min remain (length b) in
  let d := Buf.subarray (data b) 0 consume in
  bufPopM consume ;;
  ret (Some d, ChunksYield (remain - consume)).

(** [readChunks] from the head of [while (!last)], [last] being false,
    up to the next [yield] ([Some]) or the end of the generator
    ([None]). *)
Fixpoint readChunks_loop (fuel : nat) : M Conn (option bytes * Gen) :=
  match fuel with
  | O => diverge
  | S f =>
      b <- getBuf ;;
      let idx := Buf.indexOf (window b) CRLF in
      if idx <? 0 then readChunks_loop f
      else
        let remain := parseDec_utf8 (Buf.subarray (data b) 0 idx) in
        bufPopM (idx + 2) ;;
        match remain with
        | Some r =>
            if 0 <? r then readChunks_body r
            else
              bufPopM 2 ;;
              if r =? 0 then ret (None, GenDone) else readChunks_loop f
        | None => bufPopM 2 ;; readChunks_loop f
        end
  end.

(** [gen.next()]: the yielded value, if any, and the next state. *)
Definition genNext (fuel : nat) (g : Gen) : M Conn (option bytes * Gen) :=
  match g with
  | ChunksStart => readChunks_loop fuel
  | ChunksYield remain =>
      if 0 <? remain then readChunks_body remain
      else bufPopM 2 ;; readChunks_loop fuel
  | Sheep i =>
      if i <? 100 then ret (Some (numToString 10 i ++ [LF]), Sheep (i + 1))
      else ret (None, GenDone)
  | GenDone => ret (None, GenDone)
  end.

(** The [do ... while (data.length != 0)] of [readerFromConnEOF]. *)
Fixpoint pullUntilEOF (fuel : nat) : M Conn unit :=
  match fuel with
  | O => diverge
  | S f =>
      d <- soRead ;;
      bufPushM d ;;
      if blen d =? 0 then ret tt else pullUntilEOF f
  end.

(** The first half of the [read] of [readerFromConnLength]: with an empty
    buffer, get some data from the socket. *)
Definition fetchBody : M Conn unit :=
  b <- getBuf ;;
  if length b =? 0 then
    d <- soRead ;;
    bufPushM d ;;
    if blen d =? 0 then throw (Error "Unexpected EOF from HTTP body")
    else ret tt
  else ret tt.

(** One call of a reader's [read]: the chunk and the reader's next
    private state.  A generator that throws has completed. *)
Definition readState (fuel : nat) (st : ReaderState)
  : Conn -> Outcome bytes * ReaderState * Conn :=
  fun c =>
    match st with
    | ConnLength remain =>
        if remain =? 0 then (Ret [], st, c)
        else
          match fetchBody c with
          | (Ret _, c1) =>
              let consume := Z.min (length (buf c1)) remain in
              let d := Buf.subarray (data (buf c1)) 0 consume in
              (Ret d, ConnLength (remain - consume),
               setBuf (bufPop (buf c1) consume) c1)
          | (Throw e, c1) => (Throw e, st, c1)
          | (Diverge, c1) => (Diverge, st, c1)
          end
    | ConnEOF =>
        match pullUntilEOF fuel c with
        | (Ret _, c1) => (Ret (data (buf c1)), st, c1)
        | (Throw e, c1) => (Throw e, st, c1)
        | (Diverge, c1) => (Diverge, st, c1)
        end
    | Generator g =>
        match genNext fuel g c with
        | (Ret (Some v, g'), c1) => (Ret v, Generator g', c1)
        | (Ret (None, g'), c1) => (Ret [], Generator g', c1)
        | (Throw e, c1) => (Throw e, Generator GenDone, c1)
        | (Diverge, c1) => (Diverge, st, c1)
        end
    | Memory d done =>
        if done then (Ret [], st, c) else (Ret d, Memory d true, c)
    end.

(** ** The server: the receiving side, what has been written to the
    socket, and the reader objects in the heap *)

Record World : Type := mkWorld {
  conn : Conn;
  written : list bytes;
  heap : list BodyReader
}.

Definition liftC {A} (m : M Conn A) : M World A :=
  fun w => let '(o, c) := m (conn w) in (o, mkWorld c (written w) (heap w)).

(** [soWrite]: one write to the socket. *)
Definition soWrite (d : bytes) : M World unit :=
  fun w => (Ret tt, mkWorld (conn w) (written w ++ [d]) (heap w)).

(** A reference to a reader object is its index in the heap. *)
Definition newReader (r : BodyReader) : M World nat :=
  fun w => (Ret (List.length (heap w)), mkWorld (conn w) (written w) (heap w ++ [r])).

Fixpoint setNth (h : list BodyReader) (i : nat) (r : BodyReader) : list BodyReader :=
  match h, i with
  | [], _ => []
  | _ :: t, O => r :: t
  | x :: t, S j => x :: setNth t j r
  end.

(** [reader.length] *)
Definition lengthOf (ref : nat) : M World Z :=
  fun w =>
    match nth_error (heap w) ref with
    | Some r => (Ret (rlength r), w)
    | None => (Throw TypeError, w)
    end.

(** [await reader.read()] *)
Definition read (fuel : nat) (ref : nat) : M World bytes :=
  fun w =>
    match nth_error (heap w) ref with
    | Some r =>
        let '(o, st, c) := readState fuel (rstate r) (conn w) in
        (o, mkWorld c (written w) (setNth (heap w) ref (mkReader (rlength r) st)))
    | None => (Throw TypeError, w)
    end.

Definition readerFromReq (req : HTTPReq) : M World nat :=
  bodyLen0 <-
    match fieldGet (headers req) (B "Content-Length") with
    | Some contentLen =>
        match parseDec contentLen with
        | Some n => ret n
        | None => throw (HTTPError 400 "bad Content-Length.")
        end
    | None => ret (-1)
    end ;;
  let bodyAllowed :=
    negb (equals (method req) (B "GET") || equals (method req) (B "HEAD")) in
  let chunked :=
    match fieldGet (headers req) (B "Transfer-Encoding") with
    | Some v => equals v (B "chunked")
    | None => false
    end in
  if negb bodyAllowed && ((0 <? bodyLen0) || chunked)
  then throw (HTTPError 400 "HTTP body not allowed.")
  else
    let bodyLen := if negb bodyAllowed then 0 else bodyLen0 in
    if 0 <=? bodyLen then newReader (readerFromConnLength bodyLen)
    else if chunked then newReader (readerFromGenerator ChunksStart)
    else newReader readerFromConnEOF.

Record HTTPRes : Type := mkRes {
  code : Z;
  resHeaders : list bytes;
  body : nat          (* a reference to the body reader *)
}.

Definition handleReq (req : HTTPReq) (reqBody : nat) : M World HTTPRes :=
  resp <-
    (if equals (uri req) (B "/echo") then ret reqBody
     else if equals (uri req) (B "/sheep")
          then newReader (readerFromGenerator (Sheep 0))
          else newReader (readerFromMemory (B "hello world." ++ [LF]))) ;;
  ret (mkRes 200 [B "Server: my_first_http_server"] resp).

Definition reasonOf (code : Z) : Outcome bytes :=
  if code =? 200 then Ret (B "OK")
  else if code =? 400 then Ret (B "Bad Request")
  else if code =? 413 then Ret (B "Request Entity Too Large")
  else if code =? 501 then Ret (B "Not Implemented")
  else Throw (Error "Unknown status code").

Definition encodeHTTPResp (code : Z) (hs : list bytes) : Outcome bytes :=
  match reasonOf code with
  | Ret reason =>
      Ret (B "HTTP/1.1 " ++ numToString 10 code ++ B " " ++ reason ++ CRLF
             ++ List.concat (map (fun h => h ++ CRLF) hs)
             ++ CRLF)
  | Throw e => Throw e
  | Diverge => Diverge
  end.

(** A body chunk as the chunked coding frames it. *)
Definition chunkFrame (d : bytes) : bytes :=
  numToString 16 (blen d) ++ CRLF ++ d ++ CRLF.

(** The loop [while (!last)] of [writeHTTPResp]. *)
Fixpoint writeBody (fuel : nat) (ref : nat) : M World unit :=
  match fuel with
  | O => diverge
  | S f =>
      d <- read f ref ;;
      let last := blen d =? 0 in
      len <- lengthOf ref ;;
      let d' := if len <? 0 then chunkFrame d else d in
      (if blen d' =? 0 then ret tt else soWrite d') ;;
      if last then ret tt else writeBody f ref
  end.

(** The header [writeHTTPResp] pushes onto [resp.headers]. *)
Definition lengthHeader (len : Z) : bytes :=
  if len <? 0 then B "Transfer-Encoding: chunked"
  else B "Content-Length: " ++ numToString 10 len.

Definition writeHTTPResp (fuel : nat) (resp : HTTPRes) : M World unit :=
  len <- lengthOf (body resp) ;;
  let hs := resHeaders resp ++ [lengthHeader len] in
  enc <- liftO (encodeHTTPResp (code resp) hs) ;;
  soWrite enc ;;
  writeBody fuel (body resp).

(** [while ((await reqBody.read()).length > 0) {}] *)
Fixpoint drain (fuel : nat) (ref : nat) : M World unit :=
  match fuel with
  | O => diverge
  | S f =>
      d <- read f ref ;;
      if 0 <? blen d then drain f ref else ret tt
  end.

(** The loop of [serveClient]. *)
Fixpoint serveLoop (fuel : nat) : M World unit :=
  match fuel with
  | O => diverge
  | S f =>
      msg <- liftC cutMessageM ;;
      match msg with
      | None =>
          d <- liftC soRead ;;
          liftC (bufPushM d) ;;
          b <- liftC getBuf ;;
          if (blen d =? 0) && (length b =? 0) then ret tt
          else if blen d =? 0 then throw (HTTPError 400 "Expected EOF.")
          else serveLoop f
      | Some req =>
          reqBody <- readerFromReq req ;;
          res <- handleReq req reqBody ;;
          writeHTTPResp f res ;;
          if equals (version req) (B "1.0") then ret tt
          else
            drain f reqBody ;;
            serveLoop f
      end
  end.

Definition serveClient (fuel : nat) : M World unit :=
  fun w => serveLoop fuel (mkWorld (setBuf emptyBuf (conn w)) (written w) (heap w)).

(** [newConn]: serve, and turn an [HTTPError] into one best-effort error
    response; every other failure, and a failure of that response, is
    swallowed. *)
Definition newConn (fuel : nat) : M World unit :=
  fun w =>
    match serveClient fuel w with
    | (Throw (HTTPError c msg), w1) =>
        match (r <- newReader (readerFromMemory (B msg ++ [LF])) ;;
               writeHTTPResp fuel (mkRes c [] r)) w1 with
        | (Diverge, w2) => (Diverge, w2)
        | (_, w2) => (Ret tt, w2)
        end
    | (Throw _, w1) => (Ret tt, w1)
    | other => other
    end.

(** A connection that will deliver the given chunks and then end. *)
Definition connOf (deliveries : list bytes) : World :=
  mkWorld (mkConn deliveries 0 emptyBuf) [] [].

(** A world whose buffer holds exactly [b] in a store of [cap] bytes. *)
Definition bufOf (b : bytes) (cap : Z) : DynBuf :=
  mkDynBuf (b ++ Buf.alloc (cap - blen b)) (blen b).

(** ** Vocabulary of the statements *)

(** [needle] occurs somewhere in [hay]. *)
Definition occurs (needle hay : bytes) : Prop :=
  exists pre post, hay = pre ++ needle ++ post.

(** The header delimiter. *)
Definition headerEnd : bytes := CRLF ++ CRLF.

(** The last byte of [l] is a carriage return. *)
Definition endsWithCR (l : bytes) : Prop := exists p, l = p ++ [CR].

(** The [chunked] flag [readerFromReq] computes from the headers. *)
Definition chunkedFlag (hs : list bytes) : bool :=
  match fieldGet hs (B "Transfer-Encoding") with
  | Some v => equals v (B "chunked")
  | None => false
  end.

(** Requests on the wire, used as examples. *)
Definition wireGet10 : bytes := B "GET / HTTP/1.0" ++ CRLF ++ CRLF.

Definition wireGetBare10 : bytes := B "GET / 1.0" ++ CRLF ++ CRLF.

Definition wireGet11 : bytes := B "GET / HTTP/1.1" ++ CRLF ++ CRLF.

Definition wirePostChunked : bytes :=
  B "POST /upload HTTP/1.1" ++ CRLF ++ B "Transfer-Encoding: chunked" ++ CRLF ++ CRLF.

Definition wirePostNoLength : bytes :=
  B "POST /echo HTTP/1.1" ++ CRLF ++ CRLF ++ B "abc".

Definition wireGetBadLength : bytes :=
  B "GET / HTTP/1.1" ++ CRLF ++ B "Content-Length: abc" ++ CRLF ++ CRLF.

(** The response head and body the default handler produces. *)
Definition helloHead : bytes :=
  B "HTTP/1.1 200 OK" ++ CRLF ++ B "Server: my_first_http_server" ++ CRLF
    ++ B "Content-Length: 13" ++ CRLF ++ CRLF.

Definition helloBody : bytes := B "hello world." ++ [LF].

(** The [bodyLen] [readerFromReq] starts from: [-1] with no
    Content-Length field, [None] (NaN) for a value that is not a number. *)
Definition bodyLenOf (hs : list bytes) : option Z :=
  match fieldGet hs (B "Content-Length") with
  | Some v => parseDec v
  | None => Some (-1)
  end.

Definition setWritten (out : list bytes) (w : World) : World :=
  mkWorld (conn w) out (heap w).

(** The chunks a body yields when it is read to its end: every
    non-empty chunk in order, up to the empty one. *)
Fixpoint readAll (fuel : nat) (ref : nat) : M World (list bytes) :=
  match fuel with
  | O => diverge
  | S f =>
      d <- read f ref ;;
      if blen d =? 0 then ret []
      else ds <- readAll f ref ;; ret (d :: ds)
  end.

(** The chunk-end marker of the chunked coding. *)
Definition lastChunk : bytes := B "0" ++ CRLF ++ CRLF.

Definition wirePostHello : bytes :=
  B "POST /echo HTTP/1.1" ++ CRLF ++ B "Content-Length: 5" ++ CRLF ++ CRLF
    ++ B "hello".

(** A chunked body on the wire. *)
Definition chunkedHello : bytes :=
  B "5" ++ CRLF ++ B "hello" ++ CRLF ++ B "0" ++ CRLF ++ CRLF.

(** A chunked body whose size line is the hexadecimal [a]. *)
Definition chunkedHexTen : bytes :=
  B "a" ++ CRLF ++ B "0123456789" ++ CRLF ++ B "0" ++ CRLF ++ CRLF.

Definition wireGetChunked : bytes :=
  B "GET / HTTP/1.1" ++ CRLF ++ B "Transfer-Encoding: chunked" ++ CRLF ++ CRLF.

(** ** The invariant of the server loop *)

(** The readers the server can hold: a fixed-length reader never has a
    negative count left, and no reader decodes chunks (see
    [parsed_never_chunked]). *)
Definition goodState (st : ReaderState) : Prop :=
  match st with
  | ConnLength remain => 0 <= remain
  | Generator ChunksStart => False
  | Generator (ChunksYield _) => False
  | _ => True
  end.

Definition goodReader (r : BodyReader) : Prop := goodState (rstate r).

Definition goodWorld (w : World) : Prop :=
  wf (buf (conn w)) /\ Forall goodReader (heap w).

(** [m] keeps [P], and its results satisfy [Q]. *)
Definition keeps {S A} (P : S -> Prop) (Q : A -> Prop) (m : M S A) : Prop :=
  forall s o s', P s -> m s = (o, s') ->
                 P s' /\ forall a, o = Ret a -> Q a.

(** No condition on the result. *)
Definition anything {A} : A -> Prop := fun _ => True.

(** ** Vocabulary of the further properties *)

Definition SP : byte := " "%byte.
Definition COLON : byte := ":"%byte.

(** A header field as it is written: name, colon, space, value. *)
Definition fieldOf (kv : bytes * bytes) : bytes :=
  fst kv ++ B ": " ++ snd kv.

(** A header block on the wire: the request line, the header lines and
    the blank line, each ended by CRLF. *)
Definition headerBlock (m u v : bytes) (hs : list bytes) : bytes :=
  (m ++ SP :: u ++ SP :: v) ++ CRLF
    ++ List.concat (map (fun h => h ++ CRLF) hs) ++ CRLF.

(** A decimal digit, as [Number.toString] writes it. *)
Definition isDigit (c : byte) : Prop := exists k, 0 <= k < 10 /\ c = digitChar k.

(** What may follow a number for [parseInt] to read it alone: nothing,
    or a byte that is neither a decimal digit nor the [x] of a
    hexadecimal prefix. *)
Definition stopsNumber (rest : bytes) : Prop :=
  match rest with
  | [] => True
  | c :: _ => digitVal 10 c = None /\ c <> "x"%byte /\ c <> "X"%byte
  end.

(** The name of the field that declares the body length. *)
Definition isContentLength (kv : bytes * bytes) : bool :=
  equals (fst kv) (B "Content-Length").

(** A list of header fields fit for a header block: no colon in a name,
    no CR anywhere. *)
Definition goodFields (kvs : list (bytes * bytes)) : Prop :=
  Forall (fun kv => ~ In COLON (fst kv) /\ ~ In CR (fieldOf kv)) kvs.

(** The request the parser makes of a well-formed block. *)
Definition parsedReq (m u v : bytes) (kvs : list (bytes * bytes)) : HTTPReq :=
  mkReq m u (v ++ [CR]) (map (fun h => h ++ [CR]) (map fieldOf kvs)).

(** The bytes a connection still has for the server, in stream order:
    what is buffered, then what has not been read yet. *)
Definition pending (c : Conn) : bytes :=
  window (buf c) ++ List.concat (incoming c).

(** The deliveries of a live stream: a read returns at least one byte
    until the peer closes. *)
Definition liveStream (ds : list bytes) : Prop := Forall (fun d => d <> []) ds.

(** The unread deliveries and the reads made so far add up. *)
Definition deliveriesSeen (c : Conn) : nat := (reads c + List.length (incoming c))%nat.

(** The head of the response to a request for [/echo] whose body has
    [n] bytes. *)
Definition echoHead (n : Z) : bytes :=
  B "HTTP/1.1 200 OK" ++ CRLF
    ++ B "Server: my_first_http_server" ++ CRLF
    ++ B "Content-Length: " ++ numToString 10 n ++ CRLF
    ++ CRLF.

(** ** echo_server.ts: the line-oriented echo server

    The same socket and buffer, with a server that answers every line
    of text.  Its state adds to the receiving side what has been written
    and whether [socket.destroy()] has been called. *)

Module Echo.

Record State : Type := mkState {
  conn : Conn;
  written : list bytes;
  destroyed : bool
}.

Definition liftC {A} (m : M Conn A) : M State A :=
  fun s => let '(o, c) := m (conn s) in (o, mkState c (written s) (destroyed s)).

Definition soWrite (d : bytes) : M State unit :=
  fun s => (Ret tt, mkState (conn s) (written s ++ [d]) (destroyed s)).

(** [socket.destroy()] *)
Definition destroy : M State unit :=
  fun s => (Ret tt, mkState (conn s) (written s) true).

(** [cutMessage]: the first line of the buffer with its line feed, which
    is removed from the buffer; [null] when no line is complete. *)
Definition cutMessage (b : DynBuf) : option bytes * DynBuf :=
  let idx := Buf.indexOf (Buf.subarray (data b) 0 (length b)) [LF] in
  if idx <? 0 then (None, b)
  else (Some (Buf.subarray (data b) 0 (idx + 1)), bufPop b (idx + 1)).

Definition cutMessageM : M Conn (option bytes) :=
  fun c => let '(o, b) := cutMessage (buf c) in (Ret o, setBuf b c).

(** The loop of [serveClient]. *)
Fixpoint serveLoop (fuel : nat) : M State unit :=
  match fuel with
  | O => diverge
  | S f =>
      msg <- liftC cutMessageM ;;
      match msg with
      | None =>
          d <- liftC soRead ;;
          liftC (bufPushM d) ;;
          if blen d =? 0 then ret tt else serveLoop f
      | Some msg =>
          if equals msg (B "quit" ++ [LF]) then
            soWrite (B "Bye." ++ [LF]) ;;
            destroy ;;
            ret tt
          else
            soWrite (B "Echo: " ++ msg) ;;
            serveLoop f
      end
  end.

Definition serveClient (fuel : nat) : M State unit :=
  fun s =>
    serveLoop fuel (mkState (setBuf emptyBuf (conn s)) (written s) (destroyed s)).

(** [newConn]: [try { await serveClient } catch { log } finally
    { socket.destroy() }]. *)
Definition newConn (fuel : nat) : M State unit :=
  fun s =>
    match serveClient fuel s with
    | (Diverge, s1) => (Diverge, s1)
    | (_, s1) => (Ret tt, mkState (conn s1) (written s1) true)
    end.

(** A fresh connection that will receive [deliveries] and then the end
    of the stream. *)
Definition connOf (deliveries : list bytes) : State :=
  mkState (mkConn deliveries 0 emptyBuf) [] false.

(** What is owed to a stream of bytes, whatever the deliveries it comes
    in: one reply per complete line, up to and including the first
    [quit].  [cur] is the line being received. *)
Fixpoint replies (cur s : bytes) : list bytes :=
  match s with
  | [] => []
  | c :: s' =>
      if Byte.eqb c LF then
        if equals (cur ++ [LF]) (B "quit" ++ [LF]) then [B "Bye." ++ [LF]]
        else (B "Echo: " ++ cur ++ [LF]) :: replies [] s'
      else replies (cur ++ [c]) s'
  end.

End Echo.

(** ** The first promise-based server: every delivery is written back
    as it is. *)

Module RawEcho.

Fixpoint serveClient (fuel : nat) : M Echo.State unit :=
  match fuel with
  | O => diverge
  | S f =>
      d <- Echo.liftC soRead ;;
      if blen d =? 0 then ret tt
      else Echo.soWrite d ;; serveClient f
  end.

End RawEcho.

(** ** Vocabulary for whole exchanges *)

(** What [countSheep] yields from [i] on, [k] times. *)
Definition sheepLine (i : Z) : bytes := numToString 10 i ++ [LF].

Fixpoint sheepFrom (k : nat) (i : Z) : list bytes :=
  match k with
  | O => []
  | S k' => sheepLine i :: sheepFrom k' (i + 1)
  end.

(** The head of a chunked response of the handler. *)
Definition chunkedHead : bytes :=
  B "HTTP/1.1 200 OK" ++ CRLF
    ++ B "Server: my_first_http_server" ++ CRLF
    ++ B "Transfer-Encoding: chunked" ++ CRLF
    ++ CRLF.

(** A request as a client means it. *)
Record Request : Type := mkRequest {
  qMethod : bytes;
  qUri : bytes;
  qVersion : bytes;
  qFields : list (bytes * bytes);
  qBody : bytes
}.

Definition wireHead (q : Request) : bytes :=
  headerBlock (qMethod q) (qUri q) (qVersion q) (map fieldOf (qFields q)).

(** The bytes of a request on the wire. *)
Definition wire (q : Request) : bytes := wireHead q ++ qBody q.

Definition isGetOrHead (m : bytes) : bool :=
  equals m (B "GET") || equals m (B "HEAD").

(** A request the server frames as the client meant it: tokens without
    spaces, no CR inside a line, a header block of at most 8192 bytes,
    no body and no Content-Length with GET and HEAD, and with any other
    method a Content-Length field holding the length of the body. *)
Definition wellFramed (q : Request) : Prop :=
  ~ In SP (qMethod q) /\ ~ In SP (qUri q) /\
  ~ In CR (qMethod q) /\ ~ In CR (qUri q) /\ ~ In CR (qVersion q) /\
  goodFields (qFields q) /\
  blen (wireHead q) <= 8192 /\
  (if isGetOrHead (qMethod q)
   then qBody q = [] /\ find isContentLength (qFields q) = None
   else exists k, find isContentLength (qFields q)
                  = Some (k, numToString 10 (blen (qBody q)))).

(** The bytes of the response the handler owes to a request. *)
Definition responseTo (q : Request) : bytes :=
  if equals (qUri q) (B "/echo") then echoHead (blen (qBody q)) ++ qBody q
  else if equals (qUri q) (B "/sheep")
       then chunkedHead ++ List.concat (map chunkFrame (sheepFrom 100 0)) ++ lastChunk
       else helloHead ++ helloBody.

(** A chunk as [readChunks] expects it: the size in decimal, the data,
    each followed by CRLF. *)
Definition decFrame (d : bytes) : bytes :=
  numToString 10 (blen d) ++ CRLF ++ d ++ CRLF.

(** ** socket.ts: the promise-based wrapper, event by event

    [soRead] above is the view the servers have of a connection.  Here
    is the wrapper itself: the connection object, the three event
    handlers [soInit] installs, and [soRead].  A promise is named by the
    number of the [soRead] call that returned it; a handler reports the
    promises it settles. *)

Module Socket.

Inductive Settle : Type :=
| Resolve (p : nat) (d : bytes)
| Reject (p : nat) (e : Exn).

Definition promiseOf (s : Settle) : nat :=
  match s with
  | Resolve p _ => p
  | Reject p _ => p
  end.

(** [TCPConn], with the flowing state of its socket. *)
Record TCPConn : Type := mkTCP {
  err : option Exn;
  ended : bool;
  reader : option nat;
  flowing : bool
}.

(** [soInit], on a socket created with [pauseOnConnect: true]. *)
Definition soInit : TCPConn := mkTCP None false None false.

(** [socket.on('data')]: pause, then [conn.reader!.resolve(data)], which
    is a [TypeError] when there is no reader. *)
Definition onData (d : bytes) (c : TCPConn) : Outcome (list Settle) * TCPConn :=
  match reader c with
  | Some p => (Ret [Resolve p d], mkTCP (err c) (ended c) None false)
  | None => (Throw TypeError, mkTCP (err c) (ended c) None false)
  end.

(** [socket.on('end')] *)
Definition onEnd (c : TCPConn) : list Settle * TCPConn :=
  match reader c with
  | Some p => ([Resolve p []], mkTCP (err c) true None (flowing c))
  | None => ([], mkTCP (err c) true None (flowing c))
  end.

(** [socket.on('error')] *)
Definition onError (e : Exn) (c : TCPConn) : list Settle * TCPConn :=
  match reader c with
  | Some p => ([Reject p e], mkTCP (Some e) (ended c) None (flowing c))
  | None => ([], mkTCP (Some e) (ended c) None (flowing c))
  end.

(** [soRead], returning promise [p]. *)
Definition soRead (p : nat) (c : TCPConn) : list Settle * TCPConn :=
  match err c with
  | Some e => ([Reject p e], c)
  | None =>
      if ended c then ([Resolve p []], c)
      else ([], mkTCP (err c) (ended c) (Some p) true)
  end.

(** What happens to a connection: the application reads, or the socket
    emits an event. *)
Inductive Act : Type :=
| Read
| Data (d : bytes)
| End
| Fail (e : Exn).

Record Run : Type := mkRun {
  tcp : TCPConn;
  next : nat;             (* the number of [soRead] calls so far *)
  log : list Settle       (* the promises settled so far, in order *)
}.

Definition start : Run := mkRun soInit 0 [].

Definition act (a : Act) (r : Run) : Outcome Run :=
  match a with
  | Read =>
      let '(s, c) := soRead (next r) (tcp r) in
      Ret (mkRun c (S (next r)) (log r ++ s))
  | Data d =>
      match onData d (tcp r) with
      | (Ret s, c) => Ret (mkRun c (next r) (log r ++ s))
      | (Throw e, _) => Throw e
      | (Diverge, _) => Diverge
      end
  | End =>
      let '(s, c) := onEnd (tcp r) in Ret (mkRun c (next r) (log r ++ s))
  | Fail e =>
      let '(s, c) := onError e (tcp r) in Ret (mkRun c (next r) (log r ++ s))
  end.

Fixpoint run (acts : list Act) (r : Run) : Outcome Run :=
  match acts with
  | [] => Ret r
  | a :: rest =>
      match act a r with
      | Ret r' => run rest r'
      | other => other
      end
  end.

(** The protocol between the socket and the application: the
    application awaits a read before it starts the next one; the socket
    emits data and the end of the stream only while it is flowing, before
    the end, and it emits nothing of the kind after an error. *)
Definition allowed (a : Act) (c : TCPConn) : Prop :=
  match a with
  | Read => reader c = None
  | Data _ => flowing c = true /\ ended c = false /\ err c = None
  | End => flowing c = true /\ ended c = false /\ err c = None
  | Fail _ => err c = None
  end.

Fixpoint inProtocol (r : Run) (acts : list Act) : Prop :=
  match acts with
  | [] => True
  | a :: rest =>
      allowed a (tcp r) /\
      match act a r with
      | Ret r' => inProtocol r' rest
      | _ => True
      end
  end.

(** One awaited read against a peer that still has [ds] to deliver and
    will then close: when the promise is not settled at once, the socket
    has been resumed and emits its next event. *)
Definition awaitRead (r : Run) (ds : list bytes) : Outcome (Run * list bytes) :=
  match act Read r with
  | Ret r1 =>
      match reader (tcp r1), ds with
      | None, _ => Ret (r1, ds)
      | Some _, d :: rest =>
          match act (Data d) r1 with
          | Ret r2 => Ret (r2, rest)
          | Throw e => Throw e
          | Diverge => Diverge
          end
      | Some _, [] =>
          match act End r1 with
          | Ret r2 => Ret (r2, [])
          | Throw e => Throw e
          | Diverge => Diverge
          end
      end
  | Throw e => Throw e
  | Diverge => Diverge
  end.

Fixpoint awaitReads (n : nat) (r : Run) (ds : list bytes) : Outcome (Run * list bytes) :=
  match n with
  | O => Ret (r, ds)
  | S k =>
      match awaitRead r ds with
      | Ret (r1, ds1) => awaitReads k r1 ds1
      | other => other
      end
  end.

End Socket.

(** The first [n] results of [soRead] on the receiving side of a
    connection. *)
Fixpoint readN (n : nat) (c : Conn) : list bytes :=
  match n with
  | O => []
  | S k =>
      match soRead c with
      | (Ret d, c') => d :: readN k c'
      | (_, _) => []
      end
  end.

(** ** http_server.ts: the server before chunked bodies

    The framer, the parser, the fixed-length and in-memory readers and
    the encoder are those above.  Three functions differ: [readerFromReq]
    gives up on a body of unknown length, [handleReq] has no generator
    behind it, and [writeHTTPResp] writes bodies of known length only. *)

Module Http1.

Definition readerFromReq (req : HTTPReq) : M World nat :=
  bodyLen0 <-
    match fieldGet (headers req) (B "Content-Length") with
    | Some contentLen =>
        match parseDec contentLen with
        | Some n => ret n
        | None => throw (HTTPError 400 "bad Content-Length.")
        end
    | None => ret (-1)
    end ;;
  let bodyAllowed :=
    negb (equals (method req) (B "GET") || equals (method req) (B "HEAD")) in
  let chunked :=
    match fieldGet (headers req) (B "Transfer-Encoding") with
    | Some v => equals v (B "chunked")
    | None => false
    end in
  if negb bodyAllowed && ((0 <? bodyLen0) || chunked)
  then throw (HTTPError 400 "HTTP body not allowed.")
  else
    let bodyLen := if negb bodyAllowed then 0 else bodyLen0 in
    if 0 <=? bodyLen then newReader (readerFromConnLength bodyLen)
    else if chunked then throw (HTTPError 501 "TODO")
    else throw (HTTPError 501 "TODO").

Definition handleReq (req : HTTPReq) (reqBody : nat) : M World HTTPRes :=
  resp <-
    (if equals (uri req) (B "/echo") then ret reqBody
     else newReader (readerFromMemory (B "hello world." ++ [LF]))) ;;
  ret (mkRes 200 [B "Server: my_first_http_server"] resp).

(** The loop [while (true)] of [writeHTTPResp]. *)
Fixpoint writeBody (fuel : nat) (ref : nat) : M World unit :=
  match fuel with
  | O => diverge
  | S f =>
      d <- read f ref ;;
      if blen d =? 0 then ret tt
      else soWrite d ;; writeBody f ref
  end.

Definition writeHTTPResp (fuel : nat) (resp : HTTPRes) : M World unit :=
  len <- lengthOf (body resp) ;;
  if len <? 0 then throw (Error "TODO: chunked encoding")
  else
    let hs := resHeaders resp ++ [B "Content-Length: " ++ numToString 10 len] in
    enc <- liftO (encodeHTTPResp (code resp) hs) ;;
    soWrite enc ;;
    writeBody fuel (body resp).

Fixpoint serveLoop (fuel : nat) : M World unit :=
  match fuel with
  | O => diverge
  | S f =>
      msg <- liftC cutMessageM ;;
      match msg with
      | None =>
          d <- liftC soRead ;;
          liftC (bufPushM d) ;;
          b <- liftC getBuf ;;
          if (blen d =? 0) && (length b =? 0) then ret tt
          else if blen d =? 0 then throw (HTTPError 400 "Expected EOF.")
          else serveLoop f
      | Some req =>
          reqBody <- readerFromReq req ;;
          res <- handleReq req reqBody ;;
          writeHTTPResp f res ;;
          if equals (version req) (B "1.0") then ret tt
          else
            drain f reqBody ;;
            serveLoop f
      end
  end.

Definition serveClient (fuel : nat) : M World unit :=
  fun w => serveLoop fuel (mkWorld (setBuf emptyBuf (conn w)) (written w) (heap w)).

Definition newConn (fuel : nat) : M World unit :=
  fun w =>
    match serveClient fuel w with
    | (Throw (HTTPError c msg), w1) =>
        match (r <- newReader (readerFromMemory (B msg ++ [LF])) ;;
               writeHTTPResp fuel (mkRes c [] r)) w1 with
        | (Diverge, w2) => (Diverge, w2)
        | (_, w2) => (Ret tt, w2)
        end
    | (Throw _, w1) => (Ret tt, w1)
    | other => other
    end.

End Http1.

(** ** One turn of the server loop

    The two HTTP servers run the same loop over three functions of their
    own: [rd] makes the body reader of a request, [hd] handles it, [wr]
    writes the response; [again] is the rest of the loop. *)

Definition turnWith
           (rd : HTTPReq -> M World nat)
           (hd : HTTPReq -> nat -> M World HTTPRes)
           (wr : nat -> HTTPRes -> M World unit)
           (f : nat) (again : M World unit) : M World unit :=
  msg <- liftC cutMessageM ;;
  match msg with
  | None =>
      d <- liftC soRead ;;
      liftC (bufPushM d) ;;
      b <- liftC getBuf ;;
      if (blen d =? 0) && (length b =? 0) then ret tt
      else if blen d =? 0 then throw (HTTPError 400 "Expected EOF.")
      else again
  | Some req =>
      reqBody <- rd req ;;
      res <- hd req reqBody ;;
      wr f res ;;
      if equals (version req) (B "1.0") then ret tt
      else
        drain f reqBody ;;
        again
  end.

(** [L] is the loop made of these turns. *)
Definition isLoopOf
           (rd : HTTPReq -> M World nat)
           (hd : HTTPReq -> nat -> M World HTTPRes)
           (wr : nat -> HTTPRes -> M World unit)
           (L : nat -> M World unit) : Prop :=
  forall f w, L (S f) w = turnWith rd hd wr f (L f) w.

(** A turn on a buffer that starts with the header of a request [q]
    that is [ok] writes [resp q], consumes the request, and goes on. *)
Definition answers
           (rd : HTTPReq -> M World nat)
           (hd : HTTPReq -> nat -> M World HTTPRes)
           (wr : nat -> HTTPRes -> M World unit)
           (resp : Request -> bytes) : Prop :=
  forall (q : Request) (tail : bytes) (f : nat) (again : M World unit)
         (ds : list bytes) (r : nat) (b : DynBuf) (rest : bytes)
         (out : list bytes) (h : list BodyReader),
    wellFramed q -> wf b -> liveStream ds ->
    window b = wireHead q ++ rest ->
    rest ++ List.concat ds = qBody q ++ tail ->
    (101 < f)%nat -> (Z.to_nat (blen (qBody q)) + 1 < f)%nat ->
    exists c' out' h',
      turnWith rd hd wr f again (mkWorld (mkConn ds r b) out h)
      = again (mkWorld c' out' h') /\
      List.concat out' = List.concat out ++ resp q /\
      wf (buf c') /\ liveStream (incoming c') /\ pending c' = tail /\
      deliveriesSeen c' = (r + List.length ds)%nat /\
      (r <= reads c')%nat.

(** The bytes of the response the older handler owes to a request. *)
Definition responseTo1 (q : Request) : bytes :=
  if equals (qUri q) (B "/echo") then echoHead (blen (qBody q)) ++ qBody q
  else helloHead ++ helloBody.

(** * Properties *)

Unset Implicit Arguments.

(** ** Lists of bytes *)

Lemma blen_nonneg (b : bytes) : 0 <= blen b.
Proof. unfold blen. lia. Qed.

Lemma blen_app (a b : bytes) : blen (a ++ b) = blen a + blen b.
Proof. unfold blen. rewrite length_app. lia. Qed.

Lemma blen_alloc (n : Z) : blen (Buf.alloc n) = Z.max 0 n.
Proof. unfold blen, Buf.alloc. rewrite repeat_length. lia. Qed.

Lemma blen_firstn (n : Z) (b : bytes) :
  0 <= n <= blen b -> blen (firstn (Z.to_nat n) b) = n.
Proof. unfold blen. intros H. rewrite length_firstn. lia. Qed.

Lemma blen_skipn (n : Z) (b : bytes) :
  0 <= n <= blen b -> blen (skipn (Z.to_nat n) b) = blen b - n.
Proof. unfold blen. intros H. rewrite length_skipn. lia. Qed.

Lemma firstn_prefix_twice (n m : nat) (l : bytes) :
  (n <= m)%nat -> firstn n (firstn m l) = firstn n l.
Proof. intros H. rewrite firstn_firstn. now rewrite Nat.min_l. Qed.

Lemma adjustOffset_in (n len : Z) :
  0 <= n <= len -> Buf.adjustOffset n len = n.
Proof.
  intros H. unfold Buf.adjustOffset.
  destruct (n <? 0) eqn:E; [apply Z.ltb_lt in E; lia | lia].
Qed.

(** Within range, [subarray(0, n)] is the prefix of length [n]. *)
Lemma subarray_prefix (b : bytes) (n : Z) :
  0 <= n <= blen b -> Buf.subarray b 0 n = firstn (Z.to_nat n) b.
Proof.
  intros H. unfold Buf.subarray.
  rewrite (adjustOffset_in 0) by lia.
  rewrite adjustOffset_in by lia.
  simpl. now rewrite Z.sub_0_r.
Qed.

Lemma subarray_all (b : bytes) : Buf.subarray b 0 (blen b) = b.
Proof.
  rewrite subarray_prefix by (pose proof (blen_nonneg b); lia).
  unfold blen. rewrite Nat2Z.id. apply firstn_all.
Qed.

Lemma window_wf (b : DynBuf) :
  wf b -> window b = firstn (Z.to_nat (length b)) (data b).
Proof. intros H. apply subarray_prefix. exact H. Qed.

Lemma blen_window (b : DynBuf) : wf b -> blen (window b) = length b.
Proof.
  intros H. rewrite window_wf by exact H. apply blen_firstn. exact H.
Qed.

(** ** The dynamic buffer *)

(** The doubling loop never stops for lack of fuel: with [fuel] doublings
    still allowed and [cap * 2 ^ fuel] large enough, it ends on a capacity
    that is enough. *)
Lemma double_until_enough (fuel : nat) :
  forall cap newLen,
    0 < cap -> newLen <= cap * 2 ^ Z.of_nat fuel ->
    newLen <= double_until fuel cap newLen.
Proof.
  induction fuel as [|f IH]; intros cap newLen Hc Hb.
  - simpl in *. lia.
  - cbn [double_until].
    destruct (cap <? newLen) eqn:E.
    + apply IH; [lia|].
      rewrite Nat2Z.inj_succ, Z.pow_succ_r in Hb by lia. lia.
    + apply Z.ltb_ge in E. exact E.
Qed.

Lemma grow_enough (cap newLen : Z) : 0 < cap -> newLen <= grow cap newLen.
Proof.
  intros Hc. unfold grow. apply double_until_enough; [exact Hc|].
  destruct (Z_le_gt_dec newLen 1) as [Hs|Hl].
  - assert (0 < 2 ^ Z.of_nat (Z.to_nat (Z.log2_up newLen))) by (apply Z.pow_pos_nonneg; lia).
    nia.
  - rewrite Z2Nat.id by apply Z.log2_up_nonneg.
    pose proof (Z.log2_up_spec newLen ltac:(lia)) as [_ Hu].
    nia.
Qed.

(** The result of the doubling loop is the start capacity doubled [k]
    times, for the least [k] that is enough. *)
Lemma double_until_shape (fuel : nat) :
  forall cap newLen,
    0 < cap ->
    exists k : Z,
      0 <= k /\ double_until fuel cap newLen = cap * 2 ^ k /\
      (k = 0 \/ cap * 2 ^ (k - 1) < newLen).
Proof.
  induction fuel as [|f IH]; intros cap newLen Hc.
  - exists 0. simpl. split; [lia|]. split; [lia|now left].
  - cbn [double_until]. destruct (cap <? newLen) eqn:E.
    + apply Z.ltb_lt in E.
      destruct (IH (cap * 2) newLen ltac:(lia)) as (k & Hk & Heq & Hmin).
      exists (k + 1). split; [lia|]. split.
      * rewrite Heq, Z.pow_add_r by lia. change (2 ^ 1) with 2. ring.
      * right. replace (k + 1 - 1) with k by lia.
        destruct (Z.eq_dec k 0) as [-> | Hnz].
        -- simpl. lia.
        -- destruct Hmin as [? | Hmin]; [lia|].
           replace k with ((k - 1) + 1) at 1 by lia.
           rewrite Z.pow_add_r by lia. change (2 ^ 1) with 2.
           replace (cap * (2 ^ (k - 1) * 2)) with (cap * 2 * 2 ^ (k - 1)) by ring.
           exact Hmin.
    + exists 0. split; [lia|]. split; [simpl; lia|now left].
Qed.

Lemma double_until_mono (fuel : nat) :
  forall cap newLen, 0 < cap -> cap <= double_until fuel cap newLen.
Proof.
  induction fuel as [|f IH]; intros cap newLen Hc; cbn [double_until]; [lia|].
  destruct (cap <? newLen); [|lia].
  specialize (IH (cap * 2) newLen ltac:(lia)). lia.
Qed.

(** [src.copy(target, at, 0)] when the bytes fit. *)
Lemma copy_fits (src target : bytes) (pos : Z) :
  0 <= pos -> pos + blen src <= blen target ->
  exists out,
    Buf.copy src target pos = Some out /\
    blen out = blen target /\
    firstn (Z.to_nat (pos + blen src)) out
      = firstn (Z.to_nat pos) target ++ src.
Proof.
  intros Hp Hfit. unfold Buf.copy.
  destruct (pos <? 0) eqn:E1; [apply Z.ltb_lt in E1; lia|].
  destruct (blen target <=? pos) eqn:E2.
  - apply Z.leb_le in E2. pose proof (blen_nonneg src) as Hs.
    assert (Hz : blen src = 0) by lia.
    assert (src = []) as -> by (destruct src; [reflexivity|unfold blen in Hz; simpl in Hz; lia]).
    exists target. split; [reflexivity|]. split; [reflexivity|].
    rewrite app_nil_r. now replace (pos + blen []) with pos by (unfold blen; simpl; lia).
  - apply Z.leb_gt in E2. pose proof (blen_nonneg src) as Hs.
    rewrite Z.min_l by lia.
    assert (Hfs : firstn (Z.to_nat (blen src)) src = src).
    { unfold blen. rewrite Nat2Z.id. apply firstn_all. }
    rewrite Hfs.
    eexists. split; [reflexivity|]. split.
    + rewrite !blen_app, blen_firstn, blen_skipn by lia. lia.
    + rewrite app_assoc. rewrite firstn_app.
      assert (Hl : List.length (firstn (Z.to_nat pos) target ++ src) = Z.to_nat (pos + blen src)).
      { rewrite length_app, length_firstn. unfold blen in *. lia. }
      rewrite Hl, Nat.sub_diag. simpl. rewrite app_nil_r.
      rewrite <- Hl. apply firstn_all.
Qed.

(** What [bufPush] does to a well-formed buffer. *)
Lemma bufPush_wf (b : DynBuf) (d : bytes) :
  wf b ->
  exists b',
    bufPush b d = (None, b') /\
    wf b' /\
    length b' = length b + blen d /\
    window b' = window b ++ d /\
    capacity b' =
      (if capacity b <? length b + blen d
       then grow (Z.max (capacity b) 32) (length b + blen d)
       else capacity b).
Proof.
  intros [Hl Hc]. unfold bufPush, capacity in *.
  pose proof (blen_nonneg d) as Hd.
  set (newLen := length b + blen d).
  assert (Hstore : exists store,
             (if blen (data b) <? newLen
              then Buf.copy (data b) (Buf.alloc (grow (Z.max (blen (data b)) 32) newLen)) 0
              else Some (data b)) = Some store /\
             blen store = (if blen (data b) <? newLen
                           then grow (Z.max (blen (data b)) 32) newLen
                           else blen (data b)) /\
             newLen <= blen store /\
             firstn (Z.to_nat (length b)) store = firstn (Z.to_nat (length b)) (data b)).
  { destruct (blen (data b) <? newLen) eqn:E.
    - apply Z.ltb_lt in E.
      pose proof (grow_enough (Z.max (blen (data b)) 32) newLen ltac:(lia)) as Hg.
      destruct (copy_fits (data b) (Buf.alloc (grow (Z.max (blen (data b)) 32) newLen)) 0)
        as (out & Hout & Hlen & Hpre).
      + lia.
      + rewrite blen_alloc. lia.
      + exists out. split; [exact Hout|]. rewrite Hlen, blen_alloc.
        split; [lia|]. split; [lia|].
        change (firstn (Z.to_nat 0) _ ++ data b) with (data b) in Hpre.
        replace (0 + blen (data b)) with (blen (data b)) in Hpre by lia.
        rewrite <- (firstn_prefix_twice (Z.to_nat (length b)) (Z.to_nat (blen (data b))) out) by lia.
        rewrite Hpre. reflexivity.
    - apply Z.ltb_ge in E. exists (data b). repeat split; lia. }
  destruct Hstore as (store & -> & Hcap & Hbig & Hpre).
  destruct (copy_fits d store (length b)) as (out & Hout & Hlen & Hpre').
  - lia.
  - fold newLen. lia.
  - exists (mkDynBuf out newLen). rewrite Hout. split; [reflexivity|].
    simpl. split; [unfold wf, capacity; simpl; lia|].
    split; [reflexivity|]. split.
    + unfold window. simpl. rewrite !subarray_prefix by lia.
      fold newLen in Hpre'. rewrite Hpre', Hpre. reflexivity.
    + rewrite Hlen, Hcap. reflexivity.
Qed.

(** What [bufPop] does to a well-formed buffer, within its contract. *)
Lemma bufPop_wf (b : DynBuf) (n : Z) :
  wf b -> 0 <= n <= length b ->
  wf (bufPop b n) /\
  length (bufPop b n) = length b - n /\
  capacity (bufPop b n) = capacity b /\
  window (bufPop b n) = skipn (Z.to_nat n) (window b).
Proof.
  intros [Hl Hc] Hn. unfold capacity in *.
  assert (Hdata : blen (data (bufPop b n)) = blen (data b) /\
                  firstn (Z.to_nat (length b - n)) (data (bufPop b n))
                  = firstn (Z.to_nat (length b - n)) (skipn (Z.to_nat n) (data b))).
  { unfold bufPop, Buf.copyWithin. cbn [data].
    rewrite (adjustOffset_in 0), (adjustOffset_in n), (adjustOffset_in (length b)) by lia.
    rewrite Z.min_l by lia.
    destruct (0 <? length b - n) eqn:E.
    - apply Z.ltb_lt in E. cbn [Z.to_nat firstn app]. split.
      + rewrite blen_app. rewrite Z.add_0_l.
        rewrite blen_skipn by lia.
        unfold blen at 1. rewrite length_firstn, length_skipn. unfold blen in *. lia.
      + rewrite firstn_app.
        assert (Hlen : List.length (firstn (Z.to_nat (length b - n)) (skipn (Z.to_nat n) (data b)))
                       = Z.to_nat (length b - n)).
        { rewrite length_firstn, length_skipn. unfold blen in *. lia. }
        rewrite Hlen, Nat.sub_diag. cbn [firstn]. rewrite app_nil_r.
        apply firstn_prefix_twice. lia.
    - apply Z.ltb_ge in E. replace (length b - n) with 0 by lia.
      split; reflexivity. }
  destruct Hdata as [Hcap Hpre].
  assert (Hwf : wf (bufPop b n)).
  { unfold wf, capacity. rewrite Hcap. cbn [bufPop length]. lia. }
  split; [exact Hwf|]. split; [reflexivity|]. split; [exact Hcap|].
  rewrite (window_wf _ Hwf). cbn [bufPop length] in *. rewrite Hpre.
  rewrite window_wf by (split; assumption).
  rewrite skipn_firstn_comm. f_equal. lia.
Qed.

Lemma runOps_app (ops1 ops2 : list BufOp) :
  forall b,
    runOps b (ops1 ++ ops2) =
    match runOps b ops1 with
    | (None, b1) => runOps b1 ops2
    | (Some e, b1) => (Some e, b1)
    end.
Proof.
  induction ops1 as [|op ops1 IH]; intros b; cbn [runOps app]; [reflexivity|].
  destruct (stepOp b op) as [[e|] b']; [reflexivity|apply IH].
Qed.

Lemma evicted_nonneg (ops : list BufOp) :
  forall len, inContract len ops -> 0 <= evicted ops.
Proof.
  induction ops as [|[d|n] ops IH]; intros len H; cbn [evicted inContract] in *.
  - lia.
  - eapply IH, H.
  - destruct H as [Hn H]. specialize (IH _ H). lia.
Qed.

(** The invariant of a run of in-contract operations from a well-formed
    buffer: no failure, a well-formed result holding the tail of the
    bytes, and a capacity that has not shrunk. *)
Lemma runOps_history (ops : list BufOp) :
  forall b0,
    wf b0 -> inContract (length b0) ops ->
    exists b,
      runOps b0 ops = (None, b) /\
      wf b /\
      length b = length b0 + blen (appended ops) - evicted ops /\
      window b = skipn (Z.to_nat (evicted ops)) (window b0 ++ appended ops) /\
      capacity b0 <= capacity b.
Proof.
  induction ops as [|[d|n] ops IH]; intros b0 Hwf Hc; cbn [runOps stepOp inContract appended evicted] in *.
  - exists b0. split; [reflexivity|]. split; [exact Hwf|].
    split; [change (blen []) with 0; lia|]. split; [now rewrite app_nil_r|lia].
  - destruct (bufPush_wf b0 d Hwf) as (b1 & Hpush & Hwf1 & Hlen1 & Hwin1 & Hcap1).
    rewrite Hpush.
    destruct (IH b1 Hwf1) as (b & Hrun & Hwfb & Hlen & Hwin & Hcap).
    { rewrite Hlen1. exact Hc. }
    exists b. split; [exact Hrun|]. split; [exact Hwfb|].
    split; [rewrite Hlen, Hlen1, blen_app; lia|].
    split; [rewrite Hwin, Hwin1, <- app_assoc; reflexivity|].
    assert (capacity b0 <= capacity b1); [|lia].
    rewrite Hcap1. destruct (capacity b0 <? length b0 + blen d) eqn:E; [|lia].
    unfold grow. pose proof (double_until_mono (Z.to_nat (Z.log2_up (length b0 + blen d)))
                               (Z.max (capacity b0) 32) (length b0 + blen d) ltac:(lia)). lia.
  - destruct Hc as [Hn Hc].
    destruct (bufPop_wf b0 n Hwf Hn) as (Hwf1 & Hlen1 & Hcap1 & Hwin1).
    destruct (IH (bufPop b0 n) Hwf1) as (b & Hrun & Hwfb & Hlen & Hwin & Hcap).
    { rewrite Hlen1. exact Hc. }
    exists b. split; [exact Hrun|]. split; [exact Hwfb|].
    split; [rewrite Hlen, Hlen1; lia|].
    split; [|lia].
    rewrite Hwin, Hwin1.
    pose proof (evicted_nonneg ops _ Hc) as He.
    rewrite Z2Nat.inj_add by lia.
    rewrite Nat.add_comm, <- skipn_skipn. f_equal.
    rewrite skipn_app.
    assert (Hz : (Z.to_nat n - List.length (window b0) = 0)%nat).
    { pose proof (blen_window b0 Hwf) as Hw. unfold blen in Hw. lia. }
    rewrite Hz. reflexivity.
Qed.

Lemma inContract_app (ops1 ops2 : list BufOp) :
  forall len,
    inContract len (ops1 ++ ops2) ->
    inContract len ops1 /\
    inContract (len + blen (appended ops1) - evicted ops1) ops2.
Proof.
  induction ops1 as [|[d|n] ops1 IH]; intros len H; cbn [app inContract appended evicted] in *.
  - split; [exact I|]. change (blen []) with 0.
    now replace (len + 0 - 0) with len by lia.
  - destruct (IH _ H) as [H1 H2]. split; [exact H1|].
    rewrite blen_app. now replace (len + (blen d + blen (appended ops1)) - evicted ops1)
      with (len + blen d + blen (appended ops1) - evicted ops1) by lia.
  - destruct H as [Hn H]. destruct (IH _ H) as [H1 H2]. split; [split; assumption|].
    now replace (len + blen (appended ops1) - (n + evicted ops1))
      with (len - n + blen (appended ops1) - evicted ops1) by lia.
Qed.

(** C9. For every sequence of appends and in-contract front evictions run
    on a fresh buffer, after each step (after every prefix [ops1] of the
    sequence) the valid bytes are the concatenation of the appended bytes
    with the evicted prefix removed; the capacity never shrinks from one
    point of the run to a later one and bounds the logical length; and
    an append either keeps the capacity or, when the new length does not
    fit, replaces it by [max(capacity, 32)] doubled the least number of
    times that makes it fit. *)
Theorem bytebuffer_tail_and_capacity :
  forall ops1 ops2 : list BufOp,
    inContract 0 (ops1 ++ ops2) ->
    exists b1 b2,
      runOps emptyBuf ops1 = (None, b1) /\
      runOps emptyBuf (ops1 ++ ops2) = (None, b2) /\
      window b1 = skipn (Z.to_nat (evicted ops1)) (appended ops1) /\
      length b1 = blen (appended ops1) - evicted ops1 /\
      0 <= length b1 <= capacity b1 /\
      capacity b1 <= capacity b2 /\
      (forall d, ops2 = [OpPush d] ->
         length b2 = length b1 + blen d /\
         length b2 <= capacity b2 /\
         (capacity b2 = capacity b1 \/
          capacity b1 < length b2 /\
          exists k, 0 <= k /\
            capacity b2 = Z.max (capacity b1) 32 * 2 ^ k /\
            (k = 0 \/ Z.max (capacity b1) 32 * 2 ^ (k - 1) < length b2))).
Proof.
  intros ops1 ops2 Hc.
  assert (Hwf0 : wf emptyBuf) by (unfold wf, capacity; cbn; lia).
  destruct (inContract_app ops1 ops2 0 Hc) as [Hc1 Hc2].
  destruct (runOps_history ops1 emptyBuf Hwf0 Hc1)
    as (b1 & Hrun1 & Hwf1 & Hlen1 & Hwin1 & _).
  cbn [emptyBuf length] in Hlen1.
  destruct (runOps_history ops2 b1 Hwf1) as (b2 & Hrun2 & Hwf2 & Hlen2 & _ & Hcap2).
  { rewrite Hlen1. exact Hc2. }
  exists b1, b2. split; [exact Hrun1|].
  split; [rewrite runOps_app, Hrun1; exact Hrun2|].
  split; [exact Hwin1|]. split; [lia|]. split; [exact Hwf1|]. split; [exact Hcap2|].
  intros d ->. cbn [runOps stepOp] in Hrun2.
  destruct (bufPush_wf b1 d Hwf1) as (b' & Hpush & Hwf' & Hlen' & _ & Hcap').
  rewrite Hpush in Hrun2. injection Hrun2 as <-.
  split; [exact Hlen'|]. split; [apply Hwf'|].
  rewrite Hcap', Hlen'. destruct (capacity b1 <? length b1 + blen d) eqn:E; [|now left].
  right. apply Z.ltb_lt in E. split; [exact E|].
  unfold grow. apply double_until_shape. lia.
Qed.

(** A run on which the theorem can be observed: two appends, an
    eviction, then an append that forces the store to grow. *)
Lemma bytebuffer_tail_and_capacity_witness :
  exists b1 b2,
    runOps emptyBuf [OpPush (B "hello"); OpPush (B " world"); OpPop 6] = (None, b1) /\
    runOps emptyBuf ([OpPush (B "hello"); OpPush (B " world"); OpPop 6]
                       ++ [OpPush (Buf.alloc 40)]) = (None, b2) /\
    window b1 = B "world" /\
    capacity b1 = 32 /\ capacity b2 = 64.
Proof.
  destruct (bytebuffer_tail_and_capacity
              [OpPush (B "hello"); OpPush (B " world"); OpPop 6]
              [OpPush (Buf.alloc 40)])
    as (b1 & b2 & H1 & H2 & H3 & _).
  - cbn. repeat split; lia.
  - exists b1, b2. split; [exact H1|]. split; [exact H2|].
    vm_compute in H1. injection H1 as <-.
    vm_compute in H2. injection H2 as <-.
    repeat split; reflexivity.
Defined.

(** ** Searching *)

Lemma startsWith_true (p : bytes) :
  forall l, Buf.startsWith p l = true -> exists rest, l = p ++ rest.
Proof.
  induction p as [|x p IH]; intros l H.
  - exists l. reflexivity.
  - destruct l as [|y l]; cbn [Buf.startsWith] in H; [discriminate|].
    apply andb_prop in H as [Hxy Hp].
    apply Byte.byte_dec_bl in Hxy. subst y.
    destruct (IH l Hp) as [rest ->]. exists rest. reflexivity.
Qed.

Lemma startsWith_app (p rest : bytes) : Buf.startsWith p (p ++ rest) = true.
Proof.
  induction p as [|x p IH]; cbn [Buf.startsWith app]; [reflexivity|].
  rewrite IH, (Byte.byte_dec_lb (eq_refl x)). reflexivity.
Qed.

Lemma indexOf_cons (x : byte) (t needle : bytes) :
  Buf.indexOf (x :: t) needle =
  if Buf.startsWith needle (x :: t) then 0
  else if Buf.indexOf t needle <? 0 then -1 else Buf.indexOf t needle + 1.
Proof. reflexivity. Qed.

Lemma indexOf_nil (needle : bytes) :
  Buf.indexOf [] needle = if Buf.startsWith needle [] then 0 else -1.
Proof. reflexivity. Qed.

Lemma indexOf_lower (hay needle : bytes) : -1 <= Buf.indexOf hay needle.
Proof.
  induction hay as [|x t IH].
  - rewrite indexOf_nil. destruct (Buf.startsWith needle []); lia.
  - rewrite indexOf_cons. destruct (Buf.startsWith needle (x :: t)); [lia|].
    destruct (Buf.indexOf t needle <? 0) eqn:E; [lia|]. apply Z.ltb_ge in E. lia.
Qed.

(** A non-negative [indexOf] is the position of an occurrence. *)
Lemma indexOf_found (hay needle : bytes) :
  0 <= Buf.indexOf hay needle ->
  exists pre post,
    hay = pre ++ needle ++ post /\ blen pre = Buf.indexOf hay needle.
Proof.
  induction hay as [|x t IH].
  - rewrite indexOf_nil. destruct (Buf.startsWith needle []) eqn:E; [|lia].
    intros _. destruct (startsWith_true _ _ E) as [rest Hr].
    exists [], rest. split; [exact Hr|reflexivity].
  - rewrite indexOf_cons. destruct (Buf.startsWith needle (x :: t)) eqn:E.
    + intros _. destruct (startsWith_true _ _ E) as [rest Hr].
      exists [], rest. split; [exact Hr|reflexivity].
    + destruct (Buf.indexOf t needle <? 0) eqn:En; [lia|].
      apply Z.ltb_ge in En. intros _.
      destruct (IH En) as (pre & post & Ht & Hlen).
      exists (x :: pre), post. split; [rewrite Ht at 1; reflexivity|].
      unfold blen in *. cbn [List.length]. lia.
Qed.

Lemma indexOf_none (hay needle : bytes) :
  Buf.indexOf hay needle < 0 -> ~ occurs needle hay.
Proof.
  induction hay as [|x t IH].
  - rewrite indexOf_nil. destruct (Buf.startsWith needle []) eqn:E; [lia|].
    intros _ (pre & post & H).
    destruct pre; [|discriminate]. destruct needle; [discriminate E|discriminate].
  - rewrite indexOf_cons. destruct (Buf.startsWith needle (x :: t)) eqn:E; [lia|].
    destruct (Buf.indexOf t needle <? 0) eqn:En.
    + apply Z.ltb_lt in En. intros _ (pre & post & H).
      destruct pre as [|y pre]; cbn [app] in H.
      * rewrite H, startsWith_app in E. discriminate.
      * injection H as _ H. apply (IH En). exists pre, post. exact H.
    + apply Z.ltb_ge in En. lia.
Qed.

(** [indexOf] is negative exactly when the needle does not occur. *)
Lemma indexOf_absent (hay needle : bytes) :
  Buf.indexOf hay needle < 0 <-> ~ occurs needle hay.
Proof.
  split; [apply indexOf_none|].
  intros Hno. destruct (Z_lt_ge_dec (Buf.indexOf hay needle) 0) as [Hlt|Hge]; [exact Hlt|].
  exfalso. apply Hno.
  destruct (indexOf_found hay needle ltac:(lia)) as (pre & post & H & _).
  exists pre, post. exact H.
Qed.

(** ** The header framer *)

Lemma parseRequestLine_exn (d : bytes) (e : Exn) :
  parseRequestLine d = Throw e -> exists m, e = HTTPError 400 m.
Proof.
  unfold parseRequestLine.
  destruct (_ <? 0); [intros [= <-]; eauto|].
  destruct (_ <? 0); [intros [= <-]; eauto|discriminate].
Qed.

Lemma checkHeaders_exn (ls : list bytes) :
  forall acc e, checkHeaders ls acc = Throw e -> exists m, e = HTTPError 400 m.
Proof.
  induction ls as [|h ls IH]; intros acc e; cbn [checkHeaders]; [discriminate|].
  destruct (validateHeader h); [apply IH|intros [= <-]; eauto].
Qed.

(** The parser fails with [TypeError] or a status-400 error only, and it
    never loops. *)
Lemma parseHTTPReq_exn (d : bytes) :
  parseHTTPReq d <> Diverge /\
  forall e, parseHTTPReq d = Throw e ->
            e = TypeError \/ exists m, e = HTTPError 400 m.
Proof.
  unfold parseHTTPReq. destruct (splitLines d) as [|line0 rest].
  - split; [discriminate|]. intros e [= <-]. now left.
  - destruct (parseRequestLine line0) as [[[m u] v]|e0|] eqn:E1.
    + destruct (checkHeaders (removelast rest) []) as [hs|e1|] eqn:E2.
      * split; discriminate.
      * split; [discriminate|]. intros e [= <-]. right.
        eapply checkHeaders_exn, E2.
      * exfalso. clear - E2. revert E2. generalize (@nil bytes).
        induction (removelast rest) as [|h ls IH]; intros acc; cbn [checkHeaders]; [discriminate|].
        destruct (validateHeader h); [apply IH|discriminate].
    + split; [discriminate|]. intros e [= <-]. right.
      eapply parseRequestLine_exn, E1.
    + exfalso. clear - E1. unfold parseRequestLine in E1.
      destruct (_ <? 0); [discriminate|]. destruct (_ <? 0); discriminate.
Qed.

Lemma conn_eta (c : Conn) : setBuf (buf c) c = c.
Proof. destruct c. reflexivity. Qed.

Lemma world_eta (w : World) : mkWorld (conn w) (written w) (heap w) = w.
Proof. destruct w. reflexivity. Qed.

(** C8. The header framer throws a status-413 error exactly when the
    buffered bytes hold no [\r\n\r\n] and the buffered length has reached
    8192; the server loop then fails with that error before any read
    (the world, and with it the read counter and the pending deliveries,
    is untouched); below 8192 with no delimiter the framer reports
    "no complete header" and leaves the buffer as it is. *)
Theorem header_too_large_exactly (b : DynBuf) :
  ((exists msg, fst (cutMessage b) = Throw (HTTPError 413 msg)) <->
   (~ occurs headerEnd (window b) /\ 8192 <= length b)) /\
  (~ occurs headerEnd (window b) -> 8192 <= length b ->
   cutMessage b = (Throw (HTTPError 413 "header is too large"), b) /\
   forall fuel w, buf (conn w) = b ->
     serveLoop (S fuel) w = (Throw (HTTPError 413 "header is too large"), w)) /\
  (~ occurs headerEnd (window b) -> length b < 8192 ->
   cutMessage b = (Ret None, b)).
Proof.
  assert (Hthrow : ~ occurs headerEnd (window b) -> 8192 <= length b ->
                   cutMessage b = (Throw (HTTPError 413 "header is too large"), b)).
  { intros Hno Hlen. apply indexOf_absent in Hno. unfold cutMessage.
    fold headerEnd. apply Z.ltb_lt in Hno. rewrite Hno.
    change kMaxHeaderLen with 8192.
    apply Z.leb_le in Hlen. rewrite Hlen. reflexivity. }
  split; [|split].
  - split.
    + intros [msg H]. unfold cutMessage in H. fold headerEnd in H.
      destruct (Buf.indexOf (window b) headerEnd <? 0) eqn:E.
      * apply Z.ltb_lt, indexOf_absent in E. split; [exact E|].
        change kMaxHeaderLen with 8192 in H.
        destruct (8192 <=? length b) eqn:El; [now apply Z.leb_le|discriminate].
      * exfalso.
        destruct (parseHTTPReq_exn (Buf.subarray (data b) 0 (Buf.indexOf (window b) headerEnd + 4)))
          as [_ Hexn].
        destruct (parseHTTPReq _) as [req|e|]; cbn [fst] in H; try discriminate.
        injection H as ->.
        destruct (Hexn _ eq_refl) as [Ht|[m Hm]]; discriminate.
    + intros [Hno Hlen]. exists "header is too large"%string.
      now rewrite Hthrow.
  - intros Hno Hlen. split; [now apply Hthrow|].
    intros fuel w Hb. cbn [serveLoop]. unfold bind, liftC, cutMessageM.
    rewrite Hb, Hthrow by assumption. rewrite <- Hb, conn_eta, world_eta. reflexivity.
  - intros Hno Hlen. apply indexOf_absent in Hno. unfold cutMessage.
    fold headerEnd. apply Z.ltb_lt in Hno. rewrite Hno.
    change kMaxHeaderLen with 8192.
    apply Z.leb_gt in Hlen. rewrite Hlen. reflexivity.
Qed.

(** A buffer of 8192 bytes with no header delimiter: the framer throws
    413, and the server loop fails before reading the pending delivery. *)
Lemma header_too_large_exactly_witness :
  let b := bufOf (repeat "a"%byte (Z.to_nat 8192)) 8192 in
  let w := mkWorld (mkConn [B "more"] 0 b) [] [] in
  cutMessage b = (Throw (HTTPError 413 "header is too large"), b) /\
  serveLoop 1 w = (Throw (HTTPError 413 "header is too large"), w).
Proof.
  intros b w.
  destruct (header_too_large_exactly b) as (_ & Hbig & _).
  assert (Hno : ~ occurs headerEnd (window b)).
  { apply indexOf_absent. vm_compute. reflexivity. }
  assert (Hlen : 8192 <= length b) by (vm_compute; discriminate).
  destruct (Hbig Hno Hlen) as [Hcut Hloop].
  split; [exact Hcut|]. apply (Hloop 0%nat w). reflexivity.
Defined.

(** The same on a whole connection: a first delivery of 8192 bytes with
    no delimiter is answered with the 413 response after that one read,
    with the second delivery still pending. *)
Lemma oversized_header_run :
  exists w1 w2,
    serveClient 3 (connOf [repeat "a"%byte (Z.to_nat 8192); B "more"])
    = (Throw (HTTPError 413 "header is too large"), w1) /\
    reads (conn w1) = 1%nat /\ incoming (conn w1) = [B "more"] /\
    newConn 3 (connOf [repeat "a"%byte (Z.to_nat 8192); B "more"]) = (Ret tt, w2) /\
    reads (conn w2) = 1%nat /\
    written w2 =
      [B "HTTP/1.1 413 Request Entity Too Large" ++ CRLF
         ++ B "Content-Length: 20" ++ CRLF ++ CRLF;
       B "header is too large" ++ [LF]].
Proof.
  eexists. eexists.
  split; [vm_compute; reflexivity|]. split; [reflexivity|]. split; [reflexivity|].
  split; [vm_compute; reflexivity|]. split; reflexivity.
Qed.

(** ** The fixed-length reader *)

Lemma firstn_window (b : DynBuf) (n : Z) :
  wf b -> 0 <= n <= length b ->
  Buf.subarray (data b) 0 n = firstn (Z.to_nat n) (window b).
Proof.
  intros Hwf Hn. rewrite subarray_prefix by (unfold wf, capacity in Hwf; lia).
  rewrite window_wf by exact Hwf. symmetry. apply firstn_prefix_twice. lia.
Qed.

Lemma bytes_nonempty (d : bytes) : d <> [] <-> 0 < blen d.
Proof.
  unfold blen. destruct d; cbn [List.length]; split; intros H;
    try lia; try congruence.
Qed.

Lemma window_empty (b : DynBuf) : wf b -> length b = 0 -> window b = [].
Proof.
  intros Hwf H0. rewrite window_wf by exact Hwf. now rewrite H0.
Qed.

Lemma fetchBody_buffered (c : Conn) :
  length (buf c) <> 0 -> fetchBody c = (Ret tt, c).
Proof.
  intros H. unfold fetchBody, bind, getBuf, ret.
  apply Z.eqb_neq in H. now rewrite H.
Qed.

Lemma fetchBody_fetch (c : Conn) (d : bytes) (rest : list bytes) (b1 : DynBuf) :
  length (buf c) = 0 -> incoming c = d :: rest -> d <> [] ->
  bufPush (buf c) d = (None, b1) ->
  fetchBody c = (Ret tt, mkConn rest (S (reads c)) b1).
Proof.
  intros Hl Hin Hd Hpush.
  unfold fetchBody, bind, getBuf, soRead, bufPushM, setBuf, ret.
  cbv beta iota. rewrite Hl. cbn [Z.eqb]. cbv beta iota. rewrite Hin.
  cbv beta iota. cbn [incoming reads buf]. rewrite Hpush.
  cbv beta iota. cbn [incoming reads buf].
  apply bytes_nonempty in Hd.
  destruct (blen d =? 0) eqn:Ed; [apply Z.eqb_eq in Ed; lia|reflexivity].
Qed.

Lemma fetchBody_eof (c : Conn) (b1 : DynBuf) :
  length (buf c) = 0 ->
  incoming c = [] \/ (exists rest, incoming c = [] :: rest) ->
  bufPush (buf c) [] = (None, b1) ->
  exists c',
    fetchBody c = (Throw (Error "Unexpected EOF from HTTP body"), c') /\
    reads c' = S (reads c).
Proof.
  intros Hl Hin Hpush.
  unfold fetchBody, bind, getBuf, soRead, bufPushM, setBuf, throw.
  cbv beta iota. rewrite Hl. cbn [Z.eqb]. cbv beta iota.
  destruct Hin as [Hin|[rest Hin]]; rewrite Hin;
    cbv beta iota; cbn [incoming reads buf]; rewrite Hpush;
    cbv beta iota; cbn [blen List.length Z.of_nat Z.eqb];
    eexists; split; reflexivity.
Qed.

(** The consuming half of [read()], from a connection whose buffer is
    well formed and non-empty. *)
Lemma connLength_consume (fuel : nat) (remain : Z) (c : Conn) :
  wf (buf c) -> 0 < remain -> 0 < length (buf c) ->
  let n := Z.min remain (length (buf c)) in
  readState fuel (ConnLength remain) c =
    (Ret (firstn (Z.to_nat n) (window (buf c))),
     ConnLength (remain - n),
     setBuf (bufPop (buf c) n) c).
Proof.
  intros Hwf Hr Hl n. unfold readState.
  destruct (remain =? 0) eqn:E0; [apply Z.eqb_eq in E0; lia|].
  rewrite fetchBody_buffered by lia.
  rewrite (Z.min_comm (length (buf c)) remain). fold n.
  rewrite firstn_window by first [assumption | unfold n; lia].
  reflexivity.
Qed.

(** C6. A fixed-length reader with [remain > 0] over a well-formed
    buffer. With bytes buffered it reads nothing from the connection;
    with an empty buffer it fetches exactly one delivery, and fails with
    the "Unexpected EOF from HTTP body" error when that delivery is
    empty. Otherwise it returns, evicts and subtracts exactly
    [min(remain, buffered)] bytes, which is at least one byte; with
    [remain = 0] it returns the empty chunk and touches nothing. On
    [POST /echo HTTP/1.1\r\nContent-Length: 5\r\n\r\nhello] the reader built
    by [readerFromReq] returns [hello] and then the empty chunk. *)
Theorem fixed_length_read :
  (forall (fuel : nat) (remain : Z) (c : Conn),
  wf (buf c) -> 0 < remain ->
  (* bytes are buffered: no read, consume from the buffer *)
  (0 < length (buf c) ->
   let n := Z.min remain (length (buf c)) in
   exists b',
     readState fuel (ConnLength remain) c =
       (Ret (firstn (Z.to_nat n) (window (buf c))), ConnLength (remain - n),
        mkConn (incoming c) (reads c) b') /\
     window b' = skipn (Z.to_nat n) (window (buf c)) /\
     length b' = length (buf c) - n /\ 0 < n /\ 0 <= remain - n) /\
  (* the buffer is empty and the next delivery is not: one read *)
  (length (buf c) = 0 ->
   forall d rest, incoming c = d :: rest -> d <> [] ->
   let n := Z.min remain (blen d) in
   exists b',
     readState fuel (ConnLength remain) c =
       (Ret (firstn (Z.to_nat n) d), ConnLength (remain - n),
        mkConn rest (S (reads c)) b') /\
     window b' = skipn (Z.to_nat n) d /\
     length b' = blen d - n /\ 0 < n /\ 0 <= remain - n) /\
  (* the buffer is empty and so is the fetch: the mid-body error *)
  (length (buf c) = 0 ->
   incoming c = [] \/ (exists rest, incoming c = [] :: rest) ->
   exists c',
     readState fuel (ConnLength remain) c =
       (Throw (Error "Unexpected EOF from HTTP body"), ConnLength remain, c') /\
     reads c' = S (reads c)) /\
  (* the empty chunk is returned exactly when nothing remains *)
  (forall d st c', readState fuel (ConnLength remain) c = (Ret d, st, c') -> d <> [])) /\
  (forall fuel c0, readState fuel (ConnLength 0) c0 = (Ret [], ConnLength 0, c0)) /\
  (* the example of the specification *)
  (forall fuel, exists b0 req w1 w2 w3,
     bufPush emptyBuf wirePostHello = (None, b0) /\
     cutMessageM (mkConn [] 0 b0) = (Ret (Some req), conn w1) /\ heap w1 = [] /\
     readerFromReq req w1 = (Ret 0%nat, w2) /\
     heap w2 = [readerFromConnLength 5] /\
     read fuel 0 w2 = (Ret (B "hello"), w3) /\
     read fuel 0 w3 = (Ret [], w3) /\
     reads (conn w3) = 0%nat).
Proof.
  split; [|split].
  { intros fuel remain c Hwf Hr.
  assert (Hbuffered :
            forall c1, wf (buf c1) -> 0 < length (buf c1) ->
            let n := Z.min remain (length (buf c1)) in
            exists b',
              readState fuel (ConnLength remain) c1 =
                (Ret (firstn (Z.to_nat n) (window (buf c1))), ConnLength (remain - n),
                 mkConn (incoming c1) (reads c1) b') /\
              window b' = skipn (Z.to_nat n) (window (buf c1)) /\
              length b' = length (buf c1) - n /\ 0 < n /\ 0 <= remain - n).
  { intros c1 Hwf1 Hl n.
    destruct (bufPop_wf (buf c1) n Hwf1 ltac:(unfold n; lia)) as (_ & Hlen & _ & Hwin).
    exists (bufPop (buf c1) n).
    rewrite connLength_consume by assumption. fold n.
    split; [reflexivity|]. split; [exact Hwin|]. split; [exact Hlen|]. unfold n. lia. }
  split; [|split; [|split]].
  - intros Hl. apply Hbuffered; assumption.
  - intros Hl d rest Hin Hd n. subst n.
    destruct (bufPush_wf (buf c) d Hwf) as (b1 & Hpush & Hwf1 & Hlen1 & Hwin1 & _).
    rewrite (window_empty (buf c)) in Hwin1 by assumption. cbn [app] in Hwin1.
    pose proof (proj1 (bytes_nonempty d) Hd) as Hd'.
    assert (Hb1 : length b1 = blen d) by lia.
    destruct (Hbuffered (mkConn rest (S (reads c)) b1) Hwf1 ltac:(cbn; lia))
      as (b' & Hread & Hwin & Hlen & Hn).
    cbn [buf incoming reads] in Hread, Hwin, Hlen, Hn.
    rewrite Hb1 in Hread, Hwin, Hlen, Hn. rewrite Hwin1 in Hread, Hwin.
    exists b'. split; [|split; [exact Hwin|split; [exact Hlen|exact Hn]]].
    rewrite <- Hread. unfold readState.
    destruct (remain =? 0) eqn:E0; [apply Z.eqb_eq in E0; lia|].
    rewrite (fetchBody_fetch c d rest b1 Hl Hin Hd Hpush).
    rewrite fetchBody_buffered by (cbn [buf]; lia).
    reflexivity.
  - intros Hl Hin.
    destruct (bufPush_wf (buf c) [] Hwf) as (b1 & Hpush & _).
    destruct (fetchBody_eof c b1 Hl Hin Hpush) as (c' & Hf & Hreads).
    exists c'. split; [|exact Hreads].
    unfold readState.
    destruct (remain =? 0) eqn:E0; [apply Z.eqb_eq in E0; lia|].
    rewrite Hf. reflexivity.
  - intros d st c' Hread.
    destruct (Z_lt_ge_dec 0 (length (buf c))) as [Hl|Hl].
    + destruct (Hbuffered c Hwf Hl) as (b' & Heq & _ & _ & Hn & _).
      rewrite Heq in Hread. injection Hread as <- _ _.
      apply bytes_nonempty. rewrite blen_firstn; [exact Hn|].
      rewrite blen_window by exact Hwf. lia.
    + assert (Hl0 : length (buf c) = 0) by (unfold wf in Hwf; lia).
      destruct (incoming c) as [|d0 rest] eqn:Hin.
      * destruct (bufPush_wf (buf c) [] Hwf) as (b1 & Hpush & _).
        destruct (fetchBody_eof c b1 Hl0 (or_introl Hin) Hpush) as (c1 & Hf & _).
        revert Hread. unfold readState.
        destruct (remain =? 0) eqn:E0; [apply Z.eqb_eq in E0; lia|].
        rewrite Hf. discriminate.
      * destruct d0 as [|x d0].
        -- destruct (bufPush_wf (buf c) [] Hwf) as (b1 & Hpush & _).
           destruct (fetchBody_eof c b1 Hl0 (or_intror (ex_intro _ rest Hin)) Hpush)
             as (c1 & Hf & _).
           revert Hread. unfold readState.
           destruct (remain =? 0) eqn:E0; [apply Z.eqb_eq in E0; lia|].
           rewrite Hf. discriminate.
        -- destruct (bufPush_wf (buf c) (x :: d0) Hwf)
             as (b1 & Hpush & Hwf1 & Hlen1 & Hwin1 & _).
           assert (Hne : x :: d0 <> []) by discriminate.
           pose proof (proj1 (bytes_nonempty _) Hne) as Hpos.
           set (c1 := mkConn rest (S (reads c)) b1).
           destruct (Hbuffered c1 Hwf1 ltac:(cbn; lia)) as (b' & Heq & _ & _ & Hn & _).
           revert Hread. unfold readState in *.
           destruct (remain =? 0) eqn:E0; [apply Z.eqb_eq in E0; lia|].
           rewrite (fetchBody_fetch c (x :: d0) rest b1 Hl0 Hin Hne Hpush).
           fold c1. rewrite fetchBody_buffered in Heq by (cbn [c1 buf]; lia).
           rewrite Heq. intros [= <- _ _].
           apply bytes_nonempty. rewrite blen_firstn; [exact Hn|].
           rewrite blen_window by exact Hwf1. cbn [c1 buf]. lia.
  }
  - intros fuel c0. reflexivity.
  - intros fuel.
    eexists. eexists. eexists (mkWorld _ [] []). eexists. eexists.
    split; [cbv; reflexivity|].
    split; [cbv; reflexivity|].
    split; [reflexivity|].
    split; [cbv; reflexivity|].
    split; [reflexivity|].
    split; [cbv; reflexivity|].
    split; [cbv; reflexivity|].
    reflexivity.
Qed.

(** A reader with five bytes to go over a buffer that holds three: it
    returns the three, and two remain. *)
Lemma fixed_length_read_witness :
  exists b',
    readState 0 (ConnLength 5) (mkConn [B "lo"] 1 (bufOf (B "hel") 32))
    = (Ret (B "hel"), ConnLength 2, mkConn [B "lo"] 1 b') /\
    window b' = [] /\ length b' = 0.
Proof.
  assert (Hwf : wf (bufOf (B "hel") 32)) by (unfold wf; cbn; lia).
  destruct (proj1 fixed_length_read 0%nat 5 (mkConn [B "lo"] 1 (bufOf (B "hel") 32))
              Hwf eq_refl) as (Hbuffered & _).
  destruct (Hbuffered eq_refl) as (b' & Hread & Hwin & Hlen & _).
  exists b'. split; [exact Hread|]. split; [exact Hwin|exact Hlen].
Defined.

(** ** The line splitter *)

Lemma subarray_mid (b : bytes) (s e : Z) :
  0 <= s <= e -> e <= blen b ->
  Buf.subarray b s e = firstn (Z.to_nat (e - s)) (skipn (Z.to_nat s) b).
Proof.
  intros Hs He. unfold Buf.subarray.
  now rewrite (adjustOffset_in s), (adjustOffset_in e) by lia.
Qed.

Lemma subarray_suffix (b : bytes) (s : Z) :
  0 <= s -> Buf.subarray b s (blen b) = skipn (Z.to_nat s) b.
Proof.
  intros Hs. pose proof (blen_nonneg b) as Hb.
  destruct (Z_le_gt_dec s (blen b)) as [Hle|Hgt].
  - rewrite subarray_mid by lia. apply firstn_all2.
    rewrite length_skipn. unfold blen in *. lia.
  - unfold Buf.subarray, Buf.adjustOffset.
    destruct (s <? 0) eqn:E1; [apply Z.ltb_lt in E1; lia|].
    destruct (blen b <? 0) eqn:E2; [apply Z.ltb_lt in E2; lia|].
    rewrite (Z.min_r s) by lia. rewrite Z.min_id, Z.sub_diag. cbn [Z.to_nat firstn].
    symmetry. apply skipn_all2. unfold blen in *. lia.
Qed.

(** A suffix of a line that ends in CR is empty or ends in CR. *)
Lemma suffix_endsWithCR (l : bytes) (s : Z) :
  endsWithCR l -> 0 <= s ->
  Buf.subarray l s (blen l) = [] \/ endsWithCR (Buf.subarray l s (blen l)).
Proof.
  intros [p ->] Hs. rewrite subarray_suffix by exact Hs.
  rewrite skipn_app.
  destruct (Nat.le_gt_cases (Z.to_nat s) (List.length p)) as [Hle|Hgt].
  - right. replace (Z.to_nat s - List.length p)%nat with 0%nat by lia.
    cbn [skipn]. now exists (skipn (Z.to_nat s) p).
  - left. rewrite skipn_all2 by lia.
    destruct (Z.to_nat s - List.length p)%nat eqn:E; [lia|].
    cbn [skipn app]. now destruct n.
Qed.

(** Each line the loop cuts is the text before a CRLF together with the
    CR: the end index [idx1 + idx2 + 1] is one too far. *)
Lemma splitLines_loop_CR (fuel : nat) (d : bytes) :
  forall idx1 idx2 lines,
    0 <= idx1 <= blen d ->
    idx2 = Buf.indexOf (Buf.subarray d idx1 (blen d)) CRLF ->
    Forall endsWithCR lines ->
    Forall endsWithCR (splitLines_loop fuel d idx1 idx2 lines).
Proof.
  induction fuel as [|f IH]; intros idx1 idx2 lines Hi Hidx Hlines;
    cbn [splitLines_loop]; [exact Hlines|].
  destruct (0 <=? idx2) eqn:E; [|exact Hlines].
  apply Z.leb_le in E.
  rewrite subarray_suffix in Hidx by lia.
  destruct (indexOf_found (skipn (Z.to_nat idx1) d) CRLF ltac:(lia))
    as (pre & post & Hsplit & Hpre).
  rewrite <- Hidx in Hpre.
  assert (Hlen : blen d = idx1 + idx2 + 2 + blen post).
  { pose proof (f_equal blen Hsplit) as Hl.
    rewrite blen_skipn, !blen_app in Hl by lia.
    change (blen CRLF) with 2 in Hl. lia. }
  pose proof (blen_nonneg post) as Hpost.
  apply IH.
  - lia.
  - reflexivity.
  - apply Forall_app. split; [exact Hlines|]. constructor; [|constructor].
    exists pre. rewrite subarray_mid by lia.
    rewrite Hsplit. replace (idx1 + idx2 + 1 - idx1) with (blen pre + 1) by lia.
    change (CRLF ++ post) with ([CR] ++ LF :: post). rewrite app_assoc.
    rewrite firstn_app.
    assert (Hl : List.length (pre ++ [CR]) = Z.to_nat (blen pre + 1)).
    { rewrite length_app. unfold blen. cbn [List.length]. lia. }
    rewrite <- Hl, Nat.sub_diag, firstn_all. cbn [firstn]. now rewrite app_nil_r.
Qed.

Lemma splitLines_CR (d : bytes) : Forall endsWithCR (splitLines d).
Proof.
  unfold splitLines. apply splitLines_loop_CR.
  - pose proof (blen_nonneg d). lia.
  - reflexivity.
  - constructor.
Qed.

Lemma equals_eq (a : bytes) : forall b, equals a b = true -> a = b.
Proof.
  induction a as [|x a IH]; intros [|y b] H; cbn [equals] in H;
    try discriminate; [reflexivity|].
  apply andb_prop in H as [Hxy Hab].
  apply Byte.byte_dec_bl in Hxy. subst y. f_equal. now apply IH.
Qed.

(** A value that is empty or ends in CR is none of the tokens the server
    compares it with. *)
Lemma not_token (v tok : bytes) :
  v = [] \/ endsWithCR v ->
  tok <> [] -> last tok CR <> CR ->
  equals v tok = false.
Proof.
  intros Hv Htok Hlast. destruct (equals v tok) eqn:E; [|reflexivity].
  apply equals_eq in E. subst tok. exfalso.
  destruct Hv as [->|[p ->]]; [now apply Htok|].
  apply Hlast. apply last_last.
Qed.

Lemma checkHeaders_ret (ls : list bytes) :
  forall acc hs, checkHeaders ls acc = Ret hs -> hs = acc ++ ls.
Proof.
  induction ls as [|h ls IH]; intros acc hs; cbn [checkHeaders].
  - intros [= <-]. now rewrite app_nil_r.
  - destruct (validateHeader h); [|discriminate].
    intros H. apply IH in H. now rewrite <- app_assoc in H.
Qed.

Lemma Forall_removelast {A} (P : A -> Prop) (l : list A) :
  Forall P l -> Forall P (removelast l).
Proof.
  induction 1 as [|x l Hx Hl IH]; cbn [removelast]; [constructor|].
  destruct l; [constructor|]. constructor; assumption.
Qed.

(** What the parser hands on: a version and header fields that all carry
    the CR of their line. *)
Lemma parseHTTPReq_CR (d : bytes) (req : HTTPReq) :
  parseHTTPReq d = Ret req ->
  (version req = [] \/ endsWithCR (version req)) /\
  Forall endsWithCR (headers req).
Proof.
  unfold parseHTTPReq. pose proof (splitLines_CR d) as Hcr.
  destruct (splitLines d) as [|line0 rest]; [discriminate|].
  inversion Hcr as [|? ? H0 Hrest]; subst.
  destruct (parseRequestLine line0) as [[[m u] v]|e|] eqn:Ereq; try discriminate.
  destruct (checkHeaders (removelast rest) []) as [hs|e|] eqn:Ehs; try discriminate.
  intros [= <-]. cbn [version headers]. split.
  - unfold parseRequestLine in Ereq.
    destruct (Buf.indexOf (Buf.subarray line0 0 (blen line0)) (B " ") <? 0) eqn:E1;
      [discriminate|].
    destruct (Buf.indexOf (Buf.subarray line0 (_ + 1) (blen line0)) (B " ") <? 0) eqn:E2;
      [discriminate|].
    injection Ereq as _ _ <-.
    apply Z.ltb_ge in E1, E2. apply suffix_endsWithCR; [exact H0|lia].
  - apply checkHeaders_ret in Ehs. subst hs. cbn [app].
    now apply Forall_removelast.
Qed.

Lemma fieldGet_CR (hs : list bytes) (key v : bytes) :
  Forall endsWithCR hs -> fieldGet hs key = Some v ->
  v = [] \/ endsWithCR v.
Proof.
  induction 1 as [|h hs Hh Hhs IH]; cbn [fieldGet]; [discriminate|].
  destruct (equals _ key); [|exact IH].
  intros [= <-]. apply suffix_endsWithCR; [exact Hh|].
  pose proof (indexOf_lower (Buf.subarray h 0 (blen h)) (B ":")). lia.
Qed.

Lemma indexOf_short (hay needle : bytes) :
  blen hay < blen needle -> Buf.indexOf hay needle < 0.
Proof.
  intros Hshort.
  destruct (Z_lt_ge_dec (Buf.indexOf hay needle) 0) as [Hlt|Hge]; [exact Hlt|].
  destruct (indexOf_found hay needle ltac:(lia)) as (pre & post & H & _).
  apply (f_equal blen) in H. rewrite !blen_app in H.
  pose proof (blen_nonneg pre). pose proof (blen_nonneg post). lia.
Qed.

(** The loop of [splitLines] ends because no CRLF is left, never because
    the fuel of the model has run out: more fuel changes nothing. *)
Lemma splitLines_loop_fuel (f : nat) :
  forall extra d idx1 idx2 lines,
    0 <= idx1 <= blen d ->
    idx2 = Buf.indexOf (Buf.subarray d idx1 (blen d)) CRLF ->
    blen d - idx1 < 2 * Z.of_nat f + 2 ->
    splitLines_loop (f + extra) d idx1 idx2 lines
    = splitLines_loop f d idx1 idx2 lines.
Proof.
  induction f as [|f IH]; intros extra d idx1 idx2 lines Hi Hidx Hm.
  - assert (Hneg : idx2 < 0).
    { subst idx2. apply indexOf_short. rewrite subarray_suffix by lia.
      rewrite blen_skipn by lia. change (blen CRLF) with 2. lia. }
    apply Z.leb_gt in Hneg.
    destruct extra; cbn [Nat.add splitLines_loop]; [reflexivity|now rewrite Hneg].
  - cbn [Nat.add splitLines_loop].
    destruct (0 <=? idx2) eqn:E; [|reflexivity].
    apply Z.leb_le in E.
    assert (Hpos : idx1 + idx2 + 2 <= blen d).
    { rewrite subarray_suffix in Hidx by lia.
      destruct (indexOf_found (skipn (Z.to_nat idx1) d) CRLF ltac:(lia))
        as (pre & post & Hsplit & Hpre).
      apply (f_equal blen) in Hsplit.
      rewrite blen_skipn, !blen_app in Hsplit by lia.
      change (blen CRLF) with 2 in Hsplit. pose proof (blen_nonneg post). lia. }
    apply IH; [lia|reflexivity|lia].
Qed.

Lemma splitLines_enough_fuel (extra : nat) (d : bytes) :
  splitLines_loop (S (List.length d) + extra) d 0
    (Buf.indexOf (Buf.subarray d 0 (blen d)) CRLF) []
  = splitLines d.
Proof.
  unfold splitLines. apply splitLines_loop_fuel.
  - pose proof (blen_nonneg d). lia.
  - reflexivity.
  - unfold blen. lia.
Qed.

(** ** Printing numbers *)

(** The fuel [numToString] gives [digitsOf] is enough: the loop stops on
    a zero quotient first. *)
Lemma digitsOf_fuel (f : nat) :
  forall extra radix n acc,
    2 <= radix -> (1 <= f)%nat -> 0 <= n < 2 ^ Z.of_nat f ->
    digitsOf (f + extra) radix n acc = digitsOf f radix n acc.
Proof.
  induction f as [|f IH]; intros extra radix n acc Hr Hf Hn; [lia|].
  cbn [Nat.add digitsOf].
  destruct (n / radix =? 0) eqn:E; [reflexivity|].
  apply Z.eqb_neq in E.
  assert (Hq : 0 <= n / radix) by (apply Z.div_pos; lia).
  assert (Hlt : n / radix < 2 ^ Z.of_nat f).
  { rewrite Nat2Z.inj_succ, Z.pow_succ_r in Hn by lia.
    apply Z.div_lt_upper_bound; [lia|].
    assert (0 < 2 ^ Z.of_nat f) by (apply Z.pow_pos_nonneg; lia). nia. }
  destruct f as [|f'].
  - cbn in Hlt. lia.
  - apply IH; [exact Hr|lia|lia].
Qed.

Lemma numToString_enough_fuel (extra : nat) (radix n : Z) :
  2 <= radix -> 0 <= n ->
  digitsOf (S (Z.to_nat (Z.log2 n)) + extra) radix n [] = numToString radix n.
Proof.
  intros Hr Hn. unfold numToString.
  destruct (n <? 0) eqn:E; [apply Z.ltb_lt in E; lia|].
  apply digitsOf_fuel; [exact Hr|lia|].
  split; [exact Hn|].
  rewrite Nat2Z.inj_succ, Z2Nat.id by apply Z.log2_nonneg.
  destruct (Z.eq_dec n 0) as [->|Hnz]; [cbn; lia|].
  apply Z.log2_spec. lia.
Qed.

Lemma splitLines_loop_extends (fuel : nat) (d : bytes) :
  forall idx1 idx2 lines,
    exists more, splitLines_loop fuel d idx1 idx2 lines = lines ++ more.
Proof.
  induction fuel as [|f IH]; intros idx1 idx2 lines; cbn [splitLines_loop].
  - exists []. now rewrite app_nil_r.
  - destruct (0 <=? idx2).
    + destruct (IH (idx1 + idx2 + 2)
                  (Buf.indexOf (Buf.subarray d (idx1 + idx2 + 2) (blen d)) CRLF)
                  (lines ++ [Buf.subarray d idx1 (idx1 + idx2 + 1)])) as [more ->].
      rewrite <- app_assoc. eauto.
    + exists []. now rewrite app_nil_r.
Qed.

Lemma splitLines_nonempty (d : bytes) : occurs CRLF d -> splitLines d <> [].
Proof.
  intros Hocc. unfold splitLines. cbn [splitLines_loop].
  rewrite subarray_all.
  destruct (0 <=? Buf.indexOf d CRLF) eqn:E.
  - match goal with
    | |- splitLines_loop ?f ?d ?i1 ?i2 ?ls <> [] =>
        destruct (splitLines_loop_extends f d i1 i2 ls) as [more ->]
    end.
    cbn [app]. discriminate.
  - apply Z.leb_gt in E. apply indexOf_absent in E. contradiction.
Qed.

Lemma last_Forall {A} (P : A -> Prop) (l : list A) (dflt : A) :
  l <> [] -> Forall P l -> P (last l dflt).
Proof.
  intros Hne Hall. destruct (exists_last Hne) as (l' & a & ->).
  rewrite last_last. apply Forall_app in Hall as [_ Ha]. now inversion Ha.
Qed.

(** C10 (the code departs from the claim). Every line [splitLines]
    produces keeps the CR of its terminator, so for every block that
    holds a CRLF (every block the framer hands over) the last line is
    not empty and the condition of the parser's assertion is false; on
    [GET / HTTP/1.1\r\n\r\n] the lines are [GET / HTTP/1.1\r] and [\r]. *)
Theorem header_block_last_line_keeps_CR :
  (forall block, occurs CRLF block ->
     endsWithCR (last (splitLines block) []) /\
     parseHTTPReq_assertion block = false) /\
  splitLines wireGet11 = [B "GET / HTTP/1.1" ++ [CR]; [CR]] /\
  parseHTTPReq_assertion wireGet11 = false.
Proof.
  split; [|split; reflexivity].
  intros block Hocc.
  pose proof (last_Forall endsWithCR (splitLines block) []
                (splitLines_nonempty block Hocc) (splitLines_CR block)) as Hlast.
  split; [exact Hlast|].
  unfold parseHTTPReq_assertion. destruct Hlast as [p ->].
  apply Z.eqb_neq. rewrite blen_app. pose proof (blen_nonneg p).
  change (blen [CR]) with 1. lia.
Qed.

(** ** Building the body reader *)

Lemma parsed_never_chunked (d : bytes) (req : HTTPReq) :
  parseHTTPReq d = Ret req -> chunkedFlag (headers req) = false.
Proof.
  intros Hp. apply parseHTTPReq_CR in Hp as [_ Hhs]. unfold chunkedFlag.
  destruct (fieldGet (headers req) (B "Transfer-Encoding")) as [v|] eqn:E;
    [|reflexivity].
  apply not_token; [eapply fieldGet_CR; eassumption|discriminate|].
  cbv. discriminate.
Qed.

Lemma parsed_version_never_1_0 (d : bytes) (req : HTTPReq) :
  parseHTTPReq d = Ret req -> equals (version req) (B "1.0") = false.
Proof.
  intros Hp. apply parseHTTPReq_CR in Hp as [Hv _].
  apply not_token; [exact Hv|discriminate|]. cbv. discriminate.
Qed.

(** With the [chunked] flag down, [readerFromReq] never builds the
    chunked-decode reader. *)
Lemma readerFromReq_not_chunked (req : HTTPReq) (w w' : World) (r : nat) :
  chunkedFlag (headers req) = false ->
  readerFromReq req w = (Ret r, w') ->
  exists rd, heap w' = heap w ++ [rd] /\
             forall g, rstate rd <> Generator g.
Proof.
  intros Hflag. unfold readerFromReq, chunkedFlag in *. rewrite Hflag.
  unfold bind.
  destruct (fieldGet (headers req) (B "Content-Length")) as [cl|].
  - destruct (parseDec cl) as [n|]; [|discriminate].
    unfold ret. rewrite orb_false_r.
    destruct (negb (negb _) && (0 <? n)); [discriminate|].
    destruct (0 <=? _); intros [= <- <-]; eexists; (split; [reflexivity|discriminate]).
  - unfold ret. rewrite orb_false_r.
    destruct (negb (negb _) && (0 <? -1)); [discriminate|].
    destruct (0 <=? _); intros [= <- <-]; eexists; (split; [reflexivity|discriminate]).
Qed.

(** On a request record whose Transfer-Encoding value is exactly
    [chunked], with a method that allows a body and no Content-Length,
    [readerFromReq] does build the chunked-decode reader: the decision
    itself is as the specification has it. *)
Lemma readerFromReq_exact_chunked (req : HTTPReq) (w : World) :
  equals (method req) (B "GET") || equals (method req) (B "HEAD") = false ->
  fieldGet (headers req) (B "Content-Length") = None ->
  fieldGet (headers req) (B "Transfer-Encoding") = Some (B "chunked") ->
  readerFromReq req w
  = (Ret (List.length (heap w)),
     mkWorld (conn w) (written w) (heap w ++ [readerFromGenerator ChunksStart])).
Proof.
  intros Hm Hcl Hte. unfold readerFromReq, bind, ret. rewrite Hcl, Hm, Hte.
  reflexivity.
Qed.

(** C2 (the code departs from the claim). No request that comes out of
    the parser has its [chunked] flag set, because the header value
    keeps the CR of its line; so no parsed request gets the
    chunked-decode reader.  On a POST with no Content-Length and the
    header [Transfer-Encoding: chunked] the read-until-close reader is
    built. *)
Theorem chunked_header_not_recognised :
  (forall d req w r w',
     parseHTTPReq d = Ret req ->
     readerFromReq req w = (Ret r, w') ->
     exists rd, heap w' = heap w ++ [rd] /\ forall g, rstate rd <> Generator g) /\
  (exists b0 b1 req,
     bufPush emptyBuf wirePostChunked = (None, b0) /\
     cutMessage b0 = (Ret (Some req), b1) /\
     method req = B "POST" /\
     headers req = [B "Transfer-Encoding: chunked" ++ [CR]] /\
     fieldGet (headers req) (B "Content-Length") = None /\
     fieldGet (headers req) (B "Transfer-Encoding") = Some (B "chunked" ++ [CR]) /\
     readerFromReq req (mkWorld (mkConn [] 1 b1) [] [])
     = (Ret 0%nat, mkWorld (mkConn [] 1 b1) [] [readerFromConnEOF])).
Proof.
  split.
  - intros d req w r w' Hp Hr.
    eapply readerFromReq_not_chunked; [|exact Hr].
    eapply parsed_never_chunked, Hp.
  - eexists. eexists. eexists.
    split; [vm_compute; reflexivity|].
    split; [vm_compute; reflexivity|].
    repeat split; vm_compute; reflexivity.
Qed.

(** C1 (the code departs from the claim). The version the parser
    produces is never the string [1.0]: it is the whole third token of
    the request line together with the CR.  A connection that delivers
    two HTTP/1.0 requests one after the other is therefore not closed
    after the first response: the server reads again and answers the
    second one too.  The same happens when the version token on the wire
    is literally [1.0]. *)
Theorem http10_connection_stays_open :
  (forall d req, parseHTTPReq d = Ret req -> equals (version req) (B "1.0") = false) /\
  (exists w',
     serveClient 8 (connOf [wireGet10; wireGet10]) = (Ret tt, w') /\
     reads (conn w') = 3%nat /\
     written w' = [helloHead; helloBody; helloHead; helloBody]) /\
  (exists w',
     serveClient 8 (connOf [wireGetBare10; wireGetBare10]) = (Ret tt, w') /\
     reads (conn w') = 3%nat /\
     written w' = [helloHead; helloBody; helloHead; helloBody]).
Proof.
  split; [exact parsed_version_never_1_0|].
  split; eexists; (split; [vm_compute; reflexivity|split; reflexivity]).
Qed.

(** Pipelining as it does work: two GET requests in one delivery are
    both answered; the only other read is the one that finds the end of
    the stream. *)
Lemma pipelined_requests_one_delivery :
  exists w',
    serveClient 8 (connOf [wireGet11 ++ wireGet11]) = (Ret tt, w') /\
    reads (conn w') = 2%nat /\
    written w' = [helloHead; helloBody; helloHead; helloBody].
Proof.
  eexists. split; [vm_compute; reflexivity|]. split; reflexivity.
Qed.

Lemma nth_error_new (h : list BodyReader) (r : BodyReader) :
  nth_error (h ++ [r]) (List.length h) = Some r.
Proof.
  rewrite nth_error_app2 by lia. now rewrite Nat.sub_diag.
Qed.

Lemma nth_error_setNth (h : list BodyReader) :
  forall i r r', nth_error h i = Some r -> nth_error (setNth h i r') i = Some r'.
Proof.
  induction h as [|x h IH]; intros [|i] r r' H; cbn in *; try discriminate.
  - reflexivity.
  - eapply IH, H.
Qed.

Lemma setNth_new (h : list BodyReader) (r r' : BodyReader) :
  setNth (h ++ [r]) (List.length h) r' = h ++ [r'].
Proof. induction h as [|x h IH]; cbn; [reflexivity|now rewrite IH]. Qed.

(** [readerFromReq] in terms of the two things it reads off the
    headers. *)
Lemma readerFromReq_unfold (req : HTTPReq) (w : World) :
  readerFromReq req w =
  match bodyLenOf (headers req) with
  | None => (Throw (HTTPError 400 "bad Content-Length."), w)
  | Some n =>
      let forbidden := equals (method req) (B "GET") || equals (method req) (B "HEAD") in
      if forbidden && ((0 <? n) || chunkedFlag (headers req))
      then (Throw (HTTPError 400 "HTTP body not allowed."), w)
      else if 0 <=? (if forbidden then 0 else n)
           then newReader (readerFromConnLength (if forbidden then 0 else n)) w
           else if chunkedFlag (headers req)
                then newReader (readerFromGenerator ChunksStart) w
                else newReader readerFromConnEOF w
  end.
Proof.
  unfold readerFromReq, bodyLenOf, chunkedFlag, bind, ret, throw.
  destruct (fieldGet (headers req) (B "Content-Length")) as [cl|].
  - destruct (parseDec cl) as [n|]; [|reflexivity].
    cbv zeta. rewrite negb_involutive.
    destruct (_ && _); [reflexivity|].
    destruct (0 <=? _); [reflexivity|].
    destruct (fieldGet (headers req) (B "Transfer-Encoding")) as [v|]; [|reflexivity].
    destruct (equals v (B "chunked")); reflexivity.
  - cbv zeta. rewrite negb_involutive.
    destruct (_ && _); [reflexivity|].
    destruct (0 <=? _); [reflexivity|].
    destruct (fieldGet (headers req) (B "Transfer-Encoding")) as [v|]; [|reflexivity].
    destruct (equals v (B "chunked")); reflexivity.
Qed.

(** C7, amended. For a request whose method is GET or HEAD: a
    Content-Length value that is not a number fails with the status-400
    error "bad Content-Length." before the method is looked at;
    otherwise a Content-Length above 0, or a Transfer-Encoding value
    that is exactly [chunked], fails with the status-400 error "HTTP
    body not allowed."; otherwise the reader is the fixed-length reader
    of length 0, whose first [read()] is the empty chunk. *)
Theorem get_head_body_policy (req : HTTPReq) (w : World) :
  method req = B "GET" \/ method req = B "HEAD" ->
  (bodyLenOf (headers req) = None ->
   readerFromReq req w = (Throw (HTTPError 400 "bad Content-Length."), w)) /\
  (forall n, bodyLenOf (headers req) = Some n ->
     (0 < n \/ chunkedFlag (headers req) = true ->
      readerFromReq req w = (Throw (HTTPError 400 "HTTP body not allowed."), w)) /\
     (n <= 0 -> chunkedFlag (headers req) = false ->
      readerFromReq req w
      = (Ret (List.length (heap w)),
         mkWorld (conn w) (written w) (heap w ++ [readerFromConnLength 0])) /\
      forall fuel,
        read fuel (List.length (heap w))
          (mkWorld (conn w) (written w) (heap w ++ [readerFromConnLength 0]))
        = (Ret [], mkWorld (conn w) (written w) (heap w ++ [readerFromConnLength 0])))).
Proof.
  intros Hm.
  assert (Hforbidden : equals (method req) (B "GET") || equals (method req) (B "HEAD") = true).
  { destruct Hm as [-> | ->]; reflexivity. }
  rewrite readerFromReq_unfold, Hforbidden. cbv zeta. cbn [andb].
  split; [intros ->; reflexivity|].
  intros n ->. split.
  - intros [Hn|Hc].
    + apply Z.ltb_lt in Hn. now rewrite Hn.
    + now rewrite Hc, orb_true_r.
  - intros Hn Hc. rewrite Hc, orb_false_r.
    destruct (0 <? n) eqn:E; [apply Z.ltb_lt in E; lia|].
    split; [reflexivity|].
    intros fuel. unfold read. cbn [heap conn written].
    rewrite nth_error_new. cbn [readState rstate readerFromConnLength Z.eqb rlength].
    now rewrite setNth_new.
Qed.

(** The request [GET /echo] with [Content-Length: 5], as parsed: the
    construction of its reader fails with "HTTP body not allowed.". *)
Lemma get_head_body_policy_witness :
  exists req,
    parseHTTPReq (B "GET /echo HTTP/1.1" ++ CRLF ++ B "Content-Length: 5" ++ CRLF ++ CRLF)
    = Ret req /\
    readerFromReq req (connOf [])
    = (Throw (HTTPError 400 "HTTP body not allowed."), connOf []).
Proof.
  eexists. split; [vm_compute; reflexivity|].
  match goal with
  | |- readerFromReq ?r ?w = _ =>
      apply (proj1 (proj2 (get_head_body_policy r w (or_introl eq_refl)) 5 eq_refl))
  end.
  left. reflexivity.
Defined.

(** C7, the claim as written fails: a GET whose Content-Length is not a
    number declares neither a positive length nor the chunked coding,
    and yet its body length is not forced to 0; the construction fails
    with "bad Content-Length.". *)
Lemma get_with_bad_length_is_rejected :
  exists req,
    parseHTTPReq wireGetBadLength = Ret req /\
    method req = B "GET" /\
    bodyLenOf (headers req) = None /\
    chunkedFlag (headers req) = false /\
    readerFromReq req (connOf [])
    = (Throw (HTTPError 400 "bad Content-Length."), connOf []).
Proof.
  eexists. split; [vm_compute; reflexivity|].
  repeat split; vm_compute; reflexivity.
Qed.

(** The [chunked] flag being down for every parsed request, a GET that
    announces the chunked coding on the wire is not rejected: it gets
    the reader of length 0. *)
Lemma get_chunked_on_wire_accepted :
  exists req,
    parseHTTPReq wireGetChunked = Ret req /\
    chunkedFlag (headers req) = false /\
    readerFromReq req (connOf [])
    = (Ret 0%nat, mkWorld (mkConn [] 0 emptyBuf) [] [readerFromConnLength 0]).
Proof.
  eexists. split; [vm_compute; reflexivity|]. split; vm_compute; reflexivity.
Qed.

(** ** The read-until-close reader *)

Lemma bufPush_mono (b b' : DynBuf) (d : bytes) :
  wf b -> bufPush b d = (None, b') -> wf b' /\ capacity b <= capacity b'.
Proof.
  intros Hwf Hpush.
  destruct (bufPush_wf b d Hwf) as (b1 & Hpush1 & Hwf1 & _ & _ & Hcap).
  rewrite Hpush in Hpush1. injection Hpush1 as <-.
  split; [exact Hwf1|]. rewrite Hcap.
  destruct (capacity b <? length b + blen d); [|lia].
  unfold grow.
  pose proof (double_until_mono (Z.to_nat (Z.log2_up (length b + blen d)))
                (Z.max (capacity b) 32) (length b + blen d) ltac:(lia)). lia.
Qed.

(** Pulling until the end of the stream keeps the buffer well formed,
    never shrinks its store, and does not throw. *)
Lemma pullUntilEOF_inv (fuel : nat) :
  forall c o c',
    wf (buf c) -> pullUntilEOF fuel c = (o, c') ->
    wf (buf c') /\ capacity (buf c) <= capacity (buf c') /\
    forall e, o <> Throw e.
Proof.
  induction fuel as [|f IH]; intros c o c' Hwf; cbn [pullUntilEOF].
  - intros [= <- <-]. split; [exact Hwf|]. split; [lia|discriminate].
  - unfold bind, soRead, bufPushM, setBuf, ret.
    assert (Hstep : forall d rest,
               (let (o0, s') :=
                  let (o0, b) := bufPush (buf c) d in
                  match o0 with
                  | Some e => (Throw e, mkConn rest (S (reads c)) b)
                  | None => (Ret tt, mkConn rest (S (reads c)) b)
                  end in
                match o0 with
                | Ret _ => (if blen d =? 0 then fun s => (Ret tt, s) else pullUntilEOF f) s'
                | Throw e => (Throw e, s')
                | Diverge => (Diverge, s')
                end) = (o, c') ->
               wf (buf c') /\ capacity (buf c) <= capacity (buf c') /\
               forall e, o <> Throw e).
    { intros d rest.
      destruct (bufPush_wf (buf c) d Hwf) as (b1 & Hpush & _).
      rewrite Hpush.
      destruct (bufPush_mono (buf c) b1 d Hwf Hpush) as [Hwf1 Hcap1].
      destruct (blen d =? 0).
      - intros [= <- <-]. cbn [buf]. split; [exact Hwf1|]. split; [exact Hcap1|discriminate].
      - intros Hrec. apply IH in Hrec; [|exact Hwf1]. cbn [buf] in Hrec.
        destruct Hrec as (Hw & Hc & Hne). split; [exact Hw|]. split; [lia|exact Hne]. }
    destruct (incoming c) as [|d rest]; cbn [incoming reads buf]; apply Hstep.
Qed.

(** On a well-formed buffer with a store, the chunk [read()] returns is
    never empty, and the reader and the buffer are again as they have
    to be for the next call. *)
Lemma connEOF_read_nonempty (fuel : nat) (c c' : Conn) (o : Outcome bytes)
      (st : ReaderState) :
  wf (buf c) -> 0 < capacity (buf c) ->
  readState fuel ConnEOF c = (o, st, c') ->
  st = ConnEOF /\ wf (buf c') /\ 0 < capacity (buf c') /\
  (forall e, o <> Throw e) /\
  (forall d, o = Ret d -> d = data (buf c') /\ d <> []).
Proof.
  intros Hwf Hcap. cbn [readState].
  destruct (pullUntilEOF fuel c) as [o1 c1] eqn:Hpull.
  destruct (pullUntilEOF_inv fuel c o1 c1 Hwf Hpull) as (Hwf1 & Hcap1 & Hne).
  destruct o1 as [[]|e|]; intros [= <- <- <-].
  - split; [reflexivity|]. split; [exact Hwf1|]. split; [lia|].
    split; [discriminate|]. intros d [= <-]. split; [reflexivity|].
    apply bytes_nonempty. fold (capacity (buf c1)). lia.
  - exfalso. now apply (Hne e).
  - split; [reflexivity|]. split; [exact Hwf1|]. split; [lia|].
    split; discriminate.
Qed.

(** The loop of [serveClient] that reads a request body to its end never
    finishes on a read-until-close reader. *)
Lemma drain_connEOF_diverges (fuel : nat) (ref : nat) :
  forall w r,
    nth_error (heap w) ref = Some r -> rstate r = ConnEOF ->
    wf (buf (conn w)) -> 0 < capacity (buf (conn w)) ->
    fst (drain fuel ref w) = Diverge.
Proof.
  induction fuel as [|f IH]; intros w r Hr Hst Hwf Hcap; [reflexivity|].
  cbn [drain]. unfold bind, read. rewrite Hr, Hst.
  destruct (readState f ConnEOF (conn w)) as [[o st] c] eqn:Hread.
  destruct (connEOF_read_nonempty f (conn w) c o st Hwf Hcap Hread)
    as (-> & Hwf' & Hcap' & Hne & Hd).
  destruct o as [d|e|].
  - destruct (Hd d eq_refl) as [_ Hnonempty].
    apply bytes_nonempty in Hnonempty. apply Z.ltb_lt in Hnonempty.
    rewrite Hnonempty.
    apply (IH _ (mkReader (rlength r) ConnEOF)); cbn [heap conn]; try assumption.
    + eapply nth_error_setNth, Hr.
    + reflexivity.
  - exfalso. now apply (Hne e).
  - reflexivity.
Qed.

(** C5 (the code departs from the claim). The reader declares length 0.
    Its [read()] returns the whole backing store of the buffer, not the
    buffered bytes, and leaves the reader as it was, so the next call
    does the same again: over a well-formed buffer with a store no
    [read()] ever returns the empty chunk, and the loop that reads a
    body to its end never finishes.  After
    [POST /echo HTTP/1.1\r\n\r\nabc] and the end of the stream, [read()]
    returns the 32 bytes of the store, which start with [abc] and go on
    with what is left of the header, and the second [read()] returns
    the same 32 bytes, not the empty chunk. *)
Theorem read_until_close_returns_store :
  rlength readerFromConnEOF = 0 /\
  (forall fuel c d st c',
     wf (buf c) -> 0 < capacity (buf c) ->
     readState fuel ConnEOF c = (Ret d, st, c') ->
     st = ConnEOF /\ d = data (buf c') /\ d <> []) /\
  (forall fuel ref w r,
     nth_error (heap w) ref = Some r -> rstate r = ConnEOF ->
     wf (buf (conn w)) -> 0 < capacity (buf (conn w)) ->
     fst (drain fuel ref w) = Diverge) /\
  (exists b0 b1 req w1 w2 d,
     bufPush emptyBuf wirePostNoLength = (None, b0) /\
     cutMessage b0 = (Ret (Some req), b1) /\
     window b1 = B "abc" /\
     readerFromReq req (mkWorld (mkConn [] 1 b1) [] []) = (Ret 0%nat, w1) /\
     heap w1 = [readerFromConnEOF] /\
     read 2 0 w1 = (Ret d, w2) /\
     blen d = 32 /\ d <> B "abc" /\
     d = B "abcT /echo HTTP/1.1" ++ CRLF ++ CRLF ++ B "abc" ++ Buf.alloc 6 /\
     window (buf (conn w2)) = B "abc" /\
     read 2 0 w2 = (Ret d, mkWorld (mkConn [] 3 (buf (conn w2))) [] (heap w2))).
Proof.
  split; [reflexivity|]. split; [|split].
  - intros fuel c d st c' Hwf Hcap Hread.
    destruct (connEOF_read_nonempty fuel c c' (Ret d) st Hwf Hcap Hread)
      as (-> & _ & _ & _ & Hd).
    destruct (Hd d eq_refl) as [-> Hne]. repeat split. exact Hne.
  - exact drain_connEOF_diverges.
  - do 6 eexists.
    split; [vm_compute; reflexivity|].
    split; [vm_compute; reflexivity|].
    split; [vm_compute; reflexivity|].
    split; [vm_compute; reflexivity|].
    split; [reflexivity|].
    split; [vm_compute; reflexivity|].
    split; [reflexivity|].
    split; [discriminate|].
    split; [reflexivity|].
    split; [vm_compute; reflexivity|].
    vm_compute; reflexivity.
Qed.

(** ** The chunked-decode reader *)

(** With no complete size line in the buffer the loop of [readChunks]
    goes round without touching anything: whatever the fuel, it has not
    finished, and the connection is as it was. *)
Lemma readChunks_loop_spins (fuel : nat) (c : Conn) :
  Buf.indexOf (window (buf c)) CRLF < 0 -> readChunks_loop fuel c = (Diverge, c).
Proof.
  intros Hno. apply Z.ltb_lt in Hno.
  induction fuel as [|f IH]; [reflexivity|].
  cbn [readChunks_loop]. unfold bind, getBuf. now rewrite Hno.
Qed.

(** C4 (the code departs from the claim). When no complete size line is
    buffered the reader does not pull from the connection: with the
    body [5\r\nhello\r\n0\r\n\r\n] still to be delivered and an empty
    buffer, [read()] never returns, and no read of the connection is
    made.  The size line is parsed as a decimal number: on the body
    [a\r\n0123456789\r\n0\r\n\r\n] the first chunk returned is [0\r\n\r\n].
    With the whole body [5\r\nhello\r\n0\r\n\r\n] in the buffer, the reader
    returns [hello] and then the empty chunk. *)
Theorem chunked_reader_does_not_pull :
  (forall fuel,
     let w := mkWorld (mkConn [chunkedHello] 1 (bufOf [] 64)) []
                      [readerFromGenerator ChunksStart] in
     read fuel 0 w = (Diverge, w)) /\
  (exists w1,
     read 3 0 (mkWorld (mkConn [] 1 (bufOf chunkedHexTen 64)) []
                       [readerFromGenerator ChunksStart])
     = (Ret lastChunk, w1)) /\
  (exists w1 w2,
     read 3 0 (mkWorld (mkConn [] 1 (bufOf chunkedHello 64)) []
                       [readerFromGenerator ChunksStart])
     = (Ret (B "hello"), w1) /\
     read 3 0 w1 = (Ret [], w2) /\
     heap w2 = [readerFromGenerator GenDone] /\
     length (buf (conn w2)) = 0 /\
     reads (conn w2) = 1%nat).
Proof.
  split; [|split].
  - intros fuel w. unfold read, w. cbn [heap nth_error conn written].
    cbn [readState rstate readerFromGenerator genNext].
    rewrite readChunks_loop_spins; [reflexivity|].
    vm_compute. reflexivity.
  - eexists. vm_compute. reflexivity.
  - eexists. eexists.
    split; [vm_compute; reflexivity|].
    split; [vm_compute; reflexivity|].
    repeat split.
Qed.

(** ** The response writer *)

(** Reading never looks at, nor changes, what has been written. *)
Lemma read_setWritten (fuel ref : nat) (out : list bytes) (w : World) :
  read fuel ref (setWritten out w) =
  let '(o, w') := read fuel ref w in (o, setWritten out w').
Proof.
  unfold read, setWritten. cbn [heap conn written].
  destruct (nth_error (heap w) ref) as [r|]; [|reflexivity].
  destruct (readState fuel (rstate r) (conn w)) as [[o st] c]. reflexivity.
Qed.

(** A reader keeps its declared length. *)
Lemma read_keeps_length (fuel ref : nat) (w w' : World) (r : BodyReader) (d : bytes) :
  nth_error (heap w) ref = Some r ->
  read fuel ref w = (Ret d, w') ->
  exists r', nth_error (heap w') ref = Some r' /\ rlength r' = rlength r.
Proof.
  intros Hr. unfold read. rewrite Hr.
  destruct (readState fuel (rstate r) (conn w)) as [[o st] c].
  intros [= -> <-]. cbn [heap]. eexists. split.
  - eapply nth_error_setNth, Hr.
  - reflexivity.
Qed.

Lemma chunkFrame_nonempty (d : bytes) : (blen (chunkFrame d) =? 0) = false.
Proof.
  apply Z.eqb_neq. unfold chunkFrame. rewrite !blen_app.
  pose proof (blen_nonneg (numToString 16 (blen d))).
  pose proof (blen_nonneg d). change (blen CRLF) with 2. lia.
Qed.

Lemma blen_zero (d : bytes) : (blen d =? 0) = true -> d = [].
Proof.
  intros H. apply Z.eqb_eq in H. destruct d; [reflexivity|].
  unfold blen in H. cbn [List.length] in H. lia.
Qed.

(** The body loop in chunked mode, against the chunks the body yields:
    one framed write per chunk, and one more for the empty chunk that
    ends the body. *)
Lemma writeBody_chunked (fuel : nat) (ref : nat) :
  forall (w w1 : World) (r : BodyReader) (cs out : list bytes),
    nth_error (heap w) ref = Some r -> rlength r < 0 ->
    readAll fuel ref w = (Ret cs, w1) ->
    writeBody fuel ref (setWritten out w)
    = (Ret tt, setWritten (out ++ map chunkFrame cs ++ [lastChunk]) w1) /\
    Forall (fun c => c <> []) cs.
Proof.
  induction fuel as [|f IH]; intros w w1 r cs out Hr Hneg; [discriminate|].
  cbn [readAll writeBody]. unfold bind at 1 3.
  rewrite read_setWritten.
  destruct (read f ref w) as [[d| |] w'] eqn:Hread; try discriminate.
  destruct (read_keeps_length f ref w w' r d Hr Hread) as (r' & Hr' & Hlen).
  unfold bind at 2, lengthOf at 1. cbn [setWritten heap]. rewrite Hr', Hlen.
  apply Z.ltb_lt in Hneg. rewrite Hneg. rewrite chunkFrame_nonempty.
  unfold bind at 2, soWrite at 1. cbn [conn written heap].
  destruct (blen d =? 0) eqn:Ed.
  - apply blen_zero in Ed. subst d. unfold ret. intros [= <- <-].
    split; [reflexivity|constructor].
  - unfold bind. destruct (readAll f ref w') as [[ds| |] w2] eqn:Hall; try discriminate.
    unfold ret. intros [= <- <-].
    apply Z.ltb_lt in Hneg. rewrite <- Hlen in Hneg.
    destruct (IH w' w2 r' ds (out ++ [chunkFrame d]) Hr' Hneg Hall) as [Hw Hne].
    change (writeBody f ref (setWritten (out ++ [chunkFrame d]) w') = (Ret tt, setWritten (out ++ map chunkFrame (d :: ds) ++ [lastChunk]) w2)
            /\ Forall (fun c : bytes => c <> []) (d :: ds)).
    rewrite Hw. split.
    + cbn [map app]. rewrite <- app_assoc. reflexivity.
    + constructor; [|exact Hne]. intros ->. discriminate.
Qed.

(** C3, amended. For a response whose body declares a negative length,
    the writer appends the header [Transfer-Encoding: chunked], writes
    the encoded head, then writes each chunk the body yields framed as
    size in hexadecimal, CRLF, the bytes, CRLF; the empty chunk that
    ends the body is framed and written like the others, which puts the
    chunk-end marker [0\r\n\r\n] last on the wire. *)
Theorem chunked_response_is_terminated
        (fuel : nat) (resp : HTTPRes) (w w1 : World) (r : BodyReader)
        (head : bytes) (cs : list bytes) :
  nth_error (heap w) (body resp) = Some r -> rlength r < 0 ->
  encodeHTTPResp (code resp) (resHeaders resp ++ [B "Transfer-Encoding: chunked"])
  = Ret head ->
  readAll fuel (body resp) w = (Ret cs, w1) ->
  writeHTTPResp fuel resp w
  = (Ret tt, setWritten (written w ++ [head] ++ map chunkFrame cs ++ [lastChunk]) w1) /\
  Forall (fun c => c <> []) cs /\
  chunkFrame [] = lastChunk.
Proof.
  intros Hr Hneg Henc Hall.
  destruct (writeBody_chunked fuel (body resp) w w1 r cs (written w ++ [head]) Hr Hneg Hall)
    as [Hbody Hne].
  split; [|split; [exact Hne|reflexivity]].
  unfold writeHTTPResp, bind, lengthOf, lengthHeader, liftO, soWrite.
  rewrite Hr. apply Z.ltb_lt in Hneg. rewrite Hneg, Henc.
  unfold setWritten in Hbody at 1. rewrite Hbody.
  now rewrite <- !app_assoc.
Qed.

(** The last two chunks of the sheep counter, sent chunked. *)
Lemma chunked_response_is_terminated_witness :
  exists w1,
    writeHTTPResp 4 (mkRes 200 [] 0)
      (mkWorld (mkConn [] 0 emptyBuf) [] [readerFromGenerator (Sheep 98)])
    = (Ret tt, w1) /\
    written w1 =
      [B "HTTP/1.1 200 OK" ++ CRLF ++ B "Transfer-Encoding: chunked" ++ CRLF ++ CRLF;
       B "3" ++ CRLF ++ B "98" ++ [LF] ++ CRLF;
       B "3" ++ CRLF ++ B "99" ++ [LF] ++ CRLF;
       B "0" ++ CRLF ++ CRLF].
Proof.
  eexists. split.
  - eapply (chunked_response_is_terminated 4 (mkRes 200 [] 0)).
    + reflexivity.
    + reflexivity.
    + reflexivity.
    + vm_compute. reflexivity.
  - reflexivity.
Defined.

(** C3, the claim as written fails: for a chunked response whose body
    yields one chunk and then ends, the last thing written is the
    chunk-end marker [0\r\n\r\n]. *)
Lemma chunk_end_marker_is_written :
  exists w1,
    writeHTTPResp 3 (mkRes 200 [] 0)
      (mkWorld (mkConn [] 0 emptyBuf) [] [readerFromGenerator (Sheep 99)])
    = (Ret tt, w1) /\
    written w1 =
      [B "HTTP/1.1 200 OK" ++ CRLF ++ B "Transfer-Encoding: chunked" ++ CRLF ++ CRLF;
       B "3" ++ CRLF ++ B "99" ++ [LF] ++ CRLF;
       B "0" ++ CRLF ++ CRLF] /\
    last (written w1) [] = B "0" ++ CRLF ++ CRLF.
Proof.
  eexists. split; [vm_compute; reflexivity|]. split; reflexivity.
Qed.

(** ** The buffer stays well formed for the whole life of a connection *)

Lemma keeps_ret {S A} (P : S -> Prop) (Q : A -> Prop) (a : A) :
  Q a -> keeps P Q (ret a).
Proof.
  intros Ha s o s' Hs [= <- <-]. split; [exact Hs|]. now intros ? [= <-].
Qed.

Lemma keeps_throw {S A} (P : S -> Prop) (Q : A -> Prop) (e : Exn) :
  keeps P Q (throw e).
Proof. intros s o s' Hs [= <- <-]. split; [exact Hs|discriminate]. Qed.

Lemma keeps_diverge {S A} (P : S -> Prop) (Q : A -> Prop) :
  keeps P Q (@diverge S A).
Proof. intros s o s' Hs [= <- <-]. split; [exact Hs|discriminate]. Qed.

Lemma keeps_bind {S A C} (P : S -> Prop) (Q : A -> Prop) (R : C -> Prop)
      (m : M S A) (k : A -> M S C) :
  keeps P Q m -> (forall a, Q a -> keeps P R (k a)) -> keeps P R (bind m k).
Proof.
  intros Hm Hk s o s' Hs. unfold bind.
  destruct (m s) as [[a|e|] s1] eqn:E; destruct (Hm _ _ _ Hs E) as [Hs1 Hq].
  - apply Hk; [now apply Hq|exact Hs1].
  - intros [= <- <-]. split; [exact Hs1|discriminate].
  - intros [= <- <-]. split; [exact Hs1|discriminate].
Qed.

Lemma keeps_liftC {A} (Q : A -> Prop) (m : M Conn A) :
  keeps (fun c => wf (buf c)) Q m -> keeps goodWorld Q (liftC m).
Proof.
  intros Hm w o w' [Hwf Hheap]. unfold liftC.
  destruct (m (conn w)) as [o1 c1] eqn:E. intros [= <- <-].
  destruct (Hm _ _ _ Hwf E) as [Hwf1 Hq]. split; [|exact Hq].
  split; [exact Hwf1|exact Hheap].
Qed.

Lemma keeps_soRead : keeps (fun c => wf (buf c)) anything soRead.
Proof.
  intros c o c' Hwf. unfold soRead.
  destruct (incoming c); intros [= <- <-]; (split; [exact Hwf|intros; exact I]).
Qed.

Lemma keeps_getBuf : keeps (fun c => wf (buf c)) wf getBuf.
Proof.
  intros c o c' Hwf [= <- <-]. split; [exact Hwf|]. now intros b [= <-].
Qed.

Lemma keeps_bufPushM (d : bytes) : keeps (fun c => wf (buf c)) anything (bufPushM d).
Proof.
  intros c o c' Hwf. unfold bufPushM.
  destruct (bufPush_wf (buf c) d Hwf) as (b1 & Hpush & Hwf1 & _).
  rewrite Hpush. intros [= <- <-]. split; [exact Hwf1|intros; exact I].
Qed.

Lemma keeps_fetchBody : keeps (fun c => wf (buf c)) anything fetchBody.
Proof.
  unfold fetchBody. eapply keeps_bind; [apply keeps_getBuf|]. intros b _.
  destruct (length b =? 0); [|now apply keeps_ret].
  eapply keeps_bind; [apply keeps_soRead|]. intros d _.
  eapply keeps_bind; [apply keeps_bufPushM|]. intros _ _.
  destruct (blen d =? 0); [apply keeps_throw|now apply keeps_ret].
Qed.

(** The framer evicts no more than it has, and the request it returns
    has its [chunked] flag down. *)
Lemma keeps_cutMessageM :
  keeps (fun c => wf (buf c))
        (fun msg => forall req, msg = Some req -> chunkedFlag (headers req) = false)
        cutMessageM.
Proof.
  intros c o c' Hwf. unfold cutMessageM, cutMessage.
  pose proof (indexOf_found (window (buf c)) (CRLF ++ CRLF)) as Hfound.
  set (idx := Buf.indexOf (window (buf c)) (CRLF ++ CRLF)) in *.
  destruct (idx <? 0) eqn:E.
  - destruct (kMaxHeaderLen <=? length (buf c)); intros [= <- <-];
      (split; [cbn [buf setBuf]; exact Hwf|]).
    + discriminate.
    + intros a [= <-]. discriminate.
  - apply Z.ltb_ge in E.
    destruct (Hfound E) as (pre & post & Hsplit & Hpre).
    assert (Hfit : idx + 4 <= length (buf c)).
    { apply (f_equal blen) in Hsplit.
      rewrite blen_window in Hsplit by exact Hwf.
      rewrite (blen_app pre), (blen_app (CRLF ++ CRLF) post) in Hsplit.
      change (blen (CRLF ++ CRLF)) with 4 in Hsplit.
      pose proof (blen_nonneg post). lia. }
    destruct (parseHTTPReq _) as [req|e|] eqn:Hp; intros [= <- <-]; cbn [buf setBuf].
    + split; [apply bufPop_wf; [exact Hwf|lia]|].
      intros a [= <-] req' [= <-]. eapply parsed_never_chunked, Hp.
    + split; [exact Hwf|discriminate].
    + split; [exact Hwf|discriminate].
Qed.

(** One [read()] of a reader the server can hold. *)
Lemma readState_good (fuel : nat) (st st' : ReaderState) (c c' : Conn)
      (o : Outcome bytes) :
  wf (buf c) -> goodState st ->
  readState fuel st c = (o, st', c') ->
  wf (buf c') /\ goodState st'.
Proof.
  intros Hwf Hgood. destruct st as [remain| |g|d done]; cbn [readState].
  - cbn [goodState] in Hgood.
    destruct (remain =? 0); [intros [= <- <- <-]; now split|].
    destruct (fetchBody c) as [o1 c1] eqn:Hf.
    destruct (keeps_fetchBody _ _ _ Hwf Hf) as [Hwf1 _].
    destruct o1 as [[]|e|]; intros [= <- <- <-]; cbn [buf setBuf goodState];
      [|now split|now split].
    unfold wf in Hwf1. split; [apply bufPop_wf; [exact Hwf1|lia]|lia].
  - destruct (pullUntilEOF fuel c) as [o1 c1] eqn:Hp.
    destruct (pullUntilEOF_inv fuel c o1 c1 Hwf Hp) as (Hwf1 & _).
    destruct o1 as [[]|e|]; intros [= <- <- <-]; now split.
  - destruct g as [|remain|i|]; cbn [goodState] in Hgood; try contradiction;
      cbn [genNext].
    + destruct (i <? 100); unfold ret; intros [= <- <- <-]; now split.
    + unfold ret. intros [= <- <- <-]. now split.
  - destruct done; intros [= <- <- <-]; now split.
Qed.

Lemma Forall_setNth (h : list BodyReader) :
  forall i r, Forall goodReader h -> goodReader r -> Forall goodReader (setNth h i r).
Proof.
  induction h as [|x h IH]; intros [|i] r Hh Hr; cbn [setNth]; try exact Hh;
    inversion Hh; subst; constructor; auto.
Qed.

Lemma keeps_read (fuel ref : nat) : keeps goodWorld anything (read fuel ref).
Proof.
  intros w o w' [Hwf Hheap]. unfold read.
  destruct (nth_error (heap w) ref) as [r|] eqn:Hr.
  - destruct (readState fuel (rstate r) (conn w)) as [[o1 st] c] eqn:Hread.
    intros [= <- <-].
    assert (Hg : goodReader r).
    { eapply Forall_forall; [exact Hheap|]. eapply nth_error_In, Hr. }
    destruct (readState_good _ _ _ _ _ _ Hwf Hg Hread) as [Hwf1 Hst].
    split; [|intros; exact I]. split; [exact Hwf1|].
    now apply Forall_setNth.
  - intros [= <- <-]. split; [now split|intros; exact I].
Qed.

Lemma keeps_newReader (r : BodyReader) :
  goodReader r -> keeps goodWorld anything (newReader r).
Proof.
  intros Hr w o w' [Hwf Hheap] [= <- <-]. split; [|intros; exact I].
  split; [exact Hwf|]. apply Forall_app. split; [exact Hheap|]. now constructor.
Qed.

Lemma keeps_soWrite (d : bytes) : keeps goodWorld anything (soWrite d).
Proof. intros w o w' Hw [= <- <-]. split; [exact Hw|intros; exact I]. Qed.

Lemma keeps_lengthOf (ref : nat) : keeps goodWorld anything (lengthOf ref).
Proof.
  intros w o w' Hw. unfold lengthOf.
  destruct (nth_error (heap w) ref); intros [= <- <-];
    (split; [exact Hw|intros; exact I]).
Qed.

Lemma keeps_writeBody (fuel ref : nat) : keeps goodWorld anything (writeBody fuel ref).
Proof.
  induction fuel as [|f IH]; cbn [writeBody]; [apply keeps_diverge|].
  eapply keeps_bind; [apply keeps_read|]. intros d _.
  eapply keeps_bind; [apply keeps_lengthOf|]. intros len _.
  eapply keeps_bind.
  - destruct (blen _ =? 0); [apply (keeps_ret goodWorld anything); exact I|apply keeps_soWrite].
  - intros _ _. destruct (blen d =? 0); [now apply keeps_ret|exact IH].
Qed.

Lemma keeps_drain (fuel ref : nat) : keeps goodWorld anything (drain fuel ref).
Proof.
  induction fuel as [|f IH]; cbn [drain]; [apply keeps_diverge|].
  eapply keeps_bind; [apply keeps_read|]. intros d _.
  destruct (0 <? blen d); [exact IH|now apply keeps_ret].
Qed.

Lemma keeps_writeHTTPResp (fuel : nat) (resp : HTTPRes) :
  keeps goodWorld anything (writeHTTPResp fuel resp).
Proof.
  unfold writeHTTPResp.
  eapply keeps_bind; [apply keeps_lengthOf|]. intros len _.
  eapply keeps_bind with (Q := anything).
  - intros w o w' Hw [= <- <-]. split; [exact Hw|intros; exact I].
  - intros enc _. eapply keeps_bind; [apply keeps_soWrite|]. intros _ _.
    apply keeps_writeBody.
Qed.

Lemma keeps_readerFromReq (req : HTTPReq) :
  chunkedFlag (headers req) = false ->
  keeps goodWorld anything (readerFromReq req).
Proof.
  intros Hflag w o w' Hw. rewrite readerFromReq_unfold, Hflag.
  destruct (bodyLenOf (headers req)) as [n|];
    [|intros [= <- <-]; split; [exact Hw|intros; exact I]].
  cbv zeta. destruct (_ && _);
    [intros [= <- <-]; split; [exact Hw|intros; exact I]|].
  destruct (0 <=? _) eqn:E.
  - apply Z.leb_le in E. apply keeps_newReader; [exact E|exact Hw].
  - apply keeps_newReader; [exact I|exact Hw].
Qed.

Lemma keeps_handleReq (req : HTTPReq) (reqBody : nat) :
  keeps goodWorld anything (handleReq req reqBody).
Proof.
  unfold handleReq. eapply keeps_bind with (Q := anything).
  - destruct (equals (uri req) (B "/echo")); [now apply keeps_ret|].
    destruct (equals (uri req) (B "/sheep")); apply keeps_newReader; exact I.
  - intros resp _. now apply keeps_ret.
Qed.

Lemma keeps_serveLoop (fuel : nat) : keeps goodWorld anything (serveLoop fuel).
Proof.
  induction fuel as [|f IH]; cbn [serveLoop]; [apply keeps_diverge|].
  eapply keeps_bind; [apply keeps_liftC, keeps_cutMessageM|].
  intros [req|] Hmsg.
  - eapply keeps_bind; [apply keeps_readerFromReq; now apply Hmsg|]. intros reqBody _.
    eapply keeps_bind; [apply keeps_handleReq|]. intros res _.
    eapply keeps_bind; [apply keeps_writeHTTPResp|]. intros _ _.
    destruct (equals (version req) (B "1.0")); [now apply keeps_ret|].
    eapply keeps_bind; [apply keeps_drain|]. intros _ _. exact IH.
  - eapply keeps_bind; [apply keeps_liftC, keeps_soRead|]. intros d _.
    eapply keeps_bind; [apply keeps_liftC, keeps_bufPushM|]. intros _ _.
    eapply keeps_bind; [apply keeps_liftC, keeps_getBuf|]. intros b _.
    destruct (_ && _); [now apply keeps_ret|].
    destruct (blen d =? 0); [apply keeps_throw|exact IH].
Qed.

(** However a connection goes, and however [serveClient] ends, the
    buffer is well formed at every point where the model can stop, and
    the heap holds no chunked-decode reader: the hypotheses of the
    lemmas on the fixed-length and read-until-close readers are those of
    the running server. *)
Lemma serveClient_keeps_goodWorld (fuel : nat) (deliveries : list bytes)
      (o : Outcome unit) (w' : World) :
  serveClient fuel (connOf deliveries) = (o, w') -> goodWorld w'.
Proof.
  unfold serveClient. intros H.
  eapply (keeps_serveLoop fuel); [|exact H].
  split; [unfold wf, capacity; cbn; lia|constructor].
Qed.

(** * Further properties of the sources *)

(** ** Responses with a known length *)

(** The body loop when the declared length is not negative: the chunks
    go out as they are, and nothing is written for the empty one. *)
Lemma writeBody_plain (fuel : nat) (ref : nat) :
  forall (w w1 : World) (r : BodyReader) (cs out : list bytes),
    nth_error (heap w) ref = Some r -> 0 <= rlength r ->
    readAll fuel ref w = (Ret cs, w1) ->
    writeBody fuel ref (setWritten out w) = (Ret tt, setWritten (out ++ cs) w1) /\
    Forall (fun c => c <> []) cs.
Proof.
  induction fuel as [|f IH]; intros w w1 r cs out Hr Hpos; [discriminate|].
  cbn [readAll writeBody]. unfold bind at 1 3.
  rewrite read_setWritten.
  destruct (read f ref w) as [[d| |] w'] eqn:Hread; try discriminate.
  destruct (read_keeps_length f ref w w' r d Hr Hread) as (r' & Hr' & Hlen).
  unfold bind at 2, lengthOf at 1. cbn [setWritten heap]. rewrite Hr', Hlen.
  apply Z.ltb_ge in Hpos. rewrite Hpos.
  destruct (blen d =? 0) eqn:Ed.
  - unfold bind, ret. intros [= <- <-]. rewrite app_nil_r.
    split; [reflexivity|constructor].
  - unfold bind at 2, soWrite at 1. cbn [conn written heap].
    unfold bind. destruct (readAll f ref w') as [[ds| |] w2] eqn:Hall; try discriminate.
    unfold ret. intros [= <- <-].
    apply Z.ltb_ge in Hpos. rewrite <- Hlen in Hpos.
    destruct (IH w' w2 r' ds (out ++ [d]) Hr' Hpos Hall) as [Hw Hne].
    change (writeBody f ref (setWritten (out ++ [d]) w') = (Ret tt, setWritten (out ++ d :: ds) w2)
            /\ Forall (fun c : bytes => c <> []) (d :: ds)).
    rewrite Hw. split.
    + rewrite <- app_assoc. reflexivity.
    + constructor; [|exact Hne]. intros ->. discriminate.
Qed.

Lemma writeHTTPResp_plain
        (fuel : nat) (resp : HTTPRes) (w w1 : World) (r : BodyReader)
        (head : bytes) (cs : list bytes) :
  nth_error (heap w) (body resp) = Some r -> 0 <= rlength r ->
  encodeHTTPResp (code resp)
    (resHeaders resp ++ [B "Content-Length: " ++ numToString 10 (rlength r)])
  = Ret head ->
  readAll fuel (body resp) w = (Ret cs, w1) ->
  writeHTTPResp fuel resp w = (Ret tt, setWritten (written w ++ [head] ++ cs) w1) /\
  Forall (fun c => c <> []) cs.
Proof.
  intros Hr Hpos Henc Hall.
  destruct (writeBody_plain fuel (body resp) w w1 r cs (written w ++ [head]) Hr Hpos Hall)
    as [Hbody Hne].
  split; [|exact Hne].
  assert (Henc' : encodeHTTPResp (code resp) (resHeaders resp ++ [lengthHeader (rlength r)])
                  = Ret head).
  { unfold lengthHeader. apply Z.ltb_ge in Hpos. rewrite Hpos. exact Henc. }
  unfold writeHTTPResp, bind, lengthOf, liftO, soWrite.
  rewrite Hr, Henc'.
  unfold setWritten in Hbody at 1. rewrite Hbody.
  now rewrite <- !app_assoc.
Qed.

(** X1. For a response whose body declares a length that is not
    negative, the writer appends [Content-Length: <length>] to the
    headers, writes the encoded head, and then writes the non-empty
    chunks the body yields, unframed and in order; the empty chunk that
    ends the body is not written. *)
Theorem plain_response_is_written_raw
        (fuel : nat) (resp : HTTPRes) (w w1 : World) (r : BodyReader)
        (head : bytes) (cs : list bytes) :
  nth_error (heap w) (body resp) = Some r -> 0 <= rlength r ->
  encodeHTTPResp (code resp)
    (resHeaders resp ++ [B "Content-Length: " ++ numToString 10 (rlength r)])
  = Ret head ->
  readAll fuel (body resp) w = (Ret cs, w1) ->
  writeHTTPResp fuel resp w = (Ret tt, setWritten (written w ++ [head] ++ cs) w1) /\
  Forall (fun c => c <> []) cs.
Proof. apply writeHTTPResp_plain. Qed.

Lemma plain_response_is_written_raw_witness :
  exists w1,
    writeHTTPResp 3 (mkRes 200 [] 0)
      (mkWorld (mkConn [] 0 (bufOf (B "hello") 32)) [] [readerFromConnLength 5])
    = (Ret tt, w1) /\
    written w1 =
      [B "HTTP/1.1 200 OK" ++ CRLF ++ B "Content-Length: 5" ++ CRLF ++ CRLF;
       B "hello"].
Proof.
  eexists. split.
  - eapply (plain_response_is_written_raw 3 (mkRes 200 [] 0)).
    + reflexivity.
    + cbn. lia.
    + reflexivity.
    + vm_compute. reflexivity.
  - reflexivity.
Defined.

(** One [read()] of an in-memory reader. *)
Lemma read_memory (fuel ref : nat) (w : World) (n : Z) (d : bytes) (done : bool) :
  nth_error (heap w) ref = Some (mkReader n (Memory d done)) ->
  read fuel ref w =
    (Ret (if done then [] else d),
     mkWorld (conn w) (written w) (setNth (heap w) ref (mkReader n (Memory d true)))).
Proof.
  intros Hr. unfold read. rewrite Hr. cbn [rstate readState rlength].
  destruct done; reflexivity.
Qed.

Lemma setNth_setNth (h : list BodyReader) :
  forall i r r', setNth (setNth h i r) i r' = setNth h i r'.
Proof.
  induction h as [|x h IH]; intros [|i] r r'; cbn [setNth]; try reflexivity.
  now rewrite IH.
Qed.

Lemma memory_reads (fuel1 fuel2 ref : nat) (w : World) (d : bytes) :
  nth_error (heap w) ref = Some (readerFromMemory d) ->
  rlength (readerFromMemory d) = blen d /\
  exists w1,
    read fuel1 ref w = (Ret d, w1) /\
    conn w1 = conn w /\ written w1 = written w /\
    read fuel2 ref w1 = (Ret [], w1) /\
    readAll (2 + fuel1) ref w = (Ret (if blen d =? 0 then [] else [d]), w1).
Proof.
  intros Hr. split; [reflexivity|].
  unfold readerFromMemory in Hr.
  pose proof (nth_error_setNth (heap w) ref _ (mkReader (blen d) (Memory d true)) Hr) as Hr1.
  eexists. split; [apply (read_memory fuel1 ref w _ d false Hr)|].
  split; [reflexivity|]. split; [reflexivity|]. split.
  - rewrite (read_memory fuel2 ref _ (blen d) d true) by exact Hr1.
    cbn [conn written heap]. now rewrite setNth_setNth.
  - cbn [Nat.add readAll]. unfold bind.
    rewrite (read_memory (S fuel1) ref w _ d false Hr).
    destruct (blen d =? 0) eqn:E; [reflexivity|].
    rewrite (read_memory fuel1 ref _ (blen d) d true) by exact Hr1.
    cbn [blen List.length Z.of_nat Z.eqb conn written heap].
    unfold ret. now rewrite setNth_setNth.
Qed.

(** X2. The in-memory reader returns its bytes whole on the first
    [read()] and the empty chunk on every later one; it declares the
    number of its bytes as its length, and reading it makes no read of
    the connection and leaves the buffer and the output alone. *)
Theorem memory_reader_reads_once (fuel1 fuel2 ref : nat) (w : World) (d : bytes) :
  nth_error (heap w) ref = Some (readerFromMemory d) ->
  rlength (readerFromMemory d) = blen d /\
  exists w1,
    read fuel1 ref w = (Ret d, w1) /\
    conn w1 = conn w /\ written w1 = written w /\
    read fuel2 ref w1 = (Ret [], w1) /\
    readAll (2 + fuel1) ref w = (Ret (if blen d =? 0 then [] else [d]), w1).
Proof. apply memory_reads. Qed.

Lemma memory_reader_reads_once_witness :
  exists w1,
    read 0 0 (mkWorld (mkConn [B "x"] 0 emptyBuf) [] [readerFromMemory (B "hi")])
    = (Ret (B "hi"), w1) /\
    read 0 0 w1 = (Ret [], w1) /\
    incoming (conn w1) = [B "x"].
Proof.
  destruct (memory_reader_reads_once 0 0 0
              (mkWorld (mkConn [B "x"] 0 emptyBuf) [] [readerFromMemory (B "hi")])
              (B "hi") eq_refl) as (_ & w1 & H1 & Hc & _ & H2 & _).
  exists w1. split; [exact H1|]. split; [exact H2|].
  now rewrite Hc.
Defined.

(** ** Status codes and the error response *)

Lemma encodeHTTPResp_known (c : Z) (reason : bytes) (hs : list bytes) :
  reasonOf c = Ret reason ->
  encodeHTTPResp c hs =
    Ret (B "HTTP/1.1 " ++ numToString 10 c ++ B " " ++ reason ++ CRLF
           ++ List.concat (map (fun h => h ++ CRLF) hs) ++ CRLF).
Proof. intros H. unfold encodeHTTPResp. now rewrite H. Qed.

(** X3. The writer knows the status codes 200, 400, 413 and 501.  For
    any other code [writeHTTPResp] fails with the error "Unknown status
    code" before anything is written and before the body is read. *)
Theorem unknown_status_writes_nothing
        (fuel : nat) (resp : HTTPRes) (w : World) (r : BodyReader) :
  nth_error (heap w) (body resp) = Some r ->
  code resp <> 200 -> code resp <> 400 -> code resp <> 413 -> code resp <> 501 ->
  writeHTTPResp fuel resp w = (Throw (Error "Unknown status code"), w).
Proof.
  intros Hr H200 H400 H413 H501.
  unfold writeHTTPResp, bind, lengthOf, liftO. rewrite Hr.
  unfold encodeHTTPResp, reasonOf.
  apply Z.eqb_neq in H200, H400, H413, H501.
  now rewrite H200, H400, H413, H501.
Qed.

Lemma unknown_status_writes_nothing_witness :
  let w := mkWorld (mkConn [] 0 emptyBuf) [] [readerFromMemory (B "teapot")] in
  writeHTTPResp 5 (mkRes 418 [] 0) w = (Throw (Error "Unknown status code"), w).
Proof.
  intros w.
  apply (unknown_status_writes_nothing 5 (mkRes 418 [] 0) w (readerFromMemory (B "teapot")));
    [reflexivity| | | |]; discriminate.
Defined.

(** X4. What [newConn] does with a failure of [serveClient]: for an
    [HTTPError] whose code the writer knows, one response is written,
    made of the head with that code and the Content-Length of the
    message plus one, and of the message followed by a line feed; the
    receiving side is left as the failure left it.  For any other error
    nothing is written.  In both cases [newConn] itself returns. *)
Theorem newConn_error_response (fuel : nat) (w w1 : World) (e : Exn) :
  serveClient (2 + fuel) w = (Throw e, w1) ->
  (forall c msg reason,
     e = HTTPError c msg -> reasonOf c = Ret reason ->
     exists w2,
       newConn (2 + fuel) w = (Ret tt, w2) /\
       conn w2 = conn w1 /\
       written w2 =
         written w1 ++
         [B "HTTP/1.1 " ++ numToString 10 c ++ B " " ++ reason ++ CRLF
            ++ B "Content-Length: " ++ numToString 10 (blen (B msg ++ [LF])) ++ CRLF
            ++ CRLF;
          B msg ++ [LF]]) /\
  ((forall c msg, e <> HTTPError c msg) -> newConn (2 + fuel) w = (Ret tt, w1)).
Proof.
  intros Hserve. split.
  - intros c msg reason -> Hreason.
    set (d := B msg ++ [LF]).
    set (w1' := mkWorld (conn w1) (written w1) (heap w1 ++ [readerFromMemory d])).
    assert (Hr : nth_error (heap w1') (List.length (heap w1)) = Some (readerFromMemory d))
      by apply nth_error_new.
    destruct (memory_reads fuel 0 _ w1' d Hr)
      as (_ & w2 & _ & Hconn & Hwritten & _ & Hall).
    assert (Hd : (blen d =? 0) = false).
    { apply Z.eqb_neq. unfold d. rewrite blen_app. pose proof (blen_nonneg (B msg)).
      change (blen [LF]) with 1. lia. }
    rewrite Hd in Hall.
    destruct (writeHTTPResp_plain (2 + fuel)
                (mkRes c [] (List.length (heap w1))) w1' w2 (readerFromMemory d)
                (B "HTTP/1.1 " ++ numToString 10 c ++ B " " ++ reason ++ CRLF
                   ++ B "Content-Length: " ++ numToString 10 (blen d) ++ CRLF ++ CRLF)
                [d] Hr) as [Hwrite _].
    + cbn [rlength readerFromMemory]. apply blen_nonneg.
    + cbn [code resHeaders app rlength readerFromMemory].
      rewrite (encodeHTTPResp_known c reason _ Hreason).
      cbn [map List.concat]. now rewrite app_nil_r, <- !app_assoc.
    + exact Hall.
    + exists (setWritten (written w1' ++
                [B "HTTP/1.1 " ++ numToString 10 c ++ B " " ++ reason ++ CRLF
                   ++ B "Content-Length: " ++ numToString 10 (blen d) ++ CRLF ++ CRLF]
                ++ [d]) w2).
      split; [|split; [exact Hconn|reflexivity]].
      unfold newConn. rewrite Hserve. unfold bind, newReader.
      fold d. fold w1'. cbn [Nat.add] in Hwrite |- *. now rewrite Hwrite.
  - intros Hother. unfold newConn. rewrite Hserve.
    destruct e as [c msg| | |]; try reflexivity.
    exfalso. now apply (Hother c msg).
Qed.

Lemma newConn_error_response_witness :
  exists w2,
    newConn 2 (connOf [B "GET / HT"]) = (Ret tt, w2) /\
    written w2 =
      [B "HTTP/1.1 400 Bad Request" ++ CRLF
         ++ B "Content-Length: 14" ++ CRLF ++ CRLF;
       B "Expected EOF." ++ [LF]].
Proof.
  destruct (newConn_error_response 0 (connOf [B "GET / HT"])
              (mkWorld (mkConn [] 2 (bufOf (B "GET / HT") 32)) [] [])
              (HTTPError 400 "Expected EOF.")) as [H _].
  - vm_compute. reflexivity.
  - destruct (H 400 "Expected EOF."%string (B "Bad Request") eq_refl eq_refl)
      as (w2 & Hrun & _ & Hout).
    exists w2. split; [exact Hrun|exact Hout].
Defined.


(** ** Connections that never send a whole header *)

Lemma occurs_app_l (needle a b : bytes) : occurs needle a -> occurs needle (a ++ b).
Proof.
  intros (pre & post & ->). exists pre, (post ++ b). now rewrite <- !app_assoc.
Qed.

Lemma cutMessage_none (b : DynBuf) :
  ~ occurs headerEnd (window b) -> length b < 8192 ->
  cutMessage b = (Ret None, b).
Proof.
  intros Hno Hlen. apply indexOf_absent in Hno. unfold cutMessage.
  fold headerEnd. apply Z.ltb_lt in Hno. rewrite Hno.
  change kMaxHeaderLen with 8192.
  apply Z.leb_gt in Hlen. now rewrite Hlen.
Qed.

Lemma bind_Ret {S A C} (m : M S A) (k : A -> M S C) (s s' : S) (a : A) :
  m s = (Ret a, s') -> bind m k s = k a s'.
Proof. intros H. unfold bind. now rewrite H. Qed.

Lemma bind_Throw {S A C} (m : M S A) (k : A -> M S C) (s s' : S) (e : Exn) :
  m s = (Throw e, s') -> bind m k s = (Throw e, s').
Proof. intros H. unfold bind. now rewrite H. Qed.

Lemma liftC_mk {A} (m : M Conn A) (c c' : Conn) (out : list bytes)
      (h : list BodyReader) (o : Outcome A) :
  m c = (o, c') -> liftC m (mkWorld c out h) = (o, mkWorld c' out h).
Proof. intros H. unfold liftC. cbn [conn written heap]. now rewrite H. Qed.

(** One turn of the server loop when the buffer holds no whole header. *)
Lemma serveLoop_no_header (f : nat) (c : Conn) (out : list bytes)
      (h : list BodyReader) (d : bytes) (rest : list bytes) (b1 : DynBuf) :
  cutMessage (buf c) = (Ret None, buf c) ->
  (incoming c = d :: rest \/ (incoming c = [] /\ d = [] /\ rest = [])) ->
  bufPush (buf c) d = (None, b1) ->
  serveLoop (S f) (mkWorld c out h) =
    let w1 := mkWorld (mkConn rest (S (reads c)) b1) out h in
    if (blen d =? 0) && (length b1 =? 0) then (Ret tt, w1)
    else if blen d =? 0 then (Throw (HTTPError 400 "Expected EOF."), w1)
         else serveLoop f w1.
Proof.
  intros Hcut Hin Hpush. cbn [serveLoop].
  erewrite bind_Ret.
  2:{ apply liftC_mk. unfold cutMessageM. rewrite Hcut, conn_eta. reflexivity. }
  cbv beta iota.
  erewrite bind_Ret.
  2:{ apply liftC_mk. unfold soRead.
      destruct Hin as [-> | (-> & -> & ->)]; reflexivity. }
  erewrite bind_Ret.
  2:{ apply liftC_mk. unfold bufPushM, setBuf. cbn [buf incoming reads].
      rewrite Hpush. reflexivity. }
  erewrite bind_Ret.
  2:{ apply liftC_mk. reflexivity. }
  cbn [buf]. cbv zeta.
  destruct (blen d =? 0); destruct (length b1 =? 0); reflexivity.
Qed.

Lemma serveLoop_incomplete (ds : list bytes) :
  forall (fuel : nat) (b : DynBuf) (r : nat) (out : list bytes) (h : list BodyReader),
    wf b -> Forall (fun d => d <> []) ds ->
    ~ occurs headerEnd (window b ++ List.concat ds) ->
    blen (window b ++ List.concat ds) < 8192 ->
    (List.length ds < fuel)%nat ->
    exists b',
      wf b' /\ window b' = window b ++ List.concat ds /\
      serveLoop fuel (mkWorld (mkConn ds r b) out h) =
        ((if length b' =? 0 then Ret tt
          else Throw (HTTPError 400 "Expected EOF.")),
         mkWorld (mkConn [] (S (List.length ds) + r) b') out h).
Proof.
  induction ds as [|d ds IH]; intros fuel b r out h Hwf Hne Hno Hlen Hfuel;
    (destruct fuel as [|f]; [cbn in Hfuel; lia|]).
  - cbn [List.concat] in *. rewrite app_nil_r in *.
    destruct (bufPush_wf b [] Hwf) as (b1 & Hpush & Hwf1 & Hlen1 & Hwin1 & _).
    rewrite app_nil_r in Hwin1. change (blen []) with 0 in Hlen1.
    exists b1. split; [exact Hwf1|]. split; [exact Hwin1|].
    rewrite (serveLoop_no_header f (mkConn [] r b) out h [] [] b1).
    + cbv zeta. cbn [blen List.length Z.of_nat Z.eqb andb reads Nat.add].
      destruct (length b1 =? 0); reflexivity.
    + cbn [buf]. apply cutMessage_none; [exact Hno|].
      rewrite <- (blen_window b Hwf). exact Hlen.
    + right. repeat split.
    + exact Hpush.
  - cbn [List.concat] in *. inversion Hne as [|? ? Hd Hne']; subst.
    destruct (bufPush_wf b d Hwf) as (b1 & Hpush & Hwf1 & Hlen1 & Hwin1 & _).
    destruct (IH f b1 (S r) out h Hwf1 Hne') as (b' & Hwf' & Hwin' & Hloop).
    + rewrite Hwin1, <- app_assoc. exact Hno.
    + rewrite Hwin1, <- app_assoc. exact Hlen.
    + cbn [List.length] in Hfuel. lia.
    + exists b'. split; [exact Hwf'|].
      split; [rewrite Hwin', Hwin1, <- app_assoc; reflexivity|].
      rewrite (serveLoop_no_header f (mkConn (d :: ds) r b) out h d ds b1).
      * cbv zeta. apply bytes_nonempty in Hd.
        destruct (blen d =? 0) eqn:E; [apply Z.eqb_eq in E; lia|].
        cbn [andb reads]. rewrite Hloop. cbn [List.length].
        now rewrite Nat.add_succ_r.
      * cbn [buf]. apply cutMessage_none.
        -- intros Hocc. apply Hno. now apply occurs_app_l.
        -- rewrite <- (blen_window b Hwf). rewrite blen_app in Hlen.
           pose proof (blen_nonneg (d ++ List.concat ds)). lia.
      * now left.
      * exact Hpush.
Qed.

(** X5. A connection whose deliveries never add up to a whole header
    (no [\r\n\r\n], fewer than 8192 bytes in all): the server reads
    every delivery and then the end of the stream, writes nothing, and
    leaves the bytes in the buffer.  If nothing at all was received it
    returns normally; otherwise it fails with the status-400 error
    "Expected EOF.". *)
Theorem incomplete_header_ends_in_400 (ds : list bytes) (fuel : nat) :
  Forall (fun d => d <> []) ds ->
  ~ occurs headerEnd (List.concat ds) ->
  blen (List.concat ds) < 8192 ->
  (List.length ds < fuel)%nat ->
  exists w',
    serveClient fuel (connOf ds)
    = ((match ds with
        | [] => Ret tt
        | _ => Throw (HTTPError 400 "Expected EOF.")
        end), w') /\
    written w' = [] /\ heap w' = [] /\
    reads (conn w') = S (List.length ds) /\
    incoming (conn w') = [] /\
    window (buf (conn w')) = List.concat ds.
Proof.
  intros Hne Hno Hlen Hfuel.
  assert (Hwf0 : wf emptyBuf) by (unfold wf, capacity; cbn; lia).
  destruct (serveLoop_incomplete ds fuel emptyBuf 0 [] [] Hwf0 Hne Hno Hlen Hfuel)
    as (b' & Hwf' & Hwin' & Hloop).
  change (window emptyBuf) with (@nil byte) in Hwin'. cbn [app] in Hwin'.
  eexists. split.
  - change (serveClient fuel (connOf ds))
      with (serveLoop fuel (mkWorld (mkConn ds 0 emptyBuf) [] [])).
    rewrite Hloop. f_equal.
    pose proof (blen_window b' Hwf') as Hb. rewrite Hwin' in Hb.
    destruct ds as [|d ds].
    + cbn in Hb. rewrite <- Hb. reflexivity.
    + inversion Hne as [|? ? Hd _]; subst. apply bytes_nonempty in Hd.
      cbn [List.concat] in Hb. rewrite blen_app in Hb.
      pose proof (blen_nonneg (List.concat ds)).
      destruct (length b' =? 0) eqn:E; [apply Z.eqb_eq in E; lia|reflexivity].
  - cbn [written heap conn reads incoming buf]. repeat split; try assumption.
    now rewrite Nat.add_0_r.
Qed.

Lemma incomplete_header_ends_in_400_witness :
  exists w',
    serveClient 3 (connOf [B "GET / HT"; B "TP/1.1"])
    = (Throw (HTTPError 400 "Expected EOF."), w') /\
    written w' = [] /\ reads (conn w') = 3%nat.
Proof.
  destruct (incomplete_header_ends_in_400 [B "GET / HT"; B "TP/1.1"] 3)
    as (w' & H & Hw & _ & Hr & _).
  - repeat constructor; discriminate.
  - apply indexOf_absent. vm_compute. reflexivity.
  - vm_compute. reflexivity.
  - cbn. lia.
  - exists w'. split; [exact H|]. split; [exact Hw|exact Hr].
Defined.

(** ** Searching for one byte *)

Lemma eqb_neq (x y : byte) : x <> y -> Byte.eqb x y = false.
Proof.
  intros H. destruct (Byte.eqb x y) eqn:E; [|reflexivity].
  apply Byte.byte_dec_bl in E. contradiction.
Qed.

Lemma indexOf_byte_first (c : byte) (pre post : bytes) :
  ~ In c pre -> Buf.indexOf (pre ++ c :: post) [c] = blen pre.
Proof.
  induction pre as [|x pre IH]; intros Hno.
  - cbn [app]. rewrite indexOf_cons. cbn [Buf.startsWith].
    now rewrite (Byte.byte_dec_lb (eq_refl c)).
  - cbn [app]. rewrite indexOf_cons. cbn [Buf.startsWith].
    rewrite eqb_neq by (intros ->; apply Hno; now left). cbn [andb].
    rewrite IH by (intros Hin; apply Hno; now right).
    pose proof (blen_nonneg pre) as Hp.
    destruct (blen pre <? 0) eqn:E; [apply Z.ltb_lt in E; lia|].
    unfold blen. cbn [List.length]. lia.
Qed.

Lemma occurs_byte (c : byte) (hay : bytes) : occurs [c] hay <-> In c hay.
Proof.
  split.
  - intros (pre & post & ->). apply in_or_app. right. now left.
  - intros Hin. apply in_split in Hin as (pre & post & ->). now exists pre, post.
Qed.

Lemma indexOf_byte_absent (c : byte) (hay : bytes) :
  ~ In c hay -> Buf.indexOf hay [c] < 0.
Proof. intros H. apply indexOf_absent. now rewrite occurs_byte. Qed.

(** A non-negative [indexOf] of one byte is its first position. *)
Lemma indexOf_byte_found (c : byte) (hay : bytes) :
  0 <= Buf.indexOf hay [c] ->
  exists pre post,
    hay = pre ++ c :: post /\ ~ In c pre /\ blen pre = Buf.indexOf hay [c].
Proof.
  induction hay as [|x t IH].
  - rewrite indexOf_nil. cbn. lia.
  - rewrite indexOf_cons. cbn [Buf.startsWith].
    destruct (Byte.eqb c x) eqn:E.
    + apply Byte.byte_dec_bl in E. subst x. intros _.
      exists [], t. repeat split. intros [].
    + cbn [andb]. destruct (Buf.indexOf t [c] <? 0) eqn:En; [lia|].
      apply Z.ltb_ge in En. intros _.
      destruct (IH En) as (pre & post & -> & Hno & Hlen).
      exists (x :: pre), post. split; [reflexivity|]. split.
      * intros [->|Hin]; [|now apply Hno].
        rewrite (Byte.byte_dec_lb (eq_refl c)) in E. discriminate.
      * rewrite <- Hlen. unfold blen. cbn [List.length]. lia.
Qed.

Lemma firstn_blen_app (a b : bytes) : firstn (Z.to_nat (blen a)) (a ++ b) = a.
Proof.
  unfold blen. rewrite Nat2Z.id, firstn_app, Nat.sub_diag, firstn_all.
  cbn [firstn]. apply app_nil_r.
Qed.

Lemma skipn_blen_app (a b : bytes) : skipn (Z.to_nat (blen a)) (a ++ b) = b.
Proof.
  unfold blen. rewrite Nat2Z.id, skipn_app, Nat.sub_diag, skipn_all. reflexivity.
Qed.

(** ** The request line *)

Lemma parseRequestLine_ok (m u v : bytes) :
  ~ In SP m -> ~ In SP u ->
  parseRequestLine (m ++ SP :: u ++ SP :: v) = Ret (m, u, v).
Proof.
  intros Hm Hu. set (d := m ++ SP :: u ++ SP :: v).
  pose proof (blen_nonneg m) as Hm0. pose proof (blen_nonneg u) as Hu0.
  pose proof (blen_nonneg v) as Hv0.
  assert (Hd : blen d = blen m + 1 + blen u + 1 + blen v).
  { unfold d. rewrite blen_app. unfold blen at 2. cbn [List.length].
    rewrite Nat2Z.inj_succ. fold (blen (u ++ SP :: v)). rewrite blen_app.
    unfold blen at 3. cbn [List.length]. rewrite Nat2Z.inj_succ. fold (blen v). lia. }
  assert (Hskip1 : skipn (Z.to_nat (blen m + 1)) d = u ++ SP :: v).
  { unfold d. change (m ++ SP :: u ++ SP :: v) with (m ++ [SP] ++ u ++ SP :: v).
    rewrite app_assoc.
    replace (blen m + 1) with (blen (m ++ [SP])) by (rewrite blen_app; reflexivity).
    apply skipn_blen_app. }
  assert (Hskip2 : skipn (Z.to_nat (blen m + blen u + 2)) d = v).
  { replace (Z.to_nat (blen m + blen u + 2))
      with (Z.to_nat (blen u + 1) + Z.to_nat (blen m + 1))%nat by lia.
    rewrite <- skipn_skipn, Hskip1.
    change (u ++ SP :: v) with (u ++ [SP] ++ v). rewrite app_assoc.
    replace (blen u + 1) with (blen (u ++ [SP])) by (rewrite blen_app; reflexivity).
    apply skipn_blen_app. }
  unfold parseRequestLine. change (B " ") with [SP].
  rewrite subarray_all. fold d.
  assert (Hi : Buf.indexOf d [SP] = blen m) by (apply indexOf_byte_first; exact Hm).
  rewrite Hi.
  destruct (blen m <? 0) eqn:E1; [apply Z.ltb_lt in E1; lia|].
  rewrite (subarray_suffix d (blen m + 1)) by lia. rewrite Hskip1.
  rewrite (indexOf_byte_first SP u v Hu).
  destruct (blen u <? 0) eqn:E2; [apply Z.ltb_lt in E2; lia|].
  rewrite (subarray_prefix d (blen m)) by lia.
  rewrite (subarray_mid d (blen m + 1) (blen m + blen u + 1)) by lia.
  rewrite (subarray_suffix d (blen m + blen u + 2)) by lia.
  rewrite Hskip1, Hskip2.
  replace (blen m + blen u + 1 - (blen m + 1)) with (blen u) by lia.
  unfold d at 1. now rewrite !firstn_blen_app.
Qed.

(** X6. [parseRequestLine] cuts the line at its first two spaces: the
    method is what precedes the first space, the target what lies
    between the first and the second, and the version all the rest,
    spaces included.  A line with no space fails with the status-400
    error "No method in request line", a line with one space only with
    "No uri in request line". *)
Theorem parseRequestLine_tokens :
  (forall m u v, ~ In SP m -> ~ In SP u ->
     parseRequestLine (m ++ SP :: u ++ SP :: v) = Ret (m, u, v)) /\
  (forall d m u v, parseRequestLine d = Ret (m, u, v) ->
     d = m ++ SP :: u ++ SP :: v /\ ~ In SP m /\ ~ In SP u) /\
  (forall d, ~ In SP d ->
     parseRequestLine d = Throw (HTTPError 400 "No method in request line")) /\
  (forall m r, ~ In SP m -> ~ In SP r ->
     parseRequestLine (m ++ SP :: r) = Throw (HTTPError 400 "No uri in request line")).
Proof.
  split; [exact parseRequestLine_ok|]. split; [|split].
  - intros d m u v H.
    assert (H' := H). unfold parseRequestLine in H'. change (B " ") with [SP] in H'.
    rewrite subarray_all in H'.
    destruct (Buf.indexOf d [SP] <? 0) eqn:E1; [discriminate|].
    apply Z.ltb_ge in E1.
    destruct (indexOf_byte_found SP d E1) as (m' & r & Hd & Hm' & Hlen).
    rewrite <- Hlen in H'. pose proof (blen_nonneg m').
    rewrite (subarray_suffix d (blen m' + 1)) in H' by lia.
    assert (Hskip : skipn (Z.to_nat (blen m' + 1)) d = r).
    { rewrite Hd. change (m' ++ SP :: r) with (m' ++ [SP] ++ r). rewrite app_assoc.
      replace (blen m' + 1) with (blen (m' ++ [SP])) by (rewrite blen_app; reflexivity).
      apply skipn_blen_app. }
    rewrite Hskip in H'.
    destruct (Buf.indexOf r [SP] <? 0) eqn:E2; [discriminate|].
    apply Z.ltb_ge in E2.
    destruct (indexOf_byte_found SP r E2) as (u' & v' & Hr & Hu' & _).
    clear Hskip H' Hlen. subst r. subst d.
    rewrite (parseRequestLine_ok m' u' v' Hm' Hu') in H.
    injection H as <- <- <-. repeat split; assumption.
  - intros d Hno. unfold parseRequestLine. change (B " ") with [SP].
    rewrite subarray_all.
    pose proof (indexOf_byte_absent SP d Hno) as Hneg.
    apply Z.ltb_lt in Hneg. now rewrite Hneg.
  - intros m r Hm Hr. unfold parseRequestLine. change (B " ") with [SP].
    rewrite subarray_all, (indexOf_byte_first SP m r Hm).
    pose proof (blen_nonneg m).
    destruct (blen m <? 0) eqn:E1; [apply Z.ltb_lt in E1; lia|].
    rewrite (subarray_suffix _ (blen m + 1)) by lia.
    change (m ++ SP :: r) with (m ++ [SP] ++ r). rewrite app_assoc.
    replace (blen m + 1) with (blen (m ++ [SP])) by (rewrite blen_app; reflexivity).
    rewrite skipn_blen_app.
    pose proof (indexOf_byte_absent SP r Hr) as Hneg.
    apply Z.ltb_lt in Hneg. now rewrite Hneg.
Qed.

Lemma parseRequestLine_tokens_witness :
  parseRequestLine (B "GET /a b HTTP/1.1 x") = Ret (B "GET", B "/a", B "b HTTP/1.1 x") /\
  parseRequestLine (B "GET") = Throw (HTTPError 400 "No method in request line") /\
  parseRequestLine (B "GET /") = Throw (HTTPError 400 "No uri in request line").
Proof.
  destruct parseRequestLine_tokens as (Hok & _ & Hnone & Hone).
  split; [|split].
  - apply (Hok (B "GET") (B "/a") (B "b HTTP/1.1 x")).
    + cbv. intuition discriminate.
    + cbv. intuition discriminate.
  - apply (Hnone (B "GET")). cbv. intuition discriminate.
  - apply (Hone (B "GET") (B "/")).
    + cbv. intuition discriminate.
    + cbv. intuition discriminate.
Defined.

(** ** Header fields *)

Lemma equals_same (a : bytes) : equals a a = true.
Proof.
  induction a as [|x a IH]; cbn [equals]; [reflexivity|].
  now rewrite IH, (Byte.byte_dec_lb (eq_refl x)).
Qed.

(** The first header, when its name has no colon: the name is what
    precedes the colon, the value what follows the byte after it. *)
Lemma fieldGet_cons (k v key : bytes) (c : byte) (rest : list bytes) :
  ~ In COLON k ->
  fieldGet ((k ++ COLON :: c :: v) :: rest) key =
  if equals k key then Some v else fieldGet rest key.
Proof.
  intros Hk. cbn [fieldGet]. change (B ":") with [COLON].
  rewrite subarray_all, (indexOf_byte_first COLON k (c :: v) Hk).
  pose proof (blen_nonneg k) as Hk0. pose proof (blen_nonneg v) as Hv0.
  assert (Hlen : blen (k ++ COLON :: c :: v) = blen k + 2 + blen v).
  { rewrite blen_app. unfold blen at 2. cbn [List.length].
    rewrite !Nat2Z.inj_succ. fold (blen v). lia. }
  rewrite subarray_prefix by lia. rewrite firstn_blen_app.
  destruct (equals k key); [|reflexivity].
  rewrite subarray_suffix by lia.
  change (k ++ COLON :: c :: v) with (k ++ [COLON; c] ++ v). rewrite app_assoc.
  replace (blen k + 2) with (blen (k ++ [COLON; c])) by (rewrite blen_app; reflexivity).
  now rewrite skipn_blen_app.
Qed.

Lemma fieldGet_map (kvs : list (bytes * bytes)) (key : bytes) :
  Forall (fun kv => ~ In COLON (fst kv)) kvs ->
  fieldGet (map fieldOf kvs) key
  = option_map snd (find (fun kv => equals (fst kv) key) kvs).
Proof.
  intros Hall. induction Hall as [|[k v] kvs Hk _ IH]; [reflexivity|].
  cbn [map find fst snd]. unfold fieldOf at 1. cbn [fst snd].
  change (B ": " ++ v) with (COLON :: SP :: v).
  rewrite (fieldGet_cons k v key SP _ Hk).
  destruct (equals k key); [reflexivity|exact IH].
Qed.

(** X7. Over header fields written [name: value] with colon-free names,
    [fieldGet] is the lookup of the first field whose name is exactly
    the key: it returns that field's value, and nothing when no field
    has that name.  The two bytes after the name are dropped whatever
    they are. *)
Theorem fieldGet_lookup :
  (forall (kvs : list (bytes * bytes)) (key : bytes),
     Forall (fun kv => ~ In COLON (fst kv)) kvs ->
     fieldGet (map fieldOf kvs) key
     = option_map snd (find (fun kv => equals (fst kv) key) kvs)) /\
  (forall (k v : bytes) (c : byte) (rest : list bytes),
     ~ In COLON k -> fieldGet ((k ++ COLON :: c :: v) :: rest) k = Some v).
Proof.
  split; [exact fieldGet_map|].
  intros k v c rest Hk. rewrite (fieldGet_cons k v k c rest Hk).
  now rewrite equals_same.
Qed.

Lemma fieldGet_lookup_witness :
  fieldGet [B "Host: a"; B "Content-Length: 5"; B "Content-Length: 7"]
           (B "Content-Length") = Some (B "5") /\
  fieldGet [B "Host: a"] (B "host") = None /\
  fieldGet [B "Content-Length:5"] (B "Content-Length") = Some [].
Proof.
  destruct fieldGet_lookup as [Hlookup Hdrop].
  split; [|split].
  - apply (Hlookup [(B "Host", B "a"); (B "Content-Length", B "5");
                    (B "Content-Length", B "7")] (B "Content-Length")).
    repeat constructor; cbv; intuition discriminate.
  - apply (Hlookup [(B "Host", B "a")] (B "host")).
    repeat constructor; cbv; intuition discriminate.
  - apply (Hdrop (B "Content-Length") [] "5"%byte []).
    cbv. intuition discriminate.
Defined.

(** ** Splitting and parsing a well-formed header block *)

Lemma indexOf_CRLF_first (l rest : bytes) :
  ~ In CR l -> Buf.indexOf (l ++ CRLF ++ rest) CRLF = blen l.
Proof.
  induction l as [|x l IH]; intros Hno.
  - reflexivity.
  - cbn [app]. rewrite indexOf_cons.
    change (Buf.startsWith CRLF (x :: l ++ CRLF ++ rest))
      with (Byte.eqb CR x && Buf.startsWith [LF] (l ++ CRLF ++ rest)).
    rewrite eqb_neq by (intros <-; apply Hno; now left). cbn [andb].
    rewrite IH by (intros Hin; apply Hno; now right).
    pose proof (blen_nonneg l).
    destruct (blen l <? 0) eqn:E; [apply Z.ltb_lt in E; lia|].
    unfold blen. cbn [List.length]. lia.
Qed.

(** The loop of [splitLines] over a text made of CR-free lines, each
    ended by CRLF, and of a tail with no CRLF: one line per CRLF, each
    with its CR. *)
Lemma splitLines_loop_lines (lines : list bytes) :
  forall (fuel : nat) (pre tail : bytes) (acc : list bytes),
    Forall (fun l => ~ In CR l) lines ->
    Buf.indexOf tail CRLF < 0 ->
    (List.length lines < fuel)%nat ->
    let d := pre ++ List.concat (map (fun l => l ++ CRLF) lines) ++ tail in
    splitLines_loop fuel d (blen pre)
      (Buf.indexOf (Buf.subarray d (blen pre) (blen d)) CRLF) acc
    = acc ++ map (fun l => l ++ [CR]) lines.
Proof.
  induction lines as [|l ls IH]; intros fuel pre tail acc Hall Htail Hfuel d;
    (destruct fuel as [|f]; [cbn in Hfuel; lia|]);
    pose proof (blen_nonneg pre) as Hpre.
  - subst d. cbn [map List.concat app].
    rewrite subarray_suffix by lia. rewrite skipn_blen_app.
    cbn [splitLines_loop]. apply Z.leb_gt in Htail. rewrite Htail.
    now rewrite app_nil_r.
  - inversion Hall as [|? ? Hl Hls]; subst.
    set (rest := List.concat (map (fun l0 => l0 ++ CRLF) ls) ++ tail).
    assert (Hd : d = pre ++ l ++ CRLF ++ rest).
    { unfold d, rest. cbn [map List.concat]. now rewrite <- !app_assoc. }
    assert (Hd' : d = (pre ++ l ++ CRLF) ++ rest) by (rewrite Hd; now rewrite <- !app_assoc).
    pose proof (blen_nonneg l) as Hl0. pose proof (blen_nonneg rest) as Hr0.
    assert (Hlen : blen d = blen pre + blen l + 2 + blen rest).
    { rewrite Hd, !blen_app. change (blen CRLF) with 2. lia. }
    assert (Hskip : skipn (Z.to_nat (blen pre)) d = l ++ CRLF ++ rest)
      by (rewrite Hd; apply skipn_blen_app).
    rewrite subarray_suffix by lia. rewrite Hskip, (indexOf_CRLF_first l rest Hl).
    cbn [splitLines_loop].
    destruct (0 <=? blen l) eqn:E; [|apply Z.leb_gt in E; lia].
    rewrite (subarray_mid d (blen pre) (blen pre + blen l + 1)) by lia.
    rewrite Hskip.
    replace (blen pre + blen l + 1 - blen pre) with (blen (l ++ [CR]))
      by (rewrite blen_app; change (blen [CR]) with 1; lia).
    change (l ++ CRLF ++ rest) with (l ++ [CR] ++ LF :: rest).
    rewrite app_assoc, firstn_blen_app.
    replace (blen pre + blen l + 2) with (blen (pre ++ l ++ CRLF))
      by (rewrite !blen_app; change (blen CRLF) with 2; lia).
    pose proof (IH f (pre ++ l ++ CRLF) tail (acc ++ [l ++ [CR]]) Hls Htail
                  ltac:(cbn [List.length] in Hfuel; lia)) as IH'.
    cbv zeta in IH'. fold rest in IH'. rewrite <- Hd' in IH'.
    etransitivity; [exact IH'|]. cbn [map]. now rewrite <- app_assoc.
Qed.

Lemma concat_lines_length (ls : list bytes) :
  (List.length ls <= List.length (List.concat (map (fun l => l ++ CRLF) ls)))%nat.
Proof.
  induction ls as [|l ls IH]; cbn [map List.concat List.length]; [lia|].
  rewrite !length_app. change (List.length CRLF) with 2%nat. lia.
Qed.

Lemma splitLines_lines (lines : list bytes) :
  Forall (fun l => ~ In CR l) lines ->
  splitLines (List.concat (map (fun l => l ++ CRLF) lines))
  = map (fun l => l ++ [CR]) lines.
Proof.
  intros Hall. unfold splitLines.
  pose proof (splitLines_loop_lines lines
                (S (List.length (List.concat (map (fun l => l ++ CRLF) lines))))
                [] [] [] Hall) as H.
  cbv zeta in H. cbn [app] in H. rewrite app_nil_r in H.
  change (blen []) with 0 in H. apply H.
  - vm_compute. reflexivity.
  - pose proof (concat_lines_length lines). lia.
Qed.

Lemma checkHeaders_ok (ls : list bytes) :
  forall acc, Forall (fun h => validateHeader h = true) ls ->
              checkHeaders ls acc = Ret (acc ++ ls).
Proof.
  induction ls as [|h ls IH]; intros acc Hall; cbn [checkHeaders].
  - now rewrite app_nil_r.
  - inversion Hall as [|? ? Hh Hls]; subst. rewrite Hh, IH by exact Hls.
    now rewrite <- app_assoc.
Qed.

Lemma validateHeader_colon (h : bytes) : validateHeader h = true <-> In COLON h.
Proof.
  unfold validateHeader. change (B ":") with [COLON]. rewrite subarray_all.
  rewrite <- occurs_byte. split.
  - intros H. apply Z.leb_le in H.
    destruct (indexOf_found h [COLON] H) as (pre & post & -> & _). now exists pre, post.
  - intros H. apply Z.leb_le.
    destruct (Z_lt_ge_dec (Buf.indexOf h [COLON]) 0) as [Hlt|Hge]; [|lia].
    apply indexOf_absent in Hlt. contradiction.
Qed.

Lemma checkHeaders_valid (ls : list bytes) :
  forall acc hs, checkHeaders ls acc = Ret hs ->
                 Forall (fun h => validateHeader h = true) ls.
Proof.
  induction ls as [|h ls IH]; intros acc hs; cbn [checkHeaders]; [constructor|].
  destruct (validateHeader h) eqn:E; [|discriminate].
  intros H. constructor; [exact E|eapply IH, H].
Qed.

Lemma parseHTTPReq_block (m u v : bytes) (hs : list bytes) :
  ~ In SP m -> ~ In SP u ->
  ~ In CR m -> ~ In CR u -> ~ In CR v ->
  Forall (fun h => ~ In CR h /\ In COLON h) hs ->
  parseHTTPReq (headerBlock m u v hs)
  = Ret (mkReq m u (v ++ [CR]) (map (fun h => h ++ [CR]) hs)).
Proof.
  intros Hm Hu Hmc Huc Hvc Hhs.
  set (line0 := m ++ SP :: u ++ SP :: v).
  assert (Hline0 : ~ In CR line0).
  { unfold line0. intros Hin. apply in_app_or in Hin as [Hin|[Heq|Hin]];
      [now apply Hmc|discriminate|].
    apply in_app_or in Hin as [Hin|[Heq|Hin]]; [now apply Huc|discriminate|now apply Hvc]. }
  assert (Hblock : headerBlock m u v hs
                   = List.concat (map (fun l => l ++ CRLF) (line0 :: hs ++ [[]]))).
  { unfold headerBlock. fold line0. cbn [map List.concat].
    rewrite map_app, concat_app. cbn [map List.concat app].
    now rewrite app_nil_r, <- !app_assoc. }
  assert (Hlines : Forall (fun l => ~ In CR l) (line0 :: hs ++ [[]])).
  { constructor; [exact Hline0|]. apply Forall_app. split.
    - eapply Forall_impl; [|exact Hhs]. now intros h [Hh _].
    - constructor; [intros []|constructor]. }
  unfold parseHTTPReq. rewrite Hblock, (splitLines_lines _ Hlines).
  cbn [map]. rewrite map_app. cbn [map app].
  replace (line0 ++ [CR]) with (m ++ SP :: u ++ SP :: (v ++ [CR]))
    by (unfold line0; rewrite <- !app_assoc; cbn [app];
        rewrite <- !app_assoc; reflexivity).
  rewrite (parseRequestLine_ok m u (v ++ [CR]) Hm Hu).
  rewrite removelast_last, checkHeaders_ok; [reflexivity|].
  apply Forall_map. eapply Forall_impl; [|exact Hhs].
  intros h [_ Hcolon]. apply validateHeader_colon. apply in_or_app. now left.
Qed.

(** X8. The parser on a well-formed header block, made of a request
    line [method SP target SP version] and of header lines that each
    hold a colon, with no CR inside a line and no space inside the
    method or the target: the method and the target come out as they
    are, the version and every header field come out followed by the CR
    of their line, in the order of the block.  On any input at all, the
    header fields the parser returns each hold a colon. *)
Theorem parseHTTPReq_wellformed :
  (forall (m u v : bytes) (hs : list bytes),
     ~ In SP m -> ~ In SP u ->
     ~ In CR m -> ~ In CR u -> ~ In CR v ->
     Forall (fun h => ~ In CR h /\ In COLON h) hs ->
     parseHTTPReq (headerBlock m u v hs)
     = Ret (mkReq m u (v ++ [CR]) (map (fun h => h ++ [CR]) hs))) /\
  (forall d req, parseHTTPReq d = Ret req -> Forall (In COLON) (headers req)).
Proof.
  split; [exact parseHTTPReq_block|].
  intros d req. unfold parseHTTPReq.
  destruct (splitLines d) as [|line0 rest]; [discriminate|].
  destruct (parseRequestLine line0) as [[[m u] v]|e|]; try discriminate.
  destruct (checkHeaders (removelast rest) []) as [hs|e|] eqn:Ehs; try discriminate.
  intros [= <-]. cbn [headers].
  pose proof (checkHeaders_valid _ _ _ Ehs) as Hvalid.
  apply checkHeaders_ret in Ehs. subst hs. cbn [app].
  eapply Forall_impl; [|exact Hvalid]. intros h. apply validateHeader_colon.
Qed.

Lemma parseHTTPReq_wellformed_witness :
  parseHTTPReq (headerBlock (B "POST") (B "/echo") (B "HTTP/1.1")
                            [B "Host: a"; B "Content-Length: 5"])
  = Ret (mkReq (B "POST") (B "/echo") (B "HTTP/1.1" ++ [CR])
               [B "Host: a" ++ [CR]; B "Content-Length: 5" ++ [CR]]).
Proof.
  apply (proj1 parseHTTPReq_wellformed (B "POST") (B "/echo") (B "HTTP/1.1")
               [B "Host: a"; B "Content-Length: 5"]);
    try (cbv; intuition discriminate).
  repeat constructor; cbv; intuition discriminate.
Defined.

(** ** The framer on a well-formed request *)

Lemma indexOf_skip_CRfree (l X : bytes) :
  ~ In CR l -> 0 <= Buf.indexOf X headerEnd ->
  Buf.indexOf (l ++ X) headerEnd = blen l + Buf.indexOf X headerEnd.
Proof.
  intros Hno HX. induction l as [|x l IH]; [reflexivity|].
  cbn [app]. rewrite indexOf_cons.
  change (Buf.startsWith headerEnd (x :: l ++ X))
    with (Byte.eqb CR x && Buf.startsWith [LF; CR; LF] (l ++ X)).
  rewrite eqb_neq by (intros <-; apply Hno; now left). cbn [andb].
  rewrite IH by (intros Hin; apply Hno; now right).
  pose proof (blen_nonneg l).
  destruct (blen l + Buf.indexOf X headerEnd <? 0) eqn:E; [apply Z.ltb_lt in E; lia|].
  unfold blen. cbn [List.length]. lia.
Qed.

Lemma indexOf_after_CRLF (x : byte) (t : bytes) :
  x <> CR -> 0 <= Buf.indexOf (x :: t) headerEnd ->
  Buf.indexOf (CRLF ++ x :: t) headerEnd = 2 + Buf.indexOf (x :: t) headerEnd.
Proof.
  intros Hx Ht. change (CRLF ++ x :: t) with (CR :: LF :: x :: t).
  rewrite (indexOf_cons CR).
  change (Buf.startsWith headerEnd (CR :: LF :: x :: t))
    with (Byte.eqb CR CR && (Byte.eqb LF LF && (Byte.eqb CR x && Buf.startsWith [LF] t))).
  rewrite (eqb_neq CR x) by congruence. rewrite !andb_false_r.
  rewrite (indexOf_cons LF).
  change (Buf.startsWith headerEnd (LF :: x :: t)) with false.
  destruct (Buf.indexOf (x :: t) headerEnd <? 0) eqn:E; [apply Z.ltb_lt in E; lia|].
  destruct (Buf.indexOf (x :: t) headerEnd + 1 <? 0) eqn:E'; [apply Z.ltb_lt in E'; lia|].
  lia.
Qed.

(** From the CRLF that ends a line, the delimiter is found at the end of
    the header lines that follow, provided none of them is empty or
    holds a CR. *)
Lemma indexOf_header_lines (hs : list bytes) (rest : bytes) :
  Forall (fun h => ~ In CR h /\ h <> []) hs ->
  Buf.indexOf (CRLF ++ List.concat (map (fun h => h ++ CRLF) hs) ++ CRLF ++ rest) headerEnd
  = blen (List.concat (map (fun h => h ++ CRLF) hs)).
Proof.
  induction 1 as [|h hs [Hcr Hne] _ IH]; [reflexivity|].
  cbn [map List.concat]. destruct h as [|x h]; [congruence|].
  set (S' := CRLF ++ List.concat (map (fun h0 => h0 ++ CRLF) hs) ++ CRLF ++ rest) in *.
  pose proof (blen_nonneg (List.concat (map (fun h0 => h0 ++ CRLF) hs))) as Hc.
  replace (CRLF ++ (((x :: h) ++ CRLF) ++ List.concat (map (fun h0 => h0 ++ CRLF) hs))
             ++ CRLF ++ rest)
    with (CRLF ++ x :: (h ++ S'))
    by (unfold S'; cbn [app]; now rewrite <- !app_assoc).
  assert (HT : Buf.indexOf (x :: h ++ S') headerEnd
               = blen (x :: h) + blen (List.concat (map (fun h0 => h0 ++ CRLF) hs))).
  { change (x :: h ++ S') with ((x :: h) ++ S').
    rewrite indexOf_skip_CRfree; [now rewrite IH|exact Hcr|rewrite IH; lia]. }
  pose proof (blen_nonneg (x :: h)).
  rewrite indexOf_after_CRLF.
  - rewrite HT. unfold blen. cbn [app List.length].
    rewrite !length_app. change (List.length CRLF) with 2%nat. lia.
  - intros ->. apply Hcr. now left.
  - rewrite HT. lia.
Qed.

Lemma indexOf_headerBlock (m u v : bytes) (hs : list bytes) (rest : bytes) :
  ~ In CR (m ++ SP :: u ++ SP :: v) ->
  Forall (fun h => ~ In CR h /\ h <> []) hs ->
  Buf.indexOf (headerBlock m u v hs ++ rest) headerEnd
  = blen (headerBlock m u v hs) - 4.
Proof.
  intros Hline Hhs. unfold headerBlock.
  set (line0 := m ++ SP :: u ++ SP :: v) in *.
  replace ((line0 ++ CRLF ++ List.concat (map (fun h => h ++ CRLF) hs) ++ CRLF) ++ rest)
    with (line0 ++ CRLF ++ List.concat (map (fun h => h ++ CRLF) hs) ++ CRLF ++ rest)
    by now rewrite <- !app_assoc.
  pose proof (blen_nonneg (List.concat (map (fun h => h ++ CRLF) hs))).
  rewrite indexOf_skip_CRfree; [|exact Hline|rewrite indexOf_header_lines by exact Hhs; lia].
  rewrite indexOf_header_lines by exact Hhs.
  rewrite !blen_app. change (blen CRLF) with 2. lia.
Qed.

Lemma cutMessage_block (b : DynBuf) (m u v : bytes) (hs : list bytes)
        (rest : bytes) :
  wf b ->
  window b = headerBlock m u v hs ++ rest ->
  ~ In SP m -> ~ In SP u ->
  ~ In CR m -> ~ In CR u -> ~ In CR v ->
  Forall (fun h => ~ In CR h /\ In COLON h) hs ->
  exists b',
    cutMessage b
    = (Ret (Some (mkReq m u (v ++ [CR]) (map (fun h => h ++ [CR]) hs))), b') /\
    wf b' /\ window b' = rest /\ capacity b' = capacity b.
Proof.
  intros Hwf Hwin Hm Hu Hmc Huc Hvc Hhs.
  assert (Hline : ~ In CR (m ++ SP :: u ++ SP :: v)).
  { intros Hin. apply in_app_or in Hin as [Hin|[Heq|Hin]];
      [now apply Hmc|discriminate|].
    apply in_app_or in Hin as [Hin|[Heq|Hin]]; [now apply Huc|discriminate|now apply Hvc]. }
  assert (Hhs' : Forall (fun h => ~ In CR h /\ h <> []) hs).
  { eapply Forall_impl; [|exact Hhs]. intros h [Hcr Hcolon].
    split; [exact Hcr|]. intros ->. exact Hcolon. }
  pose proof (indexOf_headerBlock m u v hs rest Hline Hhs') as Hidx.
  set (block := headerBlock m u v hs) in *.
  assert (Hblock : 4 <= blen block).
  { unfold block, headerBlock, blen. rewrite !length_app.
    change (List.length CRLF) with 2%nat. lia. }
  assert (Hfit : blen block <= length b).
  { rewrite <- (blen_window b Hwf), Hwin, blen_app.
    pose proof (blen_nonneg rest). lia. }
  destruct (bufPop_wf b (blen block) Hwf ltac:(lia)) as (Hwf' & _ & Hcap & Hwin').
  exists (bufPop b (blen block)).
  split; [|split; [exact Hwf'|split; [|exact Hcap]]].
  - unfold cutMessage. fold headerEnd. rewrite Hwin, Hidx.
    destruct (blen block - 4 <? 0) eqn:E; [apply Z.ltb_lt in E; lia|].
    replace (blen block - 4 + 4) with (blen block) by lia.
    rewrite firstn_window by (try assumption; lia).
    rewrite Hwin, firstn_blen_app. unfold block.
    now rewrite (parseHTTPReq_block m u v hs Hm Hu Hmc Huc Hvc Hhs).
  - rewrite Hwin', Hwin. apply skipn_blen_app.
Qed.

(** X9. The framer on a buffer that starts with a well-formed header
    block (a request line and header lines as above), whatever follows
    it and whatever the size of the block: it returns the parsed request and
    evicts exactly the block, so that the buffer holds what followed,
    in a store of the same capacity. *)
Theorem cutMessage_wellformed (b : DynBuf) (m u v : bytes) (hs : list bytes)
        (rest : bytes) :
  wf b ->
  window b = headerBlock m u v hs ++ rest ->
  ~ In SP m -> ~ In SP u ->
  ~ In CR m -> ~ In CR u -> ~ In CR v ->
  Forall (fun h => ~ In CR h /\ In COLON h) hs ->
  exists b',
    cutMessage b
    = (Ret (Some (mkReq m u (v ++ [CR]) (map (fun h => h ++ [CR]) hs))), b') /\
    wf b' /\ window b' = rest /\ capacity b' = capacity b.
Proof. apply cutMessage_block. Qed.

Lemma cutMessage_wellformed_witness :
  exists b',
    cutMessage (bufOf (headerBlock (B "GET") (B "/") (B "HTTP/1.1") [B "Host: a"]
                         ++ B "GET") 64)
    = (Ret (Some (mkReq (B "GET") (B "/") (B "HTTP/1.1" ++ [CR]) [B "Host: a" ++ [CR]])), b')
    /\ window b' = B "GET".
Proof.
  destruct (cutMessage_wellformed
              (bufOf (headerBlock (B "GET") (B "/") (B "HTTP/1.1") [B "Host: a"]
                        ++ B "GET") 64)
              (B "GET") (B "/") (B "HTTP/1.1") [B "Host: a"] (B "GET"))
    as (b' & Hcut & _ & Hwin & _).
  - unfold wf, capacity. vm_compute. split; discriminate.
  - vm_compute. reflexivity.
  - cbv; intuition discriminate.
  - cbv; intuition discriminate.
  - cbv; intuition discriminate.
  - cbv; intuition discriminate.
  - cbv; intuition discriminate.
  - repeat constructor; cbv; intuition discriminate.
  - exists b'. split; [exact Hcut|exact Hwin].
Defined.

(** ** Numbers written and read back *)

Lemma digit_facts (k : Z) :
  0 <= k < 10 ->
  let c := digitChar k in
  digitVal 10 c = Some k /\ isWS1 c = false /\
  Byte.eqb c xa0 = false /\ Byte.eqb c "-"%byte = false /\
  Byte.eqb c "+"%byte = false /\ Byte.eqb c "x"%byte = false /\
  Byte.eqb c "X"%byte = false /\ Byte.eqb c xc2 = false /\
  Byte.eqb c xe1 = false /\ Byte.eqb c xe2 = false /\
  Byte.eqb c xe3 = false /\ Byte.eqb c xef = false.
Proof.
  intros Hk.
  assert (H : k = 0 \/ k = 1 \/ k = 2 \/ k = 3 \/ k = 4 \/ k = 5 \/ k = 6 \/ k = 7
              \/ k = 8 \/ k = 9) by lia.
  repeat (destruct H as [->|H]; [vm_compute; repeat split|]).
  subst k. vm_compute. repeat split.
Qed.

Lemma digitsOf_app (f : nat) :
  forall radix n acc, digitsOf f radix n acc = digitsOf f radix n [] ++ acc.
Proof.
  induction f as [|f IH]; intros radix n acc; cbn [digitsOf]; [reflexivity|].
  destruct (n / radix =? 0); [reflexivity|].
  rewrite IH, (IH radix (n / radix) [_]). now rewrite <- app_assoc.
Qed.

Lemma digitsOf_digits (f : nat) :
  forall n acc, Forall isDigit acc -> Forall isDigit (digitsOf f 10 n acc).
Proof.
  induction f as [|f IH]; intros n acc Hacc; cbn [digitsOf]; [exact Hacc|].
  assert (Hd : Forall isDigit (digitChar (n mod 10) :: acc)).
  { constructor; [|exact Hacc]. exists (n mod 10). split; [|reflexivity].
    apply Z.mod_pos_bound. lia. }
  destruct (n / 10 =? 0); [exact Hd|now apply IH].
Qed.

Lemma digitsOf_nonempty (f : nat) (n : Z) : digitsOf (S f) 10 n [] <> [].
Proof.
  cbn [digitsOf]. destruct (n / 10 =? 0); [discriminate|].
  rewrite digitsOf_app. intros H. apply app_eq_nil in H as [_ H]. discriminate.
Qed.

(** Reading back the digits [digitsOf] wrote gives the number. *)
Lemma digitsOf_parse (f : nat) :
  forall n acc,
    (1 <= f)%nat -> 0 <= n < 2 ^ Z.of_nat f ->
    parseDigits 10 (digitsOf f 10 n acc) None = parseDigits 10 acc (Some n).
Proof.
  induction f as [|f IH]; intros n acc Hf Hn; [lia|].
  cbn [digitsOf].
  assert (Hmod : 0 <= n mod 10 < 10) by (apply Z.mod_pos_bound; lia).
  destruct (digit_facts (n mod 10) Hmod) as (Hval & _).
  pose proof (Z.div_mod n 10 ltac:(lia)) as Hdm.
  destruct (n / 10 =? 0) eqn:E.
  - apply Z.eqb_eq in E. cbn [parseDigits]. rewrite Hval.
    replace (n mod 10) with n by lia. reflexivity.
  - apply Z.eqb_neq in E.
    assert (Hq : 0 <= n / 10) by (apply Z.div_pos; lia).
    assert (Hlt : n / 10 < 2 ^ Z.of_nat f).
    { rewrite Nat2Z.inj_succ, Z.pow_succ_r in Hn by lia.
      apply Z.div_lt_upper_bound; [lia|].
      assert (0 < 2 ^ Z.of_nat f) by (apply Z.pow_pos_nonneg; lia). nia. }
    destruct f as [|f']; [cbn in Hlt; lia|].
    rewrite IH by lia. cbn [parseDigits]. rewrite Hval.
    f_equal. f_equal. lia.
Qed.

Lemma parseDigits_stops (rest : bytes) (n : Z) :
  stopsNumber rest -> parseDigits 10 rest (Some n) = Some n.
Proof.
  destruct rest as [|c r]; [reflexivity|]. intros (Hc & _).
  cbn [parseDigits]. now rewrite Hc.
Qed.

Lemma second_byte_not_x (ds rest : bytes) :
  Forall isDigit ds -> stopsNumber rest ->
  match ds ++ rest with
  | cx :: _ => Byte.eqb cx "x"%byte || Byte.eqb cx "X"%byte = false
  | [] => True
  end.
Proof.
  intros Hds Hrest. destruct ds as [|d ds]; cbn [app].
  - destruct rest as [|c r]; [exact I|]. destruct Hrest as (_ & Hx & HX).
    now rewrite (eqb_neq c _ Hx), (eqb_neq c _ HX).
  - inversion Hds as [|? ? (k & Hk & ->) _]; subst.
    destruct (digit_facts k Hk) as (_ & _ & _ & _ & _ & Hx & HX & _).
    cbv zeta in Hx, HX. now rewrite Hx, HX.
Qed.

(** [parseInt] on a text that starts with decimal digits: no white space
    to skip, no sign, no hexadecimal prefix. *)
Lemma parseDec_digits (c : byte) (ds rest : bytes) :
  isDigit c -> Forall isDigit ds -> stopsNumber rest ->
  let s := (c :: ds) ++ rest in
  parseDec s = parseDigits 10 s None /\
  parseDec_utf8 s = parseDigits 10 s None.
Proof.
  intros (k & Hk & ->) Hds Hrest s.
  destruct (digit_facts k Hk)
    as (Hval & Hws & Ha0 & Hminus & Hplus & _ & _ & Hc2 & He1 & He2 & He3 & Hef).
  cbv zeta in *.
  pose proof (second_byte_not_x ds rest Hds Hrest) as Hsecond.
  assert (Hbody : parseIntBody s = parseDigits 10 s None).
  { unfold parseIntBody, s. cbn [app]. rewrite Hminus, Hplus.
    destruct (ds ++ rest) as [|cx r] eqn:E.
    - cbn [parseDigits]. rewrite Hval. cbn [parseDigits]. f_equal. lia.
    - rewrite Hsecond, andb_false_r.
      destruct (parseDigits 10 (digitChar k :: cx :: r) None) as [v|];
        [f_equal; lia|reflexivity]. }
  split.
  - unfold parseDec, s. cbn [app skipWS_latin1]. rewrite Hws, Ha0. cbn [orb].
    exact Hbody.
  - unfold parseDec_utf8. replace (skipWS_utf8 s) with s; [exact Hbody|].
    unfold s. cbn [app skipWS_utf8]. rewrite Hws.
    destruct (ds ++ rest) as [|c2 r2]; [reflexivity|].
    rewrite Hc2. cbn [andb].
    destruct r2 as [|c3 r3]; [reflexivity|].
    rewrite He1, He2, He3, Hef. reflexivity.
Qed.

Lemma parseDec_numToString_aux (n : Z) (rest : bytes) :
  0 <= n -> stopsNumber rest ->
  parseDec (numToString 10 n ++ rest) = Some n /\
  parseDec_utf8 (numToString 10 n ++ rest) = Some n.
Proof.
  intros Hn Hrest. unfold numToString.
  destruct (n <? 0) eqn:E; [apply Z.ltb_lt in E; lia|].
  set (f := S (Z.to_nat (Z.log2 n))).
  assert (Hbound : 0 <= n < 2 ^ Z.of_nat f).
  { split; [exact Hn|]. unfold f.
    rewrite Nat2Z.inj_succ, Z2Nat.id by apply Z.log2_nonneg.
    destruct (Z.eq_dec n 0) as [->|Hnz]; [cbn; lia|].
    apply Z.log2_spec. lia. }
  pose proof (digitsOf_digits f n [] (Forall_nil _)) as Hdigits.
  pose proof (digitsOf_nonempty (Z.to_nat (Z.log2 n)) n) as Hne. fold f in Hne.
  assert (Hparse : parseDigits 10 (digitsOf f 10 n [] ++ rest) None = Some n).
  { rewrite <- digitsOf_app, digitsOf_parse by (first [exact Hbound | unfold f; lia]).
    now apply parseDigits_stops. }
  destruct (digitsOf f 10 n []) as [|c ds]; [congruence|].
  inversion Hdigits as [|? ? Hc Hds]; subst.
  destruct (parseDec_digits c ds rest Hc Hds Hrest) as [H1 H2].
  cbv zeta in H1, H2. now rewrite H1, H2, Hparse.
Qed.



(** ** From the header block to the body reader *)

Lemma fieldOf_CR (kv : bytes * bytes) :
  fieldOf kv ++ [CR] = fieldOf (fst kv, snd kv ++ [CR]).
Proof. unfold fieldOf. cbn [fst snd]. now rewrite <- !app_assoc. Qed.

Lemma find_value_map (f : bytes -> bool) (g : bytes -> bytes)
      (kvs : list (bytes * bytes)) :
  find (fun kv => f (fst kv)) (map (fun kv => (fst kv, g (snd kv))) kvs)
  = option_map (fun kv => (fst kv, g (snd kv))) (find (fun kv => f (fst kv)) kvs).
Proof.
  induction kvs as [|[k v] kvs IH]; [reflexivity|].
  cbn [map find fst snd]. destruct (f k); [reflexivity|exact IH].
Qed.

(** Looking a field up in the headers of a parsed request: the value
    comes with the CR of its line. *)
Lemma fieldGet_parsed (kvs : list (bytes * bytes)) (key : bytes) :
  Forall (fun kv => ~ In COLON (fst kv)) kvs ->
  fieldGet (map (fun h => h ++ [CR]) (map fieldOf kvs)) key
  = option_map (fun kv => snd kv ++ [CR])
               (find (fun kv => equals (fst kv) key) kvs).
Proof.
  intros Hall.
  rewrite map_map.
  rewrite (map_ext _ (fun kv => fieldOf (fst kv, snd kv ++ [CR])))
    by (intros kv; apply fieldOf_CR).
  rewrite <- (map_map (fun kv => (fst kv, snd kv ++ [CR])) fieldOf).
  rewrite fieldGet_map.
  - rewrite (find_value_map (fun k => equals k key) (fun v => v ++ [CR])).
    destruct (find _ kvs) as [[k v]|]; reflexivity.
  - apply Forall_map. eapply Forall_impl; [|exact Hall]. now intros [k v].
Qed.

Lemma goodFields_lines (kvs : list (bytes * bytes)) :
  goodFields kvs ->
  Forall (fun h => ~ In CR h /\ In COLON h) (map fieldOf kvs).
Proof.
  intros Hall. apply Forall_map. eapply Forall_impl; [|exact Hall].
  intros [k v] [_ Hcr]. split; [exact Hcr|].
  unfold fieldOf. cbn [fst snd]. apply in_or_app. right. now left.
Qed.

Lemma goodFields_names (kvs : list (bytes * bytes)) :
  goodFields kvs -> Forall (fun kv => ~ In COLON (fst kv)) kvs.
Proof. intros Hall. eapply Forall_impl; [|exact Hall]. now intros kv [H _]. Qed.

Lemma CR_stops : stopsNumber [CR].
Proof. cbv. intuition discriminate. Qed.

(** The body length [readerFromReq] reads off a parsed request. *)
Lemma bodyLenOf_parsed (m u v : bytes) (kvs : list (bytes * bytes)) :
  goodFields kvs ->
  (forall k n, find isContentLength kvs = Some (k, numToString 10 n) -> 0 <= n ->
               bodyLenOf (headers (parsedReq m u v kvs)) = Some n) /\
  (find isContentLength kvs = None ->
   bodyLenOf (headers (parsedReq m u v kvs)) = Some (-1)).
Proof.
  intros Hgood. unfold bodyLenOf, parsedReq. cbn [headers].
  rewrite (fieldGet_parsed kvs _ (goodFields_names kvs Hgood)).
  fold isContentLength. split.
  - intros k n -> Hn. cbn [option_map snd].
    apply (parseDec_numToString_aux n [CR] Hn CR_stops).
  - intros ->. reflexivity.
Qed.

Lemma readerFromReq_parsed (m u v : bytes) (kvs : list (bytes * bytes)) (w : World) :
  ~ In SP m -> ~ In SP u ->
  ~ In CR m -> ~ In CR u -> ~ In CR v ->
  goodFields kvs ->
  equals m (B "GET") || equals m (B "HEAD") = false ->
  parseHTTPReq (headerBlock m u v (map fieldOf kvs)) = Ret (parsedReq m u v kvs) /\
  (forall k n, find isContentLength kvs = Some (k, numToString 10 n) -> 0 <= n ->
     readerFromReq (parsedReq m u v kvs) w
     = (Ret (List.length (heap w)),
        mkWorld (conn w) (written w) (heap w ++ [readerFromConnLength n]))) /\
  (find isContentLength kvs = None ->
     readerFromReq (parsedReq m u v kvs) w
     = (Ret (List.length (heap w)),
        mkWorld (conn w) (written w) (heap w ++ [readerFromConnEOF]))).
Proof.
  intros Hm Hu Hmc Huc Hvc Hgood Hmethod.
  assert (Hparse : parseHTTPReq (headerBlock m u v (map fieldOf kvs))
                   = Ret (parsedReq m u v kvs)).
  { apply parseHTTPReq_block; try assumption. now apply goodFields_lines. }
  pose proof (parsed_never_chunked _ _ Hparse) as Hflag.
  destruct (bodyLenOf_parsed m u v kvs Hgood) as [Hlen Hnone].
  split; [exact Hparse|]. split.
  - intros k n Hfind Hn. rewrite readerFromReq_unfold, (Hlen k n Hfind Hn), Hflag.
    cbv zeta. cbn [method parsedReq]. rewrite Hmethod. cbn [andb].
    apply Z.leb_le in Hn. now rewrite Hn.
  - intros Hfind. rewrite readerFromReq_unfold, (Hnone Hfind), Hflag.
    cbv zeta. cbn [method parsedReq]. rewrite Hmethod. reflexivity.
Qed.



(** ** The fixed-length reader over a stream of deliveries *)

Lemma connLength_fetch (fuel : nat) (remain : Z) (c : Conn)
      (d : bytes) (rest : list bytes) (b1 : DynBuf) :
  0 < remain -> length (buf c) = 0 -> incoming c = d :: rest -> d <> [] ->
  bufPush (buf c) d = (None, b1) -> length b1 = blen d ->
  readState fuel (ConnLength remain) c
  = readState fuel (ConnLength remain) (mkConn rest (S (reads c)) b1).
Proof.
  intros Hr Hl Hin Hd Hpush Hlen. unfold readState.
  destruct (remain =? 0) eqn:E0; [apply Z.eqb_eq in E0; lia|].
  rewrite (fetchBody_fetch c d rest b1 Hl Hin Hd Hpush).
  apply bytes_nonempty in Hd.
  rewrite fetchBody_buffered by (cbn [buf]; lia).
  reflexivity.
Qed.

Lemma connLength_buffered (fuel : nat) (remain : Z) (c : Conn) :
  wf (buf c) -> 0 < remain -> 0 < length (buf c) -> liveStream (incoming c) ->
  exists d c',
    readState fuel (ConnLength remain) c = (Ret d, ConnLength (remain - blen d), c') /\
    d <> [] /\ blen d <= remain /\
    wf (buf c') /\ liveStream (incoming c') /\
    pending c = d ++ pending c' /\
    deliveriesSeen c' = deliveriesSeen c /\ (reads c <= reads c')%nat.
Proof.
  intros Hwf Hr Hl Hlive.
  set (n := Z.min remain (length (buf c))).
  assert (Hn : 0 < n <= length (buf c)) by (unfold n; lia).
  destruct (bufPop_wf (buf c) n Hwf ltac:(lia)) as (Hwf' & _ & _ & Hwin).
  pose proof (blen_window (buf c) Hwf) as Hbw.
  assert (Hd : blen (firstn (Z.to_nat n) (window (buf c))) = n)
    by (apply blen_firstn; lia).
  exists (firstn (Z.to_nat n) (window (buf c))), (setBuf (bufPop (buf c) n) c).
  rewrite Hd. split; [apply connLength_consume; assumption|].
  split; [apply bytes_nonempty; lia|].
  split; [unfold n; lia|].
  split; [exact Hwf'|]. split; [exact Hlive|].
  split; [|split; [reflexivity|apply Nat.le_refl]].
  unfold pending. cbn [buf incoming setBuf]. rewrite Hwin.
  now rewrite app_assoc, firstn_skipn.
Qed.

(** One [read()] with bytes still to come: it returns a non-empty piece
    of the stream, no more than what remains of the body. *)
Lemma connLength_step (fuel : nat) (remain : Z) (c : Conn) :
  wf (buf c) -> 0 < remain -> liveStream (incoming c) -> pending c <> [] ->
  exists d c',
    readState fuel (ConnLength remain) c = (Ret d, ConnLength (remain - blen d), c') /\
    d <> [] /\ blen d <= remain /\
    wf (buf c') /\ liveStream (incoming c') /\
    pending c = d ++ pending c' /\
    deliveriesSeen c' = deliveriesSeen c /\ (reads c <= reads c')%nat.
Proof.
  intros Hwf Hr Hlive Hpend.
  destruct (Z.eq_dec (length (buf c)) 0) as [H0|H0].
  - pose proof (window_empty (buf c) Hwf H0) as Hwin.
    destruct (incoming c) as [|d0 rest] eqn:Hin.
    { exfalso. apply Hpend. unfold pending. now rewrite Hwin, Hin. }
    pose proof (Forall_inv Hlive) as Hd0. cbv beta in Hd0.
    pose proof (Forall_inv_tail Hlive) as Hrest.
    destruct (bufPush_wf (buf c) d0 Hwf) as (b1 & Hpush & Hwf1 & Hlen1 & Hwin1 & _).
    rewrite Hwin in Hwin1. cbn [app] in Hwin1.
    assert (Hb1 : length b1 = blen d0) by lia.
    pose proof (proj1 (bytes_nonempty d0) Hd0) as Hpos.
    destruct (connLength_buffered fuel remain (mkConn rest (S (reads c)) b1))
      as (d & c' & Hread & Hne & Hle & Hwf' & Hlive' & Hp & Hseen & Hreads);
      cbn [buf incoming]; try assumption; try lia.
    exists d, c'.
    rewrite (connLength_fetch fuel remain c d0 rest b1 Hr H0 Hin Hd0 Hpush Hb1).
    split; [exact Hread|]. split; [exact Hne|]. split; [exact Hle|].
    split; [exact Hwf'|]. split; [exact Hlive'|]. split.
    + rewrite <- Hp. unfold pending. cbn [buf incoming].
      now rewrite Hwin, Hin, Hwin1.
    + split.
      * rewrite Hseen. unfold deliveriesSeen. rewrite Hin.
        cbn [reads incoming List.length]. lia.
      * cbn [reads] in Hreads. lia.
  - apply connLength_buffered; try assumption.
    destruct Hwf as [Hl _]. lia.
Qed.

(** One [read()] when the stream has ended before the body has. *)
Lemma connLength_eof (fuel : nat) (remain : Z) (c : Conn) :
  wf (buf c) -> 0 < remain -> liveStream (incoming c) -> pending c = [] ->
  exists c',
    readState fuel (ConnLength remain) c
    = (Throw (Error "Unexpected EOF from HTTP body"), ConnLength remain, c').
Proof.
  intros Hwf Hr Hlive Hpend. unfold pending in Hpend.
  apply app_eq_nil in Hpend as [Hwin Hinc].
  assert (Hl : length (buf c) = 0).
  { rewrite <- (blen_window (buf c) Hwf), Hwin. reflexivity. }
  assert (Hin : incoming c = []).
  { destruct (incoming c) as [|d0 rest]; [reflexivity|].
    pose proof (Forall_inv Hlive) as Hd0. cbv beta in Hd0.
    cbn [List.concat] in Hinc. apply app_eq_nil in Hinc as [Hd _]. contradiction. }
  destruct (bufPush_wf (buf c) [] Hwf) as (b1 & Hpush & _).
  destruct (fetchBody_eof c b1 Hl (or_introl Hin) Hpush) as (c' & Hfetch & _).
  exists c'. unfold readState.
  destruct (remain =? 0) eqn:E0; [apply Z.eqb_eq in E0; lia|].
  now rewrite Hfetch.
Qed.

Lemma read_connLength (fuel ref : nat) (w : World) (len0 remain : Z)
      (o : Outcome bytes) (st : ReaderState) (c' : Conn) :
  nth_error (heap w) ref = Some (mkReader len0 (ConnLength remain)) ->
  readState fuel (ConnLength remain) (conn w) = (o, st, c') ->
  read fuel ref w
  = (o, mkWorld c' (written w) (setNth (heap w) ref (mkReader len0 st))).
Proof.
  intros Hnth Hst. unfold read. rewrite Hnth. cbn [rstate rlength].
  now rewrite Hst.
Qed.

Lemma firstn_past (n : Z) (d p : bytes) :
  blen d <= n ->
  firstn (Z.to_nat n) (d ++ p) = d ++ firstn (Z.to_nat (n - blen d)) p /\
  skipn (Z.to_nat n) (d ++ p) = skipn (Z.to_nat (n - blen d)) p.
Proof.
  intros Hle. unfold blen in *.
  assert (E : Z.to_nat n = (List.length d + Z.to_nat (n - Z.of_nat (List.length d)))%nat)
    by lia.
  rewrite E at 1 2. split.
  - now rewrite firstn_app_2.
  - rewrite skipn_app. rewrite skipn_all2 by lia.
    cbn [app]. f_equal. lia.
Qed.

(** Reading a fixed-length body to its end, when the stream holds all of
    it. *)
Lemma readAll_connLength (ref : nat) (len0 : Z) :
  forall (fuel : nat) (w : World) (remain : Z),
    nth_error (heap w) ref = Some (mkReader len0 (ConnLength remain)) ->
    wf (buf (conn w)) -> liveStream (incoming (conn w)) ->
    0 <= remain <= blen (pending (conn w)) ->
    (Z.to_nat remain < fuel)%nat ->
    exists cs c',
      readAll fuel ref w
      = (Ret cs, mkWorld c' (written w)
                         (setNth (heap w) ref (mkReader len0 (ConnLength 0)))) /\
      List.concat cs = firstn (Z.to_nat remain) (pending (conn w)) /\
      pending c' = skipn (Z.to_nat remain) (pending (conn w)) /\
      wf (buf c') /\ liveStream (incoming c') /\
      deliveriesSeen c' = deliveriesSeen (conn w) /\
      (reads (conn w) <= reads c')%nat.
Proof.
  induction fuel as [|f IH]; intros w remain Hnth Hwf Hlive Hrem Hfuel; [lia|].
  cbn [readAll].
  destruct (Z.eq_dec remain 0) as [->|Hpos].
  - exists [], (conn w).
    erewrite bind_Ret.
    2:{ apply (read_connLength f ref w len0 0 (Ret []) (ConnLength 0) (conn w) Hnth).
        reflexivity. }
    cbn [blen List.length Z.of_nat Z.eqb].
    split; [reflexivity|]. split; [reflexivity|]. split; [reflexivity|].
    split; [exact Hwf|]. split; [exact Hlive|]. split; [reflexivity|apply Nat.le_refl].
  - assert (Hpend : pending (conn w) <> []).
    { intros E. rewrite E in Hrem. cbn in Hrem. lia. }
    destruct (connLength_step f remain (conn w) Hwf ltac:(lia) Hlive Hpend)
      as (d & c1 & Hread & Hne & Hle & Hwf1 & Hlive1 & Hp & Hseen & Hreads).
    pose proof (proj1 (bytes_nonempty d) Hne) as Hd.
    set (w1 := mkWorld c1 (written w)
                       (setNth (heap w) ref (mkReader len0 (ConnLength (remain - blen d))))).
    destruct (IH w1 (remain - blen d))
      as (cs & c' & Hall & Hcat & Hrest & Hwf' & Hlive' & Hseen' & Hreads').
    { unfold w1. cbn [heap]. eapply nth_error_setNth, Hnth. }
    { exact Hwf1. }
    { exact Hlive1. }
    { unfold w1. cbn [conn]. rewrite Hp, blen_app in Hrem. lia. }
    { lia. }
    exists (d :: cs), c'.
    erewrite bind_Ret.
    2:{ apply (read_connLength f ref w len0 remain _ _ _ Hnth Hread). }
    destruct (blen d =? 0) eqn:E; [apply Z.eqb_eq in E; lia|].
    fold w1. erewrite bind_Ret by exact Hall.
    unfold w1 at 1 2. cbn [written heap conn]. rewrite setNth_setNth.
    unfold w1 in Hrest, Hcat, Hseen', Hreads'. cbn [conn] in Hrest, Hcat, Hseen', Hreads'.
    destruct (firstn_past remain d (pending c1) Hle) as [Hf Hs].
    split; [reflexivity|].
    split; [cbn [List.concat]; rewrite Hcat, Hp; symmetry; exact Hf|].
    split; [rewrite Hrest, Hp; symmetry; exact Hs|].
    split; [exact Hwf'|]. split; [exact Hlive'|].
    split; [now rewrite Hseen'|lia].
Qed.

(** Reading a fixed-length body when the stream ends before the body
    does. *)
Lemma readAll_connLength_short (ref : nat) (len0 : Z) :
  forall (fuel : nat) (w : World) (remain : Z),
    nth_error (heap w) ref = Some (mkReader len0 (ConnLength remain)) ->
    wf (buf (conn w)) -> liveStream (incoming (conn w)) ->
    blen (pending (conn w)) < remain ->
    (Z.to_nat remain <= fuel)%nat ->
    exists w',
      readAll fuel ref w = (Throw (Error "Unexpected EOF from HTTP body"), w') /\
      written w' = written w.
Proof.
  induction fuel as [|f IH]; intros w remain Hnth Hwf Hlive Hrem Hfuel.
  { pose proof (blen_nonneg (pending (conn w))). lia. }
  pose proof (blen_nonneg (pending (conn w))) as Hnn.
  cbn [readAll].
  destruct (pending (conn w)) as [|x p] eqn:Hpend.
  - destruct (connLength_eof f remain (conn w) Hwf ltac:(lia) Hlive Hpend)
      as (c' & Hread).
    eexists. split.
    + eapply bind_Throw.
      apply (read_connLength f ref w len0 remain _ _ _ Hnth Hread).
    + reflexivity.
  - assert (Hpend' : pending (conn w) <> []) by (rewrite Hpend; discriminate).
    destruct (connLength_step f remain (conn w) Hwf ltac:(lia) Hlive Hpend')
      as (d & c1 & Hread & Hne & Hle & Hwf1 & Hlive1 & Hp & Hseen).
    pose proof (proj1 (bytes_nonempty d) Hne) as Hd.
    set (w1 := mkWorld c1 (written w)
                       (setNth (heap w) ref (mkReader len0 (ConnLength (remain - blen d))))).
    destruct (IH w1 (remain - blen d)) as (w' & Hall & Hout).
    { unfold w1. cbn [heap]. eapply nth_error_setNth, Hnth. }
    { exact Hwf1. }
    { exact Hlive1. }
    { unfold w1. cbn [conn]. rewrite <- Hpend, Hp, blen_app in Hrem. lia. }
    { lia. }
    exists w'.
    erewrite bind_Ret.
    2:{ apply (read_connLength f ref w len0 remain _ _ _ Hnth Hread). }
    destruct (blen d =? 0) eqn:E; [apply Z.eqb_eq in E; lia|].
    fold w1. split; [|exact Hout].
    eapply bind_Throw. exact Hall.
Qed.

Lemma readAll_nonempty (ref : nat) :
  forall (fuel : nat) (w w' : World) (cs : list bytes),
    readAll fuel ref w = (Ret cs, w') -> Forall (fun c => c <> []) cs.
Proof.
  induction fuel as [|f IH]; intros w w' cs Hall; [discriminate|].
  cbn [readAll] in Hall. unfold bind in Hall.
  destruct (read f ref w) as [[d|e|] w1]; try discriminate.
  destruct (blen d =? 0) eqn:E.
  - injection Hall as <- _. constructor.
  - destruct (readAll f ref w1) as [[ds|e|] w2] eqn:E2; try discriminate.
    injection Hall as <- _. constructor.
    + intros ->. discriminate.
    + eapply IH. exact E2.
Qed.

(** X12. A fixed-length reader with [remain] bytes to go, read to its
    end over any split of the stream into non-empty deliveries.  When
    the buffered bytes and the deliveries hold at least [remain] bytes,
    the non-empty chunks it returns concatenate to exactly the first
    [remain] bytes of the stream, the rest of the stream stays buffered
    or unread for the next request, nothing is written, and every read
    of the socket has taken one delivery.  When the stream ends before
    that, reading fails with "Unexpected EOF from HTTP body". *)
Theorem fixed_length_body_any_split
        (ref : nat) (len0 : Z) (fuel : nat) (w : World) (remain : Z) :
  nth_error (heap w) ref = Some (mkReader len0 (ConnLength remain)) ->
  wf (buf (conn w)) -> liveStream (incoming (conn w)) ->
  0 <= remain -> (Z.to_nat remain < fuel)%nat ->
  (remain <= blen (pending (conn w)) ->
   exists cs w',
     readAll fuel ref w = (Ret cs, w') /\
     List.concat cs = firstn (Z.to_nat remain) (pending (conn w)) /\
     pending (conn w') = skipn (Z.to_nat remain) (pending (conn w)) /\
     Forall (fun c => c <> []) cs /\
     written w' = written w /\
     deliveriesSeen (conn w') = deliveriesSeen (conn w)) /\
  (blen (pending (conn w)) < remain ->
   exists w',
     readAll fuel ref w = (Throw (Error "Unexpected EOF from HTTP body"), w') /\
     written w' = written w).
Proof.
  intros Hnth Hwf Hlive Hrem Hfuel. split.
  - intros Hle.
    destruct (readAll_connLength ref len0 fuel w remain Hnth Hwf Hlive
                                 (conj Hrem Hle) Hfuel)
      as (cs & c' & Hall & Hcat & Hrest & _ & _ & Hseen & _).
    eexists cs, _. split; [exact Hall|]. cbn [conn written].
    split; [exact Hcat|]. split; [exact Hrest|].
    split; [|split; [reflexivity|exact Hseen]].
    eapply readAll_nonempty, Hall.
  - intros Hlt. apply (readAll_connLength_short ref len0 fuel w remain); try assumption.
    lia.
Qed.

Lemma fixed_length_body_any_split_witness :
  exists cs w',
    readAll 9 0 (mkWorld (mkConn [B "lo, "; B "world"] 1 (bufOf (B "hel") 32)) []
                         [readerFromConnLength 8]) = (Ret cs, w') /\
    List.concat cs = B "hello, w" /\
    pending (conn w') = B "orld".
Proof.
  destruct (fixed_length_body_any_split 0 8 9
              (mkWorld (mkConn [B "lo, "; B "world"] 1 (bufOf (B "hel") 32)) []
                       [readerFromConnLength 8]) 8) as [H _].
  - reflexivity.
  - unfold wf, capacity. vm_compute. split; discriminate.
  - repeat constructor; discriminate.
  - lia.
  - lia.
  - destruct H as (cs & w' & Hall & Hcat & Hrest & _).
    + cbv. discriminate.
    + exists cs, w'. split; [exact Hall|]. split; [exact Hcat|exact Hrest].
Defined.

(** ** One request for [/echo], served *)

(** One turn of the server loop when the buffer starts with a whole
    header. *)
Lemma serveLoop_request (f : nat) (c : Conn) (out : list bytes)
      (h : list BodyReader) (req : HTTPReq) (b2 : DynBuf) :
  cutMessage (buf c) = (Ret (Some req), b2) ->
  serveLoop (S f) (mkWorld c out h)
  = (reqBody <- readerFromReq req ;;
     res <- handleReq req reqBody ;;
     writeHTTPResp f res ;;
     if equals (version req) (B "1.0") then ret tt
     else drain f reqBody ;; serveLoop f) (mkWorld (setBuf b2 c) out h).
Proof.
  intros Hcut. cbn [serveLoop].
  erewrite bind_Ret.
  2:{ apply liftC_mk. unfold cutMessageM. rewrite Hcut. reflexivity. }
  reflexivity.
Qed.

(** Draining a body that has been read to its end reads nothing. *)
Lemma drain_done (f ref : nat) (w : World) (len0 : Z) :
  nth_error (heap w) ref = Some (mkReader len0 (ConnLength 0)) ->
  drain (S f) ref w
  = (Ret tt, mkWorld (conn w) (written w)
                     (setNth (heap w) ref (mkReader len0 (ConnLength 0)))).
Proof.
  intros Hnth. cbn [drain].
  erewrite bind_Ret.
  2:{ apply (read_connLength f ref w len0 0 (Ret []) (ConnLength 0) (conn w) Hnth).
      reflexivity. }
  reflexivity.
Qed.

Lemma headerBlock_nonempty (m u v : bytes) (hs : list bytes) (d : bytes) :
  blen (headerBlock m u v hs ++ d) <> 0.
Proof.
  unfold headerBlock, blen. rewrite !length_app.
  change (List.length CRLF) with 2%nat. lia.
Qed.

Lemma no_headerEnd_in_nil : ~ occurs headerEnd [].
Proof.
  intros (pre & post & H). destruct pre; discriminate.
Qed.

Lemma pending_nil (c : Conn) :
  liveStream (incoming c) -> pending c = [] ->
  window (buf c) = [] /\ incoming c = [].
Proof.
  intros Hlive Hp. unfold pending in Hp. apply app_eq_nil in Hp as [Hw Hc].
  split; [exact Hw|].
  destruct (incoming c) as [|d rest]; [reflexivity|].
  pose proof (Forall_inv Hlive) as Hd. cbv beta in Hd.
  cbn [List.concat] in Hc. apply app_eq_nil in Hc as [Hd' _]. contradiction.
Qed.

Lemma echoHead_encode (n : Z) :
  encodeHTTPResp 200 ([B "Server: my_first_http_server"]
                        ++ [B "Content-Length: " ++ numToString 10 n])
  = Ret (echoHead n).
Proof.
  rewrite (encodeHTTPResp_known 200 (B "OK")) by reflexivity.
  unfold echoHead. f_equal.
  change (numToString 10 200) with (B "200").
  cbn [map List.concat app]. rewrite app_nil_r, <- !app_assoc. reflexivity.
Qed.

Lemma serveClient_echo
      (m v : bytes) (kvs : list (bytes * bytes)) (k0 d0 : bytes)
      (ds : list bytes) (fuel : nat) :
  ~ In SP m -> ~ In CR m -> ~ In CR v -> goodFields kvs ->
  equals m (B "GET") || equals m (B "HEAD") = false ->
  liveStream ds ->
  find isContentLength kvs
  = Some (k0, numToString 10 (blen (d0 ++ List.concat ds))) ->
  (Z.to_nat (blen (d0 ++ List.concat ds)) + 3 <= fuel)%nat ->
  exists cs w',
    serveClient fuel
      (connOf ((headerBlock m (B "/echo") v (map fieldOf kvs) ++ d0) :: ds))
    = (Ret tt, w') /\
    written w' = echoHead (blen (d0 ++ List.concat ds)) :: cs /\
    List.concat cs = d0 ++ List.concat ds /\
    Forall (fun c => c <> []) cs /\
    reads (conn w') = (2 + List.length ds)%nat.
Proof.
  intros Hm Hmc Hvc Hgood Hmethod Hlive Hfind Hfuel.
  set (body := d0 ++ List.concat ds) in *.
  set (n := blen body) in *.
  set (block := headerBlock m (B "/echo") v (map fieldOf kvs)).
  set (req := parsedReq m (B "/echo") v kvs).
  assert (Hu : ~ In SP (B "/echo")) by (cbv; intuition discriminate).
  assert (Huc : ~ In CR (B "/echo")) by (cbv; intuition discriminate).
  destruct fuel as [|[|f]]; try lia.
  assert (Hf : (Z.to_nat n < f)%nat) by lia.
  assert (Hwf0 : wf emptyBuf) by (unfold wf, capacity; cbn; lia).
  (* first turn: nothing buffered, the first delivery is read *)
  destruct (bufPush_wf emptyBuf (block ++ d0) Hwf0)
    as (b1 & Hpush & Hwf1 & _ & Hwin1 & _).
  change (window emptyBuf) with (@nil byte) in Hwin1. cbn [app] in Hwin1.
  change (serveClient (S (S f)) (connOf ((block ++ d0) :: ds)))
    with (serveLoop (S (S f)) (mkWorld (mkConn ((block ++ d0) :: ds) 0 emptyBuf) [] [])).
  rewrite (serveLoop_no_header (S f) (mkConn ((block ++ d0) :: ds) 0 emptyBuf)
                               [] [] (block ++ d0) ds b1).
  2:{ cbn [buf]. apply cutMessage_none; [exact no_headerEnd_in_nil|reflexivity]. }
  2:{ left. reflexivity. }
  2:{ exact Hpush. }
  cbv zeta.
  destruct (blen (block ++ d0) =? 0) eqn:E0;
    [apply Z.eqb_eq in E0; now apply headerBlock_nonempty in E0|].
  cbn [andb reads]. clear E0.
  (* second turn: the header is cut off and parsed *)
  destruct (cutMessage_block b1 m (B "/echo") v (map fieldOf kvs) d0
                             Hwf1 Hwin1 Hm Hu Hmc Huc Hvc
                             (goodFields_lines kvs Hgood))
    as (b2 & Hcut & Hwf2 & Hwin2 & _).
  fold (parsedReq m (B "/echo") v kvs) in Hcut. fold req in Hcut.
  rewrite (serveLoop_request f (mkConn ds 1 b1) [] [] req b2 Hcut).
  unfold setBuf. cbn [incoming reads].
  set (w2 := mkWorld (mkConn ds 1 b2) [] []).
  destruct (readerFromReq_parsed m (B "/echo") v kvs w2 Hm Hu Hmc Huc Hvc Hgood Hmethod)
    as (Hparse & Hreader & _).
  fold req in Hparse, Hreader.
  assert (Hn : 0 <= n) by apply blen_nonneg.
  specialize (Hreader k0 n Hfind Hn).
  unfold w2 in Hreader at 2 3 4. cbn [heap conn written List.length app] in Hreader.
  erewrite bind_Ret by exact Hreader.
  set (w3 := mkWorld (mkConn ds 1 b2) [] [readerFromConnLength n]).
  (* the handler answers with the request body itself *)
  assert (Hhandle : handleReq req 0%nat w3
                    = (Ret (mkRes 200 [B "Server: my_first_http_server"] 0%nat), w3)).
  { unfold handleReq, req, parsedReq. cbn [uri]. rewrite equals_same. reflexivity. }
  erewrite bind_Ret by exact Hhandle.
  (* the body is read to its end and written *)
  assert (Hnth : nth_error (heap w3) 0 = Some (mkReader n (ConnLength n)))
    by reflexivity.
  assert (Hpend : pending (conn w3) = body).
  { unfold pending, w3. cbn [conn buf incoming]. now rewrite Hwin2. }
  destruct (readAll_connLength 0 n f w3 n Hnth Hwf2 Hlive)
    as (cs & c' & Hall & Hcat & Hrest & Hwf' & Hlive' & Hseen & _).
  { rewrite Hpend. fold n. lia. }
  { exact Hf. }
  rewrite Hpend in Hcat, Hrest.
  assert (Hnb : Z.to_nat n = List.length body) by (unfold n, blen; lia).
  rewrite Hnb, firstn_all in Hcat. rewrite Hnb, skipn_all in Hrest.
  destruct (pending_nil c' Hlive' Hrest) as [Hwin' Hin'].
  cbn [written heap setNth] in Hall.
  set (w4 := mkWorld c' [] [mkReader n (ConnLength 0)]) in Hall.
  destruct (writeHTTPResp_plain f (mkRes 200 [B "Server: my_first_http_server"] 0%nat)
              w3 w4 (mkReader n (ConnLength n)) (echoHead n) cs Hnth Hn)
    as [Hwrite Hne].
  { apply echoHead_encode. }
  { exact Hall. }
  erewrite bind_Ret by exact Hwrite.
  rewrite (parsed_version_never_1_0 _ req Hparse).
  (* the drain reads nothing; the next turn meets the end of the stream *)
  destruct f as [|f']; [lia|].
  erewrite bind_Ret.
  2:{ apply (drain_done f' 0 (setWritten (written w3 ++ [echoHead n] ++ cs) w4) n).
      reflexivity. }
  unfold setWritten, w4, w3. cbn [conn written heap setNth app].
  destruct c' as [inc' r' b']. cbn [buf incoming reads] in *. subst inc'.
  destruct (serveLoop_incomplete [] (S f') b' r' (echoHead n :: cs)
                                 [mkReader n (ConnLength 0)] Hwf' (Forall_nil _))
    as (b'' & Hwf'' & Hwin'' & Hloop).
  { rewrite Hwin'. exact no_headerEnd_in_nil. }
  { rewrite Hwin'. reflexivity. }
  { cbn [List.length]. lia. }
  rewrite Hloop.
  assert (Hl'' : length b'' = 0).
  { rewrite <- (blen_window b'' Hwf''), Hwin'', Hwin'. reflexivity. }
  rewrite Hl''. cbn [Z.eqb].
  exists cs. eexists. split; [reflexivity|].
  cbn [written conn reads List.length].
  split; [reflexivity|]. split; [exact Hcat|]. split; [exact Hne|].
  unfold deliveriesSeen, w3 in Hseen.
  cbn [reads incoming List.length conn] in Hseen. lia.
Qed.

(** X13. A request for [/echo] with a method other than GET and HEAD,
    a Content-Length field that holds the decimal length of the body,
    and the body split in any way over the first delivery and
    non-empty later ones, after which the peer closes.  The server
    writes the head [HTTP/1.1 200 OK], [Server: my_first_http_server],
    [Content-Length: n], then non-empty pieces that concatenate to
    exactly the body, and returns after one more read that meets the end
    of the stream. *)
Theorem echo_returns_the_body
        (m v : bytes) (kvs : list (bytes * bytes)) (k0 d0 : bytes)
        (ds : list bytes) (fuel : nat) :
  ~ In SP m -> ~ In CR m -> ~ In CR v -> goodFields kvs ->
  equals m (B "GET") || equals m (B "HEAD") = false ->
  liveStream ds ->
  find isContentLength kvs
  = Some (k0, numToString 10 (blen (d0 ++ List.concat ds))) ->
  (Z.to_nat (blen (d0 ++ List.concat ds)) + 3 <= fuel)%nat ->
  exists cs w',
    serveClient fuel
      (connOf ((headerBlock m (B "/echo") v (map fieldOf kvs) ++ d0) :: ds))
    = (Ret tt, w') /\
    written w' = echoHead (blen (d0 ++ List.concat ds)) :: cs /\
    List.concat cs = d0 ++ List.concat ds /\
    Forall (fun c => c <> []) cs /\
    reads (conn w') = (2 + List.length ds)%nat.
Proof. apply serveClient_echo. Qed.

Lemma echo_returns_the_body_witness :
  exists cs w',
    serveClient 14
      (connOf [headerBlock (B "POST") (B "/echo") (B "HTTP/1.1")
                           [B "Content-Length: 11"] ++ B "hel";
               B "lo "; B "world"])
    = (Ret tt, w') /\
    written w' = echoHead 11 :: cs /\
    List.concat cs = B "hello world".
Proof.
  destruct (echo_returns_the_body (B "POST") (B "HTTP/1.1")
              [(B "Content-Length", B "11")] (B "Content-Length") (B "hel")
              [B "lo "; B "world"] 14)
    as (cs & w' & H & Hw & Hc & _).
  - cbv; intuition discriminate.
  - cbv; intuition discriminate.
  - cbv; intuition discriminate.
  - repeat constructor; cbv; intuition discriminate.
  - reflexivity.
  - repeat constructor; discriminate.
  - reflexivity.
  - cbn. lia.
  - exists cs, w'. split; [exact H|]. split; [exact Hw|exact Hc].
Defined.

(** ** The line-oriented echo server *)

Lemma echo_replies_pre (pre : bytes) :
  forall cur s, ~ In LF pre ->
    Echo.replies cur (pre ++ s) = Echo.replies (cur ++ pre) s.
Proof.
  induction pre as [|x pre IH]; intros cur s Hno.
  - now rewrite app_nil_r.
  - cbn [app Echo.replies].
    destruct (Byte.eqb x LF) eqn:E.
    + apply Byte.byte_dec_bl in E. subst x. exfalso. apply Hno. now left.
    + rewrite IH by (intros H; apply Hno; now right).
      now rewrite <- app_assoc.
Qed.

Lemma echo_replies_no_line (s cur : bytes) :
  ~ In LF s -> Echo.replies cur s = [].
Proof.
  intros Hno. rewrite <- (app_nil_r s), echo_replies_pre by exact Hno.
  reflexivity.
Qed.

Lemma echo_replies_line (pre post : bytes) :
  ~ In LF pre ->
  Echo.replies [] (pre ++ LF :: post)
  = if equals (pre ++ [LF]) (B "quit" ++ [LF]) then [B "Bye." ++ [LF]]
    else (B "Echo: " ++ pre ++ [LF]) :: Echo.replies [] post.
Proof.
  intros Hno. rewrite echo_replies_pre by exact Hno.
  cbn [app Echo.replies]. now rewrite (Byte.byte_dec_lb (eq_refl LF)).
Qed.

(** [cutMessage] on a well-formed buffer: the first line, if there is
    one. *)
Lemma echo_cutMessage (b : DynBuf) :
  wf b ->
  (~ In LF (window b) /\ Echo.cutMessage b = (None, b)) \/
  (exists pre post b',
     window b = pre ++ LF :: post /\ ~ In LF pre /\
     Echo.cutMessage b = (Some (pre ++ [LF]), b') /\
     wf b' /\ window b' = post).
Proof.
  intros Hwf. unfold Echo.cutMessage. fold (window b).
  destruct (Buf.indexOf (window b) [LF] <? 0) eqn:E.
  - left. split; [|reflexivity]. apply Z.ltb_lt in E.
    apply indexOf_none in E. intros Hin. apply E. now apply occurs_byte.
  - right. apply Z.ltb_ge in E.
    destruct (indexOf_byte_found LF (window b) E) as (pre & post & Hw & Hno & Hidx).
    set (idx := Buf.indexOf (window b) [LF]) in *.
    pose proof (blen_window b Hwf) as Hlen.
    assert (Hle : 0 <= idx + 1 <= length b).
    { rewrite <- Hlen, Hw. unfold blen in *. rewrite length_app. cbn [List.length]. lia. }
    destruct (bufPop_wf b (idx + 1) Hwf Hle) as (Hwf' & _ & _ & Hwin').
    exists pre, post, (bufPop b (idx + 1)).
    split; [exact Hw|]. split; [exact Hno|].
    assert (Hn : Z.to_nat (idx + 1) = List.length (pre ++ [LF])).
    { rewrite length_app. cbn [List.length]. unfold blen in Hidx. lia. }
    split; [|split; [exact Hwf'|]].
    + rewrite (firstn_window b (idx + 1) Hwf Hle), Hw, Hn.
      change (LF :: post) with ([LF] ++ post). rewrite app_assoc.
      now rewrite firstn_app, Nat.sub_diag, firstn_all, firstn_O, app_nil_r.
    + rewrite Hwin', Hw, Hn.
      change (LF :: post) with ([LF] ++ post). rewrite app_assoc.
      now rewrite skipn_app, Nat.sub_diag, skipn_all, skipn_O.
Qed.

Lemma echo_bind_Ret {A C} (m : M Echo.State A) (k : A -> M Echo.State C)
      (s s' : Echo.State) (a : A) :
  m s = (Ret a, s') -> bind m k s = k a s'.
Proof. intros H. unfold bind. now rewrite H. Qed.

(** The server loop against the stream: what it writes is what is owed
    to the bytes buffered and still to come. *)
Lemma echo_serveLoop_replies :
  forall (fuel : nat) (ds : list bytes) (b : DynBuf) (r : nat)
         (out : list bytes) (dflag : bool),
    wf b -> liveStream ds ->
    (Z.to_nat (blen (window b ++ List.concat ds)) + List.length ds < fuel)%nat ->
    exists s',
      Echo.serveLoop fuel (Echo.mkState (mkConn ds r b) out dflag) = (Ret tt, s') /\
      Echo.written s' = out ++ Echo.replies [] (window b ++ List.concat ds).
Proof.
  induction fuel as [|f IH]; intros ds b r out dflag Hwf Hlive Hfuel; [lia|].
  cbn [Echo.serveLoop].
  destruct (echo_cutMessage b Hwf)
    as [[Hno Hcut]|(pre & post & b' & Hw & Hno & Hcut & Hwf' & Hwin')].
  - (* no complete line: read *)
    erewrite echo_bind_Ret.
    2:{ unfold Echo.liftC, Echo.cutMessageM. cbn [Echo.conn buf]. rewrite Hcut.
        reflexivity. }
    cbv beta iota. unfold setBuf. cbn [incoming reads Echo.written Echo.destroyed].
    destruct ds as [|d ds].
    + destruct (bufPush_wf b [] Hwf) as (b1 & Hpush & _).
      eexists. split.
      * erewrite echo_bind_Ret.
        2:{ unfold Echo.liftC, soRead. cbn [Echo.conn incoming]. reflexivity. }
        erewrite echo_bind_Ret.
        2:{ unfold Echo.liftC, bufPushM. cbn [Echo.conn buf]. rewrite Hpush.
            reflexivity. }
        reflexivity.
      * cbn [Echo.written List.concat]. rewrite app_nil_r.
        now rewrite (echo_replies_no_line _ [] Hno), app_nil_r.
    + pose proof (Forall_inv Hlive) as Hd. cbv beta in Hd.
      pose proof (Forall_inv_tail Hlive) as Hlive'.
      destruct (bufPush_wf b d Hwf) as (b1 & Hpush & Hwf1 & _ & Hwin1 & _).
      destruct (IH ds b1 (S r) out dflag Hwf1 Hlive') as (s' & Hrun & Hout).
      { rewrite Hwin1, <- app_assoc. cbn [List.concat List.length] in Hfuel. lia. }
      exists s'. split.
      * erewrite echo_bind_Ret.
        2:{ unfold Echo.liftC, soRead. cbn [Echo.conn incoming]. reflexivity. }
        erewrite echo_bind_Ret.
        2:{ unfold Echo.liftC, bufPushM. cbn [Echo.conn buf]. rewrite Hpush.
            reflexivity. }
        apply bytes_nonempty in Hd.
        destruct (blen d =? 0) eqn:E; [apply Z.eqb_eq in E; lia|].
        unfold setBuf. cbn [incoming reads Echo.written Echo.destroyed buf].
        exact Hrun.
      * rewrite Hout, Hwin1, <- app_assoc. reflexivity.
  - (* a complete line: answer it *)
    erewrite echo_bind_Ret.
    2:{ unfold Echo.liftC, Echo.cutMessageM. cbn [Echo.conn buf]. rewrite Hcut.
        reflexivity. }
    cbv beta iota. unfold setBuf. cbn [incoming reads Echo.written Echo.destroyed].
    rewrite Hw, <- app_assoc. cbn [app].
    rewrite (echo_replies_line pre (post ++ List.concat ds) Hno).
    destruct (equals (pre ++ [LF]) (B "quit" ++ [LF])) eqn:Eq.
    + eexists. split; [reflexivity|]. reflexivity.
    + destruct (IH ds b' r (out ++ [B "Echo: " ++ pre ++ [LF]]) dflag Hwf' Hlive)
        as (s' & Hrun & Hout).
      { rewrite Hwin'. rewrite Hw in Hfuel.
        unfold blen in *. rewrite !length_app in *. cbn [List.length] in Hfuel. lia. }
      exists s'. split.
      * erewrite echo_bind_Ret by reflexivity. exact Hrun.
      * rewrite Hout, Hwin', <- app_assoc. reflexivity.
Qed.

Lemma echo_serveClient_replies (ds : list bytes) (fuel : nat) :
  liveStream ds ->
  (Z.to_nat (blen (List.concat ds)) + List.length ds < fuel)%nat ->
  (exists s',
     Echo.serveClient fuel (Echo.connOf ds) = (Ret tt, s') /\
     Echo.written s' = Echo.replies [] (List.concat ds)) /\
  (exists s',
     Echo.newConn fuel (Echo.connOf ds) = (Ret tt, s') /\
     Echo.written s' = Echo.replies [] (List.concat ds) /\
     Echo.destroyed s' = true).
Proof.
  intros Hlive Hfuel.
  assert (Hwf0 : wf emptyBuf) by (unfold wf, capacity; cbn; lia).
  destruct (echo_serveLoop_replies fuel ds emptyBuf 0 [] false Hwf0 Hlive Hfuel)
    as (s' & Hrun & Hout).
  change (window emptyBuf) with (@nil byte) in Hout. cbn [app] in Hout.
  assert (Hserve : Echo.serveClient fuel (Echo.connOf ds) = (Ret tt, s')) by exact Hrun.
  split.
  - exists s'. split; [exact Hserve|exact Hout].
  - eexists. unfold Echo.newConn. rewrite Hserve.
    split; [reflexivity|]. split; [exact Hout|reflexivity].
Qed.

Lemma echo_replies_lines (ls : list bytes) :
  Forall (fun l => ~ In LF l /\ l <> B "quit") ls ->
  forall tail,
    Echo.replies [] (List.concat (map (fun l => l ++ [LF]) ls) ++ tail)
    = map (fun l => B "Echo: " ++ l ++ [LF]) ls ++ Echo.replies [] tail.
Proof.
  induction 1 as [|l ls [Hno Hq] _ IH]; intros tail; [reflexivity|].
  cbn [map List.concat]. rewrite <- !app_assoc. cbn [app].
  rewrite (echo_replies_line l _ Hno).
  destruct (equals (l ++ [LF]) (B "quit" ++ [LF])) eqn:E.
  - apply equals_eq in E. apply app_inj_tail in E as [E _]. contradiction.
  - rewrite IH. reflexivity.
Qed.

(** X14. The line-oriented echo server, for any stream cut into
    non-empty deliveries in any way and then closed by the peer.
    [serveClient] returns, and what it has written depends only on the
    bytes of the stream, not on the deliveries: for lines [ls] without
    [quit] followed by an unfinished line, it is [Echo: ] and the line
    for each of [ls], the unfinished line being dropped; when the line
    [quit] follows [ls], it is these replies and then [Bye.], whatever
    comes after.  [newConn] writes the same and leaves the socket
    destroyed. *)
Theorem echo_server_replies_per_line (ds : list bytes) (fuel : nat) :
  liveStream ds ->
  (Z.to_nat (blen (List.concat ds)) + List.length ds < fuel)%nat ->
  (exists s',
     Echo.serveClient fuel (Echo.connOf ds) = (Ret tt, s') /\
     Echo.written s' = Echo.replies [] (List.concat ds)) /\
  (exists s',
     Echo.newConn fuel (Echo.connOf ds) = (Ret tt, s') /\
     Echo.written s' = Echo.replies [] (List.concat ds) /\
     Echo.destroyed s' = true) /\
  (forall ls rest,
     Forall (fun l => ~ In LF l /\ l <> B "quit") ls ->
     (~ In LF rest ->
      Echo.replies [] (List.concat (map (fun l => l ++ [LF]) ls) ++ rest)
      = map (fun l => B "Echo: " ++ l ++ [LF]) ls) /\
     Echo.replies [] (List.concat (map (fun l => l ++ [LF]) ls)
                        ++ (B "quit" ++ [LF]) ++ rest)
     = map (fun l => B "Echo: " ++ l ++ [LF]) ls ++ [B "Bye." ++ [LF]]).
Proof.
  intros Hlive Hfuel.
  destruct (echo_serveClient_replies ds fuel Hlive Hfuel) as [H1 H2].
  split; [exact H1|]. split; [exact H2|].
  intros ls rest Hls. split.
  - intros Hrest. rewrite (echo_replies_lines ls Hls rest).
    now rewrite (echo_replies_no_line rest [] Hrest), app_nil_r.
  - rewrite (echo_replies_lines ls Hls). reflexivity.
Qed.

Lemma echo_server_replies_per_line_witness :
  exists s',
    Echo.serveClient 20 (Echo.connOf [B "hel"; B "lo" ++ [LF] ++ B "qu"; B "it" ++ [LF]])
    = (Ret tt, s') /\
    Echo.written s' = [B "Echo: hello" ++ [LF]; B "Bye." ++ [LF]].
Proof.
  destruct (echo_server_replies_per_line
              [B "hel"; B "lo" ++ [LF] ++ B "qu"; B "it" ++ [LF]] 20)
    as [(s' & Hrun & Hout) _].
  - repeat constructor; discriminate.
  - vm_compute. lia.
  - exists s'. split; [exact Hrun|exact Hout].
Defined.

(** ** The first promise-based server *)

Lemma echo_rawLoop_echoes :
  forall (ds : list bytes) (fuel : nat) (r : nat) (b : DynBuf)
         (out : list bytes) (dflag : bool),
    liveStream ds -> (List.length ds < fuel)%nat ->
    RawEcho.serveClient fuel (Echo.mkState (mkConn ds r b) out dflag)
    = (Ret tt, Echo.mkState (mkConn [] (S (List.length ds) + r) b) (out ++ ds) dflag).
Proof.
  induction ds as [|d ds IH]; intros fuel r b out dflag Hlive Hfuel;
    (destruct fuel as [|f]; [cbn in Hfuel; lia|]); cbn [RawEcho.serveClient].
  - erewrite echo_bind_Ret by reflexivity.
    cbn [blen List.length Z.of_nat Z.eqb Nat.add]. now rewrite app_nil_r.
  - pose proof (Forall_inv Hlive) as Hd. cbv beta in Hd.
    pose proof (Forall_inv_tail Hlive) as Hlive'.
    erewrite echo_bind_Ret by reflexivity.
    apply bytes_nonempty in Hd.
    destruct (blen d =? 0) eqn:E; [apply Z.eqb_eq in E; lia|].
    erewrite echo_bind_Ret by reflexivity.
    cbn [Echo.conn Echo.written Echo.destroyed].
    rewrite IH by (try assumption; cbn [List.length] in Hfuel; lia).
    cbn [List.length]. rewrite <- app_assoc, Nat.add_succ_r. reflexivity.
Qed.

(** X15. The first promise-based server writes back every
    delivery as it came, in order, and returns at the end of the
    stream, after one read per delivery and one more. *)
Theorem raw_echo_writes_back (ds : list bytes) (fuel : nat) :
  liveStream ds -> (List.length ds < fuel)%nat ->
  RawEcho.serveClient fuel (Echo.connOf ds)
  = (Ret tt, Echo.mkState (mkConn [] (S (List.length ds)) emptyBuf) ds false).
Proof.
  intros Hlive Hfuel. unfold Echo.connOf.
  rewrite (echo_rawLoop_echoes ds fuel 0 emptyBuf [] false Hlive Hfuel).
  now rewrite Nat.add_0_r.
Qed.

Lemma raw_echo_writes_back_witness :
  RawEcho.serveClient 3 (Echo.connOf [B "a"; B "bc"])
  = (Ret tt, Echo.mkState (mkConn [] 3 emptyBuf) [B "a"; B "bc"] false).
Proof.
  apply (raw_echo_writes_back [B "a"; B "bc"] 3).
  - repeat constructor; discriminate.
  - cbn. lia.
Defined.

(** ** The sheep generator and the chunked response *)

Lemma sheepLine_nonempty (i : Z) : (blen (sheepLine i) =? 0) = false.
Proof.
  apply Z.eqb_neq. unfold sheepLine. rewrite blen_app.
  pose proof (blen_nonneg (numToString 10 i)). change (blen [LF]) with 1. lia.
Qed.

Lemma read_sheep (fuel ref : nat) (w : World) (len0 i : Z) :
  nth_error (heap w) ref = Some (mkReader len0 (Generator (Sheep i))) ->
  read fuel ref w
  = if i <? 100
    then (Ret (sheepLine i),
          mkWorld (conn w) (written w)
                  (setNth (heap w) ref (mkReader len0 (Generator (Sheep (i + 1))))))
    else (Ret [],
          mkWorld (conn w) (written w)
                  (setNth (heap w) ref (mkReader len0 (Generator GenDone)))).
Proof.
  intros Hnth. unfold read. rewrite Hnth. cbn [rstate rlength readState genNext].
  destruct (i <? 100); reflexivity.
Qed.

(** Reading the sheep generator to its end. *)
Lemma readAll_sheep (ref : nat) (len0 : Z) :
  forall (k : nat) (i : Z) (fuel : nat) (w : World),
    nth_error (heap w) ref = Some (mkReader len0 (Generator (Sheep i))) ->
    i + Z.of_nat k = 100 -> (k < fuel)%nat ->
    readAll fuel ref w
    = (Ret (sheepFrom k i),
       mkWorld (conn w) (written w)
               (setNth (heap w) ref (mkReader len0 (Generator GenDone)))).
Proof.
  induction k as [|k IH]; intros i fuel w Hnth Hi Hfuel;
    (destruct fuel as [|f]; [lia|]); cbn [readAll sheepFrom].
  - assert (E : (i <? 100) = false) by (apply Z.ltb_ge; lia).
    unfold bind. rewrite (read_sheep f ref w len0 i Hnth), E. reflexivity.
  - assert (E : (i <? 100) = true) by (apply Z.ltb_lt; lia).
    unfold bind at 1. rewrite (read_sheep f ref w len0 i Hnth), E.
    rewrite sheepLine_nonempty.
    erewrite bind_Ret.
    2:{ apply (IH (i + 1) f).
        - cbn [heap]. eapply nth_error_setNth, Hnth.
        - lia.
        - lia. }
    cbn [conn written heap]. now rewrite setNth_setNth.
Qed.

Lemma sheepFrom_map (k : nat) :
  forall i : nat,
    sheepFrom k (Z.of_nat i)
    = map (fun j => numToString 10 (Z.of_nat j) ++ [LF]) (seq i k).
Proof.
  induction k as [|k IH]; intros i; cbn [sheepFrom seq map]; [reflexivity|].
  f_equal. rewrite <- IH. f_equal. lia.
Qed.

Lemma chunkedHead_encode :
  encodeHTTPResp 200 ([B "Server: my_first_http_server"] ++ [lengthHeader (-1)])
  = Ret chunkedHead.
Proof. vm_compute. reflexivity. Qed.

(** A response whose body has no known length. *)
Lemma writeHTTPResp_chunked
      (fuel : nat) (resp : HTTPRes) (w w1 : World) (r : BodyReader)
      (head : bytes) (cs : list bytes) :
  nth_error (heap w) (body resp) = Some r -> rlength r < 0 ->
  encodeHTTPResp (code resp) (resHeaders resp ++ [lengthHeader (rlength r)])
  = Ret head ->
  readAll fuel (body resp) w = (Ret cs, w1) ->
  writeHTTPResp fuel resp w
  = (Ret tt, setWritten (written w ++ [head] ++ map chunkFrame cs ++ [lastChunk]) w1).
Proof.
  intros Hr Hneg Henc Hall.
  destruct (writeBody_chunked fuel (body resp) w w1 r cs (written w ++ [head])
                              Hr Hneg Hall) as [Hbody _].
  unfold writeHTTPResp, bind, lengthOf, liftO, soWrite.
  rewrite Hr, Henc.
  unfold setWritten in Hbody at 1. rewrite Hbody.
  now rewrite <- !app_assoc.
Qed.

Lemma writeHTTPResp_sheep (fuel ref : nat) (w : World) :
  nth_error (heap w) ref = Some (readerFromGenerator (Sheep 0)) ->
  (100 < fuel)%nat ->
  writeHTTPResp fuel (mkRes 200 [B "Server: my_first_http_server"] ref) w
  = (Ret tt,
     mkWorld (conn w)
             (written w ++ [chunkedHead]
                ++ map chunkFrame (sheepFrom 100 0) ++ [lastChunk])
             (setNth (heap w) ref (readerFromGenerator GenDone))).
Proof.
  intros Hnth Hfuel.
  rewrite (writeHTTPResp_chunked fuel (mkRes 200 [B "Server: my_first_http_server"] ref)
             w (mkWorld (conn w) (written w)
                        (setNth (heap w) ref (readerFromGenerator GenDone)))
             (readerFromGenerator (Sheep 0)) chunkedHead (sheepFrom 100 0) Hnth).
  - reflexivity.
  - cbn. lia.
  - exact chunkedHead_encode.
  - apply (readAll_sheep ref (-1) 100 0 fuel w Hnth); [reflexivity|exact Hfuel].
Qed.

(** X16. A response whose body is the sheep generator, written by
    [writeHTTPResp]: the head [HTTP/1.1 200 OK] with
    [Transfer-Encoding: chunked], then one chunk for each number from 0
    to 99, holding the number in decimal and a line feed, framed by its
    length in hexadecimal, and the chunk-end marker; nothing is read
    from the connection, and the generator is left finished. *)
Theorem sheep_response_counts_to_99 (fuel ref : nat) (w : World) :
  nth_error (heap w) ref = Some (readerFromGenerator (Sheep 0)) ->
  (100 < fuel)%nat ->
  writeHTTPResp fuel (mkRes 200 [B "Server: my_first_http_server"] ref) w
  = (Ret tt,
     mkWorld (conn w)
             (written w ++ [chunkedHead]
                ++ map chunkFrame
                       (map (fun j => numToString 10 (Z.of_nat j) ++ [LF]) (seq 0 100))
                ++ [lastChunk])
             (setNth (heap w) ref (readerFromGenerator GenDone))).
Proof.
  intros Hnth Hfuel. rewrite <- (sheepFrom_map 100 0).
  apply writeHTTPResp_sheep; assumption.
Qed.

Lemma sheep_response_counts_to_99_witness :
  exists w',
    writeHTTPResp 101 (mkRes 200 [B "Server: my_first_http_server"] 0)
                  (mkWorld (mkConn [] 0 emptyBuf) [] [readerFromGenerator (Sheep 0)])
    = (Ret tt, w') /\
    List.length (written w') = 102%nat /\
    nth_error (written w') 11 = Some (B "3" ++ CRLF ++ B "10" ++ [LF] ++ CRLF).
Proof.
  eexists. split.
  - apply (sheep_response_counts_to_99 101 0
             (mkWorld (mkConn [] 0 emptyBuf) [] [readerFromGenerator (Sheep 0)])).
    + reflexivity.
    + lia.
  - split; vm_compute; reflexivity.
Defined.

(** ** Requests in sequence on one connection *)

Lemma indexOf_le_occurrence (needle : bytes) :
  needle <> [] ->
  forall pre post,
    0 <= Buf.indexOf (pre ++ needle ++ post) needle <= blen pre.
Proof.
  intros Hne. induction pre as [|a pre IH]; intros post.
  - destruct needle as [|x n']; [contradiction|].
    change ([] ++ (x :: n') ++ post) with (x :: (n' ++ post)).
    rewrite indexOf_cons.
    change (x :: n' ++ post) with ((x :: n') ++ post).
    rewrite startsWith_app. cbn. lia.
  - change ((a :: pre) ++ needle ++ post) with (a :: (pre ++ needle ++ post)).
    rewrite indexOf_cons. specialize (IH post).
    assert (Hb : blen (a :: pre) = blen pre + 1)
      by (unfold blen; cbn [List.length]; lia).
    pose proof (blen_nonneg pre).
    destruct (Buf.startsWith needle (a :: pre ++ needle ++ post)); [lia|].
    destruct (Buf.indexOf (pre ++ needle ++ post) needle <? 0) eqn:E;
      [apply Z.ltb_lt in E; lia|lia].
Qed.

(** No proper prefix of a header block holds the header delimiter. *)
Lemma headerEnd_not_before (m u v : bytes) (hs : list bytes) (p s : bytes) :
  ~ In CR m -> ~ In CR u -> ~ In CR v ->
  Forall (fun h => ~ In CR h /\ In COLON h) hs ->
  headerBlock m u v hs = p ++ s -> s <> [] ->
  ~ occurs headerEnd p.
Proof.
  intros Hmc Huc Hvc Hhs Hsplit Hs (pre & post & Hp).
  assert (Hline : ~ In CR (m ++ SP :: u ++ SP :: v)).
  { intros Hin. apply in_app_or in Hin as [Hin|[Heq|Hin]];
      [now apply Hmc|discriminate|].
    apply in_app_or in Hin as [Hin|[Heq|Hin]];
      [now apply Huc|discriminate|now apply Hvc]. }
  assert (Hhs' : Forall (fun h => ~ In CR h /\ h <> []) hs).
  { eapply Forall_impl; [|exact Hhs]. intros h [H1 H2]. split; [exact H1|].
    intros ->. contradiction. }
  pose proof (indexOf_headerBlock m u v hs [] Hline Hhs') as Hidx.
  rewrite app_nil_r, Hsplit, Hp, <- !app_assoc in Hidx.
  assert (Hne : headerEnd <> []) by discriminate.
  pose proof (indexOf_le_occurrence headerEnd Hne pre (post ++ s)) as Hle.
  rewrite Hidx in Hle.
  apply bytes_nonempty in Hs.
  unfold blen in *. rewrite !length_app in Hle.
  change (List.length headerEnd) with 4%nat in Hle. lia.
Qed.

Lemma app_split_prefix (a b c d : bytes) :
  a ++ b = c ++ d ->
  (exists r, a = c ++ r /\ d = r ++ b) \/
  (exists s, s <> [] /\ c = a ++ s /\ b = s ++ d).
Proof.
  revert c. induction a as [|x a IH]; intros c H.
  - destruct c as [|y c].
    + left. exists []. now split.
    + right. exists (y :: c). repeat split; [discriminate|exact H].
  - destruct c as [|y c].
    + left. exists (x :: a). cbn [app] in *. now split.
    + cbn [app] in H. injection H as -> H.
      destruct (IH c H) as [(r & -> & ->)|(s & Hs & -> & ->)].
      * left. exists r. now split.
      * right. exists s. now repeat split.
Qed.

Lemma wellFramed_lines (q : Request) :
  wellFramed q -> Forall (fun h => ~ In CR h /\ In COLON h) (map fieldOf (qFields q)).
Proof. intros H. apply goodFields_lines, H. Qed.

Lemma serveLoop_isLoop : isLoopOf readerFromReq handleReq writeHTTPResp serveLoop.
Proof. intros f w. reflexivity. Qed.

(** A turn when the buffer holds no whole header. *)
Lemma turn_no_header
      (rd : HTTPReq -> M World nat) (hd : HTTPReq -> nat -> M World HTTPRes)
      (wr : nat -> HTTPRes -> M World unit) (f : nat) (again : M World unit)
      (c : Conn) (out : list bytes) (h : list BodyReader)
      (d : bytes) (rest : list bytes) (b1 : DynBuf) :
  cutMessage (buf c) = (Ret None, buf c) ->
  (incoming c = d :: rest \/ (incoming c = [] /\ d = [] /\ rest = [])) ->
  bufPush (buf c) d = (None, b1) ->
  turnWith rd hd wr f again (mkWorld c out h) =
    let w1 := mkWorld (mkConn rest (S (reads c)) b1) out h in
    if (blen d =? 0) && (length b1 =? 0) then (Ret tt, w1)
    else if blen d =? 0 then (Throw (HTTPError 400 "Expected EOF."), w1)
         else again w1.
Proof.
  intros Hcut Hin Hpush. unfold turnWith.
  erewrite bind_Ret.
  2:{ apply liftC_mk. unfold cutMessageM. rewrite Hcut, conn_eta. reflexivity. }
  cbv beta iota.
  erewrite bind_Ret.
  2:{ apply liftC_mk. unfold soRead.
      destruct Hin as [Hin|(Hin & -> & ->)]; rewrite Hin; reflexivity. }
  erewrite bind_Ret.
  2:{ apply liftC_mk. unfold bufPushM. cbn [buf]. rewrite Hpush. reflexivity. }
  erewrite bind_Ret.
  2:{ apply liftC_mk. unfold getBuf. reflexivity. }
  unfold setBuf. cbn [buf incoming reads].
  destruct ((blen d =? 0) && (length b1 =? 0)); [reflexivity|].
  destruct (blen d =? 0); reflexivity.
Qed.

(** A turn when the buffer starts with a whole header. *)
Lemma turn_request
      (rd : HTTPReq -> M World nat) (hd : HTTPReq -> nat -> M World HTTPRes)
      (wr : nat -> HTTPRes -> M World unit) (f : nat) (again : M World unit)
      (c : Conn) (out : list bytes) (h : list BodyReader)
      (req : HTTPReq) (b2 : DynBuf) :
  cutMessage (buf c) = (Ret (Some req), b2) ->
  turnWith rd hd wr f again (mkWorld c out h)
  = (reqBody <- rd req ;;
     res <- hd req reqBody ;;
     wr f res ;;
     if equals (version req) (B "1.0") then ret tt
     else drain f reqBody ;; again) (mkWorld (setBuf b2 c) out h).
Proof.
  intros Hcut. unfold turnWith.
  erewrite bind_Ret.
  2:{ apply liftC_mk. unfold cutMessageM. rewrite Hcut. reflexivity. }
  reflexivity.
Qed.

(** The loop gathers deliveries until the buffer holds a whole header
    block. *)
Lemma loop_gather
      (rd : HTTPReq -> M World nat) (hd : HTTPReq -> nat -> M World HTTPRes)
      (wr : nat -> HTTPRes -> M World unit) (L : nat -> M World unit)
      (m u v : bytes) (hs : list bytes) (tail : bytes) :
  isLoopOf rd hd wr L ->
  ~ In CR m -> ~ In CR u -> ~ In CR v ->
  Forall (fun h => ~ In CR h /\ In COLON h) hs ->
  blen (headerBlock m u v hs) <= 8192 ->
  forall (ds : list bytes) (b : DynBuf) (r : nat) (out : list bytes)
         (h : list BodyReader),
    wf b -> liveStream ds ->
    window b ++ List.concat ds = headerBlock m u v hs ++ tail ->
    exists (k : nat) (ds' : list bytes) (b' : DynBuf) (rest : bytes),
      List.length ds = (k + List.length ds')%nat /\
      wf b' /\ liveStream ds' /\
      window b' = headerBlock m u v hs ++ rest /\
      rest ++ List.concat ds' = tail /\
      forall f,
        L (k + f)%nat (mkWorld (mkConn ds r b) out h)
        = L f (mkWorld (mkConn ds' (k + r) b') out h).
Proof.
  intros HL Hmc Huc Hvc Hhs Hmax.
  induction ds as [|d ds IH]; intros b r out h Hwf Hlive Hstream.
  - cbn [List.concat] in Hstream. rewrite app_nil_r in Hstream.
    exists 0%nat, [], b, tail. split; [reflexivity|]. split; [exact Hwf|].
    split; [exact Hlive|]. split; [exact Hstream|].
    split; [now rewrite app_nil_r|]. reflexivity.
  - destruct (app_split_prefix _ _ _ _ Hstream) as [(rest & Hw & Ht)|(s & Hs & Hhd & Hc)].
    + exists 0%nat, (d :: ds), b, rest. split; [reflexivity|]. split; [exact Hwf|].
      split; [exact Hlive|]. split; [exact Hw|]. split; [now symmetry|]. reflexivity.
    + pose proof (Forall_inv Hlive) as Hd. cbv beta in Hd.
      pose proof (Forall_inv_tail Hlive) as Hlive'.
      destruct (bufPush_wf b d Hwf) as (b1 & Hpush & Hwf1 & _ & Hwin1 & _).
      destruct (IH b1 (S r) out h Hwf1 Hlive')
        as (k & ds' & b' & rest & Hlen & Hwf' & Hlive'' & Hw' & Ht & Hrun).
      { rewrite Hwin1, <- app_assoc. exact Hstream. }
      exists (S k), ds', b', rest. split; [cbn [List.length]; lia|].
      split; [exact Hwf'|]. split; [exact Hlive''|]. split; [exact Hw'|].
      split; [exact Ht|]. intros f. cbn [Nat.add]. rewrite HL.
      rewrite (turn_no_header rd hd wr (k + f) (L (k + f)%nat)
                              (mkConn (d :: ds) r b) out h d ds b1).
      * cbv zeta. apply bytes_nonempty in Hd.
        destruct (blen d =? 0) eqn:E; [apply Z.eqb_eq in E; lia|].
        cbn [andb reads]. rewrite Hrun. now rewrite Nat.add_succ_r.
      * cbn [buf]. apply cutMessage_none.
        -- apply (headerEnd_not_before m u v hs (window b) s); assumption.
        -- rewrite <- (blen_window b Hwf). apply bytes_nonempty in Hs.
           rewrite Hhd, blen_app in Hmax. lia.
      * now left.
      * exact Hpush.
Qed.

(** The loop at the end of the stream, with nothing buffered. *)
Lemma loop_end
      (rd : HTTPReq -> M World nat) (hd : HTTPReq -> nat -> M World HTTPRes)
      (wr : nat -> HTTPRes -> M World unit) (L : nat -> M World unit)
      (f r : nat) (b : DynBuf) (out : list bytes) (h : list BodyReader) :
  isLoopOf rd hd wr L -> wf b -> window b = [] ->
  exists b',
    L (S f) (mkWorld (mkConn [] r b) out h)
    = (Ret tt, mkWorld (mkConn [] (S r) b') out h).
Proof.
  intros HL Hwf Hw.
  destruct (bufPush_wf b [] Hwf) as (b1 & Hpush & Hwf1 & _ & Hwin1 & _).
  rewrite Hw in Hwin1. cbn [app] in Hwin1.
  assert (Hl : length b = 0) by (rewrite <- (blen_window b Hwf), Hw; reflexivity).
  assert (Hl1 : length b1 = 0) by (rewrite <- (blen_window b1 Hwf1), Hwin1; reflexivity).
  exists b1. rewrite HL.
  rewrite (turn_no_header rd hd wr f (L f) (mkConn [] r b) out h [] [] b1).
  - cbv zeta. rewrite Hl1. reflexivity.
  - cbn [buf]. apply cutMessage_none.
    + rewrite Hw. intros (pre & post & H). destruct pre; discriminate.
    + rewrite Hl. reflexivity.
  - right. repeat split.
  - exact Hpush.
Qed.

(** Draining reads what reading to the end reads. *)
Lemma drain_readAll (ref : nat) :
  forall (fuel : nat) (w w' : World) (cs : list bytes),
    readAll fuel ref w = (Ret cs, w') -> drain fuel ref w = (Ret tt, w').
Proof.
  induction fuel as [|f IH]; intros w w' cs Hall; [discriminate|].
  cbn [readAll drain] in *. unfold bind in *.
  destruct (read f ref w) as [[d|e|] w1]; try discriminate.
  pose proof (blen_nonneg d) as Hd.
  destruct (blen d =? 0) eqn:E.
  - apply Z.eqb_eq in E. injection Hall as _ <-.
    destruct (0 <? blen d) eqn:E'; [apply Z.ltb_lt in E'; lia|reflexivity].
  - apply Z.eqb_neq in E.
    destruct (readAll f ref w1) as [[ds|e|] w2] eqn:E2; try discriminate.
    injection Hall as _ <-.
    destruct (0 <? blen d) eqn:E'; [|apply Z.ltb_ge in E'; lia].
    eapply IH. exact E2.
Qed.

Lemma readAll_memory (f ref : nat) (w : World) (d : bytes) :
  nth_error (heap w) ref = Some (readerFromMemory d) -> d <> [] ->
  readAll (S (S f)) ref w
  = (Ret [d], mkWorld (conn w) (written w)
                      (setNth (heap w) ref (mkReader (blen d) (Memory d true)))).
Proof.
  intros Hnth Hd. apply bytes_nonempty in Hd.
  cbn [readAll]. unfold bind.
  rewrite (read_memory (S f) ref w (blen d) d false Hnth).
  destruct (blen d =? 0) eqn:E; [apply Z.eqb_eq in E; lia|].
  rewrite (read_memory f ref _ (blen d) d true)
    by (cbn [heap]; eapply nth_error_setNth, Hnth).
  cbn [blen List.length Z.of_nat Z.eqb conn written heap].
  unfold ret. now rewrite setNth_setNth.
Qed.

(** The body reader of a well-framed request is the fixed-length reader
    of its body. *)
Lemma readerFromReq_wellFramed (q : Request) (w : World) :
  wellFramed q ->
  let req := parsedReq (qMethod q) (qUri q) (qVersion q) (qFields q) in
  parseHTTPReq (wireHead q) = Ret req /\
  readerFromReq req w
  = (Ret (List.length (heap w)),
     mkWorld (conn w) (written w)
             (heap w ++ [readerFromConnLength (blen (qBody q))])).
Proof.
  intros (Hm & Hu & Hmc & Huc & Hvc & Hgood & _ & Hbody) req.
  assert (Hparse : parseHTTPReq (wireHead q) = Ret req).
  { apply parseHTTPReq_block; try assumption. now apply goodFields_lines. }
  split; [exact Hparse|].
  unfold isGetOrHead in Hbody.
  destruct (equals (qMethod q) (B "GET") || equals (qMethod q) (B "HEAD")) eqn:Em.
  - destruct Hbody as [Hb Hfind]. rewrite Hb.
    pose proof (parsed_never_chunked _ _ Hparse) as Hflag.
    destruct (bodyLenOf_parsed (qMethod q) (qUri q) (qVersion q) (qFields q) Hgood)
      as [_ Hnone].
    rewrite readerFromReq_unfold. fold req in Hnone. rewrite (Hnone Hfind), Hflag.
    cbv zeta. change (method req) with (qMethod q). rewrite Em. reflexivity.
  - destruct Hbody as [k Hfind].
    destruct (readerFromReq_parsed (qMethod q) (qUri q) (qVersion q) (qFields q) w
                                   Hm Hu Hmc Huc Hvc Hgood Em) as (_ & Hreader & _).
    apply (Hreader k (blen (qBody q)) Hfind (blen_nonneg _)).
Qed.

Lemma drain_body (f ref : nat) (w : World) (len0 remain : Z) (pre tail : bytes) :
  nth_error (heap w) ref = Some (mkReader len0 (ConnLength remain)) ->
  wf (buf (conn w)) -> liveStream (incoming (conn w)) ->
  pending (conn w) = pre ++ tail -> remain = blen pre ->
  (Z.to_nat remain < f)%nat ->
  exists c',
    drain f ref w
    = (Ret tt, mkWorld c' (written w)
                       (setNth (heap w) ref (mkReader len0 (ConnLength 0)))) /\
    pending c' = tail /\
    wf (buf c') /\ liveStream (incoming c') /\
    deliveriesSeen c' = deliveriesSeen (conn w) /\
    (reads (conn w) <= reads c')%nat.
Proof.
  intros Hnth Hwf Hlive Hpend Hrem Hfuel.
  destruct (readAll_connLength ref len0 f w remain Hnth Hwf Hlive)
    as (cs & c' & Hall & _ & Hrest & Hwf' & Hlive' & Hseen & Hreads).
  { rewrite Hpend, blen_app, Hrem. pose proof (blen_nonneg pre).
    pose proof (blen_nonneg tail). lia. }
  { exact Hfuel. }
  exists c'. split; [eapply drain_readAll; exact Hall|].
  split; [|split; [exact Hwf'|split; [exact Hlive'|split; [exact Hseen|exact Hreads]]]].
  rewrite Hrest, Hpend, Hrem.
  replace (Z.to_nat (blen pre)) with (List.length pre) by (unfold blen; lia).
  now rewrite skipn_app, Nat.sub_diag, skipn_all, skipn_O.
Qed.

Lemma helloHead_encode :
  encodeHTTPResp 200
    ([B "Server: my_first_http_server"]
       ++ [B "Content-Length: " ++ numToString 10 (rlength (readerFromMemory helloBody))])
  = Ret helloHead.
Proof. vm_compute. reflexivity. Qed.

Lemma concat_snoc (l : list bytes) (x : bytes) :
  List.concat (l ++ [x]) = List.concat l ++ x.
Proof. rewrite concat_app. cbn [List.concat]. now rewrite app_nil_r. Qed.

(** One turn of the newer server on a buffer that starts with the whole
    header of a well-framed request: the response is written, the body
    is consumed, and the loop goes on with what follows the request. *)
Lemma turn_one_request : answers readerFromReq handleReq writeHTTPResp responseTo.
Proof.
  intros q tail f again ds r b rest out h Hq Hwf Hlive Hwin Hstream Hf1 Hf2.
  pose proof Hq as (Hm & Hu & Hmc & Huc & Hvc & Hgood & _ & _).
  set (n := blen (qBody q)) in *.
  assert (Hn : 0 <= n) by apply blen_nonneg.
  destruct (cutMessage_block b (qMethod q) (qUri q) (qVersion q)
                             (map fieldOf (qFields q)) rest
                             Hwf Hwin Hm Hu Hmc Huc Hvc (goodFields_lines _ Hgood))
    as (b2 & Hcut & Hwf2 & Hwin2 & _).
  fold (parsedReq (qMethod q) (qUri q) (qVersion q) (qFields q)) in Hcut.
  set (req := parsedReq (qMethod q) (qUri q) (qVersion q) (qFields q)) in *.
  rewrite (turn_request readerFromReq handleReq writeHTTPResp f again
                        (mkConn ds r b) out h req b2 Hcut).
  unfold setBuf. cbn [incoming reads].
  destruct (readerFromReq_wellFramed q (mkWorld (mkConn ds r b2) out h) Hq)
    as [Hparse Hreader].
  fold req in Hparse, Hreader. fold n in Hreader. cbn [heap conn written] in Hreader.
  erewrite bind_Ret by exact Hreader.
  set (rd := readerFromConnLength n).
  set (w3 := mkWorld (mkConn ds r b2) out (h ++ [rd])).
  assert (Hnth : nth_error (heap w3) (List.length h) = Some (mkReader n (ConnLength n)))
    by apply nth_error_new.
  assert (Hpend : pending (conn w3) = qBody q ++ tail).
  { unfold pending, w3. cbn [conn buf incoming]. now rewrite Hwin2. }
  pose proof (parsed_version_never_1_0 _ req Hparse) as Hver.
  assert (Hseen3 : deliveriesSeen (conn w3) = (r + List.length ds)%nat) by reflexivity.
  destruct (equals (qUri q) (B "/echo")) eqn:Eecho.
  - (* the body is the response body *)
    assert (Hhandle : handleReq req (List.length h) w3
                      = (Ret (mkRes 200 [B "Server: my_first_http_server"]
                                    (List.length h)), w3)).
    { unfold handleReq. change (uri req) with (qUri q). rewrite Eecho. reflexivity. }
    erewrite bind_Ret by exact Hhandle.
    destruct (readAll_connLength (List.length h) n f w3 n Hnth Hwf2 Hlive)
      as (cs & c' & Hall & Hcat & Hrest & Hwf' & Hlive' & Hseen & Hreads).
    { rewrite Hpend, blen_app. fold n. pose proof (blen_nonneg tail). lia. }
    { lia. }
    rewrite Hpend in Hcat, Hrest.
    assert (Hnb : Z.to_nat n = List.length (qBody q)) by (unfold n, blen; lia).
    rewrite Hnb, firstn_app, Nat.sub_diag, firstn_all, firstn_O, app_nil_r in Hcat.
    rewrite Hnb, skipn_app, Nat.sub_diag, skipn_all, skipn_O in Hrest.
    cbn [app] in Hrest.
    destruct (writeHTTPResp_plain f (mkRes 200 [B "Server: my_first_http_server"]
                                           (List.length h))
                w3 _ (mkReader n (ConnLength n)) (echoHead n) cs Hnth Hn
                (echoHead_encode n) Hall) as [Hwrite _].
    erewrite bind_Ret by exact Hwrite.
    rewrite Hver.
    destruct f as [|f']; [lia|].
    erewrite bind_Ret.
    2:{ apply (drain_done f' (List.length h) _ n). unfold setWritten. cbn [heap].
        eapply nth_error_setNth, Hnth. }
    eexists c', _, _. split; [reflexivity|].
    split.
    { unfold setWritten, w3. cbn [written]. rewrite !concat_app, Hcat.
      cbn [List.concat]. rewrite app_nil_r.
      unfold responseTo. rewrite Eecho. reflexivity. }
    split; [exact Hwf'|]. split; [exact Hlive'|]. split; [exact Hrest|].
    split; [now rewrite Hseen|exact Hreads].
  - (* the response has its own body; the request body is drained *)
    set (ref2 := List.length (h ++ [rd])).
    assert (Hdrain :
              forall (out5 : list bytes) (r5 : BodyReader),
              exists c' h',
                (drain f (List.length h) ;; again)
                  (mkWorld (mkConn ds r b2) out5 ((h ++ [rd]) ++ [r5]))
                = again (mkWorld c' out5 h') /\
                wf (buf c') /\ liveStream (incoming c') /\ pending c' = tail /\
                deliveriesSeen c' = (r + List.length ds)%nat /\
                (r <= reads c')%nat).
    { intros out5 r5.
      destruct (drain_body f (List.length h)
                  (mkWorld (mkConn ds r b2) out5 ((h ++ [rd]) ++ [r5]))
                  n n (qBody q) tail)
        as (c' & Hd & Hp & Hwf' & Hlive' & Hseen & Hreads).
      { cbn [heap]. rewrite nth_error_app1 by (rewrite length_app; cbn; lia).
        apply nth_error_new. }
      { exact Hwf2. }
      { exact Hlive. }
      { exact Hpend. }
      { reflexivity. }
      { lia. }
      exists c'. eexists. split; [erewrite bind_Ret by exact Hd; reflexivity|].
      split; [exact Hwf'|]. split; [exact Hlive'|]. split; [exact Hp|].
      split; [exact Hseen|exact Hreads]. }
    destruct (equals (qUri q) (B "/sheep")) eqn:Esheep.
    + assert (Hhandle : handleReq req (List.length h) w3
                        = (Ret (mkRes 200 [B "Server: my_first_http_server"] ref2),
                           mkWorld (mkConn ds r b2) out
                                   ((h ++ [rd]) ++ [readerFromGenerator (Sheep 0)]))).
      { unfold handleReq. change (uri req) with (qUri q).
        rewrite Eecho, Esheep. reflexivity. }
      erewrite bind_Ret by exact Hhandle.
      erewrite bind_Ret.
      2:{ apply writeHTTPResp_sheep; [apply nth_error_new|lia]. }
      rewrite Hver. cbn [conn written heap]. unfold ref2. rewrite setNth_new.
      destruct (Hdrain (out ++ [chunkedHead]
                          ++ map chunkFrame (sheepFrom 100 0) ++ [lastChunk])
                       (readerFromGenerator GenDone))
        as (c' & h' & Hrun & Hrest).
      exists c'. eexists. exists h'. split; [exact Hrun|].
      split; [|exact Hrest].
      rewrite !concat_app. cbn [List.concat]. rewrite !app_nil_r.
      unfold responseTo. rewrite Eecho, Esheep. reflexivity.
    + assert (Hhandle : handleReq req (List.length h) w3
                        = (Ret (mkRes 200 [B "Server: my_first_http_server"] ref2),
                           mkWorld (mkConn ds r b2) out
                                   ((h ++ [rd]) ++ [readerFromMemory helloBody]))).
      { unfold handleReq. change (uri req) with (qUri q).
        rewrite Eecho, Esheep. reflexivity. }
      erewrite bind_Ret by exact Hhandle.
      destruct f as [|[|f']]; try lia.
      destruct (writeHTTPResp_plain (S (S f'))
                  (mkRes 200 [B "Server: my_first_http_server"] ref2)
                  (mkWorld (mkConn ds r b2) out
                           ((h ++ [rd]) ++ [readerFromMemory helloBody]))
                  (mkWorld (mkConn ds r b2) out
                           (setNth ((h ++ [rd]) ++ [readerFromMemory helloBody]) ref2
                                   (mkReader (blen helloBody) (Memory helloBody true))))
                  (readerFromMemory helloBody) helloHead [helloBody])
        as [Hwrite _].
      { apply nth_error_new. }
      { cbn. lia. }
      { exact helloHead_encode. }
      { apply readAll_memory; [apply nth_error_new|discriminate]. }
      erewrite bind_Ret by exact Hwrite.
      rewrite Hver. unfold setWritten. cbn [conn written heap].
      unfold ref2. rewrite setNth_new.
      destruct (Hdrain (out ++ [helloHead] ++ [helloBody])
                       (mkReader (blen helloBody) (Memory helloBody true)))
        as (c' & h' & Hrun & Hrest).
      exists c'. eexists. exists h'. split; [exact Hrun|].
      split; [|exact Hrest].
      rewrite !concat_app. cbn [List.concat]. rewrite !app_nil_r.
      unfold responseTo. rewrite Eecho, Esheep. reflexivity.
Qed.

Lemma liveStream_nil_concat (ds : list bytes) :
  liveStream ds -> List.concat ds = [] -> ds = [].
Proof.
  intros Hlive Hc. destruct ds as [|d ds]; [reflexivity|].
  pose proof (Forall_inv Hlive) as Hd. cbv beta in Hd.
  cbn [List.concat] in Hc. apply app_eq_nil in Hc as [Hd' _]. contradiction.
Qed.

(** A loop of turns that answer well-framed requests, against a stream
    of such requests. *)
Lemma loop_requests
      (rd : HTTPReq -> M World nat) (hd : HTTPReq -> nat -> M World HTTPRes)
      (wr : nat -> HTTPRes -> M World unit) (L : nat -> M World unit)
      (resp : Request -> bytes) (qs : list Request) :
  isLoopOf rd hd wr L -> answers rd hd wr resp ->
  Forall wellFramed qs ->
  forall (fuel : nat) (ds : list bytes) (b : DynBuf) (r : nat)
         (out : list bytes) (h : list BodyReader),
    wf b -> liveStream ds ->
    window b ++ List.concat ds = List.concat (map wire qs) ->
    (List.length ds + List.length qs
     + Z.to_nat (blen (window b ++ List.concat ds)) + 103 <= fuel)%nat ->
    exists w',
      L fuel (mkWorld (mkConn ds r b) out h) = (Ret tt, w') /\
      List.concat (written w')
      = List.concat out ++ List.concat (map resp qs) /\
      reads (conn w') = S (r + List.length ds).
Proof.
  intros HL Hans.
  induction 1 as [|q qs Hq Hqs IH]; intros fuel ds b r out h Hwf Hlive Hstream Hfuel.
  - cbn [map List.concat] in Hstream. apply app_eq_nil in Hstream as [Hw Hc].
    apply (liveStream_nil_concat ds Hlive) in Hc. subst ds.
    destruct fuel as [|f]; [lia|].
    destruct (loop_end rd hd wr L f r b out h HL Hwf Hw) as (b' & Hrun).
    eexists. split; [exact Hrun|]. cbn [written conn reads map List.concat List.length].
    split; [now rewrite app_nil_r|lia].
  - cbn [map List.concat] in Hstream. unfold wire at 1 in Hstream.
    rewrite <- app_assoc in Hstream.
    set (tail := List.concat (map wire qs)) in *.
    pose proof Hq as (Hm & Hu & Hmc & Huc & Hvc & Hgood & Hmax & _).
    destruct (loop_gather rd hd wr L (qMethod q) (qUri q) (qVersion q)
                (map fieldOf (qFields q)) (qBody q ++ tail) HL
                Hmc Huc Hvc (goodFields_lines _ Hgood) Hmax
                ds b r out h Hwf Hlive Hstream)
      as (k & ds' & b' & rest & Hlen & Hwf' & Hlive' & Hw' & Ht & Hrun).
    assert (Htotal : Z.to_nat (blen (window b ++ List.concat ds))
                     = (List.length (wireHead q) + List.length (qBody q)
                        + List.length tail)%nat).
    { rewrite Hstream. unfold blen. rewrite !length_app. fold (wireHead q). lia. }
    rewrite Htotal in Hfuel. cbn [List.length] in Hfuel.
    assert (Hfk : fuel = (k + S (fuel - k - 1))%nat) by lia.
    set (f := (fuel - k - 1)%nat) in *.
    rewrite Hfk, Hrun, HL.
    destruct (Hans q tail f (L f) ds' (k + r)%nat b' rest out h
                   Hq Hwf' Hlive' Hw' Ht)
      as (c' & out' & h' & Hstep & Hout & Hwf'' & Hlive'' & Hpend & Hseen & Hreads).
    { lia. }
    { unfold blen. lia. }
    rewrite Hstep. destruct c' as [ds2 r2 b2].
    unfold pending, deliveriesSeen in *. cbn [buf incoming reads] in *.
    destruct (IH f ds2 b2 r2 out' h' Hwf'' Hlive'' Hpend) as (w' & Hfin & Hcat & Hr).
    { rewrite Hpend. unfold blen. lia. }
    exists w'. split; [exact Hfin|].
    split; [rewrite Hcat, Hout, <- app_assoc; reflexivity|].
    rewrite Hr. lia.
Qed.

(** X17. Well-framed requests sent one after the other on a
    connection, the bytes cut into non-empty deliveries in any way, and
    then the end of the stream.  A well-framed request has tokens
    without spaces, no CR inside a line, a header block of at most 8192
    bytes, no body and no Content-Length with GET and HEAD, and
    otherwise a Content-Length field that holds the length of its body.
    The server returns after reading every delivery and the end of the
    stream, and the bytes it has written are the responses to the
    requests in order: for [/echo] the head with the Content-Length of
    the request body and then that body; for [/sheep] the chunked head,
    the hundred chunks and the chunk-end marker; for any other target
    the head with [Content-Length: 13] and [hello world.].  The body of a
    request that is not echoed is skipped. *)
Theorem requests_answered_in_order
        (qs : list Request) (ds : list bytes) (fuel : nat) :
  Forall wellFramed qs -> liveStream ds ->
  List.concat ds = List.concat (map wire qs) ->
  (List.length ds + List.length qs
   + Z.to_nat (blen (List.concat ds)) + 103 <= fuel)%nat ->
  exists w',
    serveClient fuel (connOf ds) = (Ret tt, w') /\
    List.concat (written w') = List.concat (map responseTo qs) /\
    reads (conn w') = S (List.length ds).
Proof.
  intros Hqs Hlive Hstream Hfuel.
  assert (Hwf0 : wf emptyBuf) by (unfold wf, capacity; cbn; lia).
  destruct (loop_requests readerFromReq handleReq writeHTTPResp serveLoop responseTo qs
                          serveLoop_isLoop turn_one_request Hqs
                          fuel ds emptyBuf 0 [] [] Hwf0 Hlive Hstream Hfuel)
    as (w' & Hrun & Hcat & Hr).
  exists w'. split; [exact Hrun|]. split; [exact Hcat|exact Hr].
Qed.

Lemma requests_answered_in_order_witness :
  exists w',
    serveClient 200
      (connOf [B "GET / HTTP/1.1" ++ CRLF ++ B "Host";
               B ": a" ++ CRLF ++ CRLF ++ B "POST /echo HTTP/1.1" ++ CRLF
                 ++ B "Content-Length: 2" ++ CRLF ++ CRLF ++ B "h";
               B "i"])
    = (Ret tt, w') /\
    List.concat (written w')
    = (helloHead ++ helloBody) ++ (echoHead 2 ++ B "hi").
Proof.
  destruct (requests_answered_in_order
              [mkRequest (B "GET") (B "/") (B "HTTP/1.1") [(B "Host", B "a")] [];
               mkRequest (B "POST") (B "/echo") (B "HTTP/1.1")
                         [(B "Content-Length", B "2")] (B "hi")]
              [B "GET / HTTP/1.1" ++ CRLF ++ B "Host";
               B ": a" ++ CRLF ++ CRLF ++ B "POST /echo HTTP/1.1" ++ CRLF
                 ++ B "Content-Length: 2" ++ CRLF ++ CRLF ++ B "h";
               B "i"] 200)
    as (w' & Hrun & Hcat & _).
  - constructor; [|constructor; [|constructor]].
    + unfold wellFramed. cbn [qMethod qUri qVersion qFields qBody].
      split; [cbv; intuition discriminate|].
      split; [cbv; intuition discriminate|].
      split; [cbv; intuition discriminate|].
      split; [cbv; intuition discriminate|].
      split; [cbv; intuition discriminate|].
      split; [repeat constructor; cbv; intuition discriminate|].
      split; [vm_compute; discriminate|].
      split; reflexivity.
    + unfold wellFramed. cbn [qMethod qUri qVersion qFields qBody].
      split; [cbv; intuition discriminate|].
      split; [cbv; intuition discriminate|].
      split; [cbv; intuition discriminate|].
      split; [cbv; intuition discriminate|].
      split; [cbv; intuition discriminate|].
      split; [repeat constructor; cbv; intuition discriminate|].
      split; [vm_compute; discriminate|].
      exists (B "Content-Length"). reflexivity.
  - repeat constructor; discriminate.
  - reflexivity.
  - vm_compute. lia.
  - exists w'. split; [exact Hrun|]. rewrite Hcat.
    cbn [map List.concat responseTo]. now rewrite app_nil_r.
Defined.

(** ** Decoding a chunked body *)

Lemma isDigit_not_CR (c : byte) : isDigit c -> c <> CR.
Proof.
  intros (k & Hk & ->) E.
  destruct (digit_facts k Hk) as (Hval & _). cbv zeta in Hval.
  rewrite E in Hval. discriminate.
Qed.

Lemma numToString_noCR (n : Z) : 0 <= n -> ~ In CR (numToString 10 n).
Proof.
  intros Hn Hin. unfold numToString in Hin.
  destruct (n <? 0) eqn:E; [apply Z.ltb_lt in E; lia|].
  pose proof (digitsOf_digits (S (Z.to_nat (Z.log2 n))) n [] (Forall_nil _)) as Hd.
  rewrite Forall_forall in Hd. now apply (isDigit_not_CR CR (Hd CR Hin)).
Qed.

Lemma firstn_blen (a b : bytes) : firstn (Z.to_nat (blen a)) (a ++ b) = a.
Proof.
  replace (Z.to_nat (blen a)) with (List.length a) by (unfold blen; lia).
  now rewrite firstn_app, Nat.sub_diag, firstn_all, firstn_O, app_nil_r.
Qed.

Lemma skipn_blen (a b : bytes) : skipn (Z.to_nat (blen a)) (a ++ b) = b.
Proof.
  replace (Z.to_nat (blen a)) with (List.length a) by (unfold blen; lia).
  now rewrite skipn_app, Nat.sub_diag, skipn_all, skipn_O.
Qed.

(** Taking a prefix off the front of a well-formed buffer. *)
Lemma take_front (b : DynBuf) (a rest : bytes) :
  wf b -> window b = a ++ rest ->
  Buf.subarray (data b) 0 (blen a) = a /\
  wf (bufPop b (blen a)) /\ window (bufPop b (blen a)) = rest /\
  length (bufPop b (blen a)) = blen rest.
Proof.
  intros Hwf Hw.
  pose proof (blen_window b Hwf) as Hl. rewrite Hw, blen_app in Hl.
  pose proof (blen_nonneg a). pose proof (blen_nonneg rest).
  assert (Hle : 0 <= blen a <= length b) by lia.
  destruct (bufPop_wf b (blen a) Hwf Hle) as (Hwf' & Hlen' & _ & Hwin').
  split; [rewrite (firstn_window b (blen a) Hwf Hle), Hw; apply firstn_blen|].
  split; [exact Hwf'|]. split; [rewrite Hwin', Hw; apply skipn_blen|lia].
Qed.

(** From the head of the loop, with a whole chunk buffered. *)
Lemma readChunks_loop_chunk (f : nat) (c : Conn) (d more : bytes) :
  wf (buf c) -> d <> [] -> window (buf c) = decFrame d ++ more ->
  exists b',
    readChunks_loop (S f) c = (Ret (Some d, ChunksYield 0), setBuf b' c) /\
    wf b' /\ window b' = CRLF ++ more.
Proof.
  intros Hwf Hd Hw. apply bytes_nonempty in Hd.
  set (n := blen d) in *. set (sz := numToString 10 n).
  unfold decFrame in Hw. fold n sz in Hw. rewrite <- !app_assoc in Hw.
  assert (Hidx : Buf.indexOf (window (buf c)) CRLF = blen sz).
  { rewrite Hw. apply indexOf_CRLF_first. apply numToString_noCR. lia. }
  pose proof (blen_nonneg sz) as Hsz.
  (* the size line *)
  assert (Hw1 : window (buf c) = (sz ++ CRLF) ++ d ++ CRLF ++ more)
    by (rewrite Hw, <- app_assoc; reflexivity).
  destruct (take_front (buf c) sz _ Hwf Hw) as (Hline & _).
  destruct (take_front (buf c) (sz ++ CRLF) _ Hwf Hw1) as (_ & Hwf1 & Hwin1 & Hlen1).
  assert (Hb : blen (sz ++ CRLF) = blen sz + 2)
    by (rewrite blen_app; reflexivity).
  rewrite Hb in Hwf1, Hwin1, Hlen1.
  set (b1 := bufPop (buf c) (blen sz + 2)) in *.
  (* the data *)
  destruct (take_front b1 d _ Hwf1 Hwin1) as (Hdata & Hwf2 & Hwin2 & _).
  fold n in Hdata, Hwf2, Hwin2.
  exists (bufPop b1 n). split; [|split; [exact Hwf2|exact Hwin2]].
  cbn [readChunks_loop]. unfold bind at 1, getBuf at 1.
  rewrite Hidx. destruct (blen sz <? 0) eqn:E; [apply Z.ltb_lt in E; lia|].
  rewrite Hline.
  assert (Hparse : parseDec_utf8 sz = Some n).
  { pose proof (proj2 (parseDec_numToString_aux n [] ltac:(lia) I)) as H.
    now rewrite app_nil_r in H. }
  rewrite Hparse. unfold bind at 1, bufPopM at 1. fold b1.
  destruct (0 <? n) eqn:E2; [|apply Z.ltb_ge in E2; lia].
  unfold readChunks_body, bind, getBuf, ret, bufPopM, setBuf.
  cbn [buf incoming reads].
  assert (Hl1 : length b1 = n + blen (CRLF ++ more))
    by (rewrite Hlen1, blen_app; reflexivity).
  pose proof (blen_nonneg (CRLF ++ more)).
  destruct (length b1 =? 0) eqn:E3; [apply Z.eqb_eq in E3; lia|].
  cbn [buf incoming reads].
  rewrite Z.min_l by lia. rewrite Hdata, Z.sub_diag. reflexivity.
Qed.

(** From the head of the loop, with the last chunk buffered. *)
Lemma readChunks_loop_last (f : nat) (c : Conn) (rest : bytes) :
  wf (buf c) -> window (buf c) = lastChunk ++ rest ->
  exists b',
    readChunks_loop (S f) c = (Ret (None, GenDone), setBuf b' c) /\
    wf b' /\ window b' = rest.
Proof.
  intros Hwf Hw.
  assert (Hw0 : window (buf c) = B "0" ++ CRLF ++ CRLF ++ rest)
    by (rewrite Hw; reflexivity).
  assert (Hw1 : window (buf c) = (B "0" ++ CRLF) ++ CRLF ++ rest)
    by (rewrite Hw; reflexivity).
  assert (Hidx : Buf.indexOf (window (buf c)) CRLF = 1).
  { rewrite Hw0. apply (indexOf_CRLF_first (B "0")). cbv. intuition discriminate. }
  destruct (take_front (buf c) (B "0") _ Hwf Hw0) as (Hline & _).
  destruct (take_front (buf c) (B "0" ++ CRLF) _ Hwf Hw1) as (_ & Hwf1 & Hwin1 & _).
  change (blen (B "0")) with 1 in Hline.
  change (blen (B "0" ++ CRLF)) with (1 + 2) in Hwf1, Hwin1.
  set (b1 := bufPop (buf c) (1 + 2)) in *.
  destruct (take_front b1 CRLF _ Hwf1 Hwin1) as (_ & Hwf2 & Hwin2 & _).
  change (blen CRLF) with 2 in Hwf2, Hwin2.
  exists (bufPop b1 2). split; [|split; [exact Hwf2|exact Hwin2]].
  cbn [readChunks_loop]. unfold bind at 1, getBuf at 1.
  rewrite Hidx. cbn [Z.ltb Z.compare]. rewrite Hline.
  change (parseDec_utf8 (B "0")) with (Some 0).
  unfold bind, bufPopM, ret, setBuf. cbn [buf incoming reads Z.ltb Z.eqb Z.compare].
  reflexivity.
Qed.

Lemma read_generator (fuel ref : nat) (w : World) (len0 : Z) (g g' : Gen)
      (v : option bytes) (c' : Conn) :
  nth_error (heap w) ref = Some (mkReader len0 (Generator g)) ->
  genNext fuel g (conn w) = (Ret (v, g'), c') ->
  read fuel ref w
  = (Ret (match v with Some d => d | None => [] end),
     mkWorld c' (written w) (setNth (heap w) ref (mkReader len0 (Generator g')))).
Proof.
  intros Hnth Hg. unfold read. rewrite Hnth. cbn [rstate rlength readState].
  rewrite Hg. destruct v; reflexivity.
Qed.

(** Reading a whole chunked body that is already buffered, from the
    head of the loop or from the suspension after a chunk. *)
Lemma readAll_chunks (ref : nat) (len0 : Z) (rest : bytes) :
  forall (chunks : list bytes) (fuel : nat) (w : World) (g : Gen),
    Forall (fun d => d <> []) chunks ->
    nth_error (heap w) ref = Some (mkReader len0 (Generator g)) ->
    wf (buf (conn w)) ->
    (g = ChunksStart /\
     window (buf (conn w))
     = List.concat (map decFrame chunks) ++ lastChunk ++ rest) \/
    (g = ChunksYield 0 /\
     window (buf (conn w))
     = CRLF ++ List.concat (map decFrame chunks) ++ lastChunk ++ rest) ->
    (List.length chunks + 2 <= fuel)%nat ->
    exists b',
      readAll fuel ref w
      = (Ret chunks,
         mkWorld (setBuf b' (conn w)) (written w)
                 (setNth (heap w) ref (mkReader len0 (Generator GenDone)))) /\
      wf b' /\ window b' = rest.
Proof.
  induction chunks as [|d chunks IH]; intros fuel w g Hne Hnth Hwf Hstate Hfuel;
    (destruct fuel as [|[|f]]; [cbn [List.length] in Hfuel; lia
                               |cbn [List.length] in Hfuel; lia|]).
  - (* only the last chunk is left *)
    cbn [map List.concat app] in Hstate.
    assert (Hnext : exists b',
               genNext (S f) g (conn w) = (Ret (None, GenDone), setBuf b' (conn w)) /\
               wf b' /\ window b' = rest).
    { destruct Hstate as [[-> Hw]|[-> Hw]].
      - apply readChunks_loop_last; assumption.
      - destruct (take_front (buf (conn w)) CRLF _ Hwf Hw) as (_ & Hwf1 & Hwin1 & _).
        change (blen CRLF) with 2 in Hwf1, Hwin1.
        destruct (readChunks_loop_last f (setBuf (bufPop (buf (conn w)) 2) (conn w)) rest)
          as (b' & Hrun & Hwf' & Hwin'); [exact Hwf1|exact Hwin1|].
        exists b'. split; [|split; [exact Hwf'|exact Hwin']].
        cbn [genNext Z.ltb Z.compare]. unfold bind, bufPopM.
        rewrite Hrun. reflexivity. }
    destruct Hnext as (b' & Hnext & Hwf' & Hwin').
    exists b'. split; [|split; [exact Hwf'|exact Hwin']].
    cbn [readAll]. unfold bind.
    rewrite (read_generator (S f) ref w len0 g GenDone None _ Hnth Hnext).
    reflexivity.
  - pose proof (Forall_inv Hne) as Hd. cbv beta in Hd.
    pose proof (Forall_inv_tail Hne) as Hne'.
    cbn [map List.concat] in Hstate. rewrite <- !app_assoc in Hstate.
    assert (Hnext : exists b1,
               genNext (S f) g (conn w)
               = (Ret (Some d, ChunksYield 0), setBuf b1 (conn w)) /\
               wf b1 /\
               window b1
               = CRLF ++ List.concat (map decFrame chunks) ++ lastChunk ++ rest).
    { destruct Hstate as [[-> Hw]|[-> Hw]].
      - apply readChunks_loop_chunk; assumption.
      - destruct (take_front (buf (conn w)) CRLF _ Hwf Hw) as (_ & Hwf1 & Hwin1 & _).
        change (blen CRLF) with 2 in Hwf1, Hwin1.
        destruct (readChunks_loop_chunk f (setBuf (bufPop (buf (conn w)) 2) (conn w))
                                        d _ Hwf1 Hd Hwin1)
          as (b1 & Hrun & Hwf' & Hwin').
        exists b1. split; [|split; [exact Hwf'|exact Hwin']].
        cbn [genNext Z.ltb Z.compare]. unfold bind, bufPopM.
        rewrite Hrun. reflexivity. }
    destruct Hnext as (b1 & Hnext & Hwf1 & Hwin1).
    destruct (IH (S f)
                 (mkWorld (setBuf b1 (conn w)) (written w)
                          (setNth (heap w) ref (mkReader len0 (Generator (ChunksYield 0)))))
                 (ChunksYield 0) Hne')
      as (b' & Hall & Hwf' & Hwin').
    { cbn [heap]. eapply nth_error_setNth, Hnth. }
    { exact Hwf1. }
    { right. split; [reflexivity|exact Hwin1]. }
    { cbn [List.length] in Hfuel. lia. }
    exists b'. split; [|split; [exact Hwf'|exact Hwin']].
    cbn [readAll]. unfold bind at 1.
    rewrite (read_generator (S f) ref w len0 g (ChunksYield 0) (Some d) _ Hnth Hnext).
    apply bytes_nonempty in Hd.
    destruct (blen d =? 0) eqn:E; [apply Z.eqb_eq in E; lia|].
    erewrite bind_Ret by exact Hall.
    cbn [conn written heap]. unfold setBuf. cbn [incoming reads].
    now rewrite setNth_setNth.
Qed.

(** X18. The chunked-body reader over a buffer that already holds a
    whole chunked body: non-empty chunks, each written as its size in
    decimal, CRLF, the data, CRLF, and then [0], CRLF, CRLF.  Read to its
    end, the reader yields exactly the chunks, in order, without reading
    from the connection; it leaves in the buffer what follows the body,
    and the generator finished. *)
Theorem chunked_body_decoded
        (ref : nat) (len0 : Z) (chunks : list bytes) (rest : bytes)
        (fuel : nat) (w : World) :
  Forall (fun d => d <> []) chunks ->
  nth_error (heap w) ref = Some (mkReader len0 (Generator ChunksStart)) ->
  wf (buf (conn w)) ->
  window (buf (conn w)) = List.concat (map decFrame chunks) ++ lastChunk ++ rest ->
  (List.length chunks + 2 <= fuel)%nat ->
  exists w',
    readAll fuel ref w = (Ret chunks, w') /\
    window (buf (conn w')) = rest /\
    incoming (conn w') = incoming (conn w) /\
    reads (conn w') = reads (conn w) /\
    written w' = written w /\
    nth_error (heap w') ref = Some (mkReader len0 (Generator GenDone)).
Proof.
  intros Hne Hnth Hwf Hw Hfuel.
  destruct (readAll_chunks ref len0 rest chunks fuel w ChunksStart Hne Hnth Hwf
                           (or_introl (conj eq_refl Hw)) Hfuel)
    as (b' & Hall & _ & Hwin').
  eexists. split; [exact Hall|]. cbn [conn written heap buf setBuf incoming reads].
  split; [exact Hwin'|]. split; [reflexivity|]. split; [reflexivity|].
  split; [reflexivity|]. eapply nth_error_setNth, Hnth.
Qed.

Lemma chunked_body_decoded_witness :
  exists w',
    readAll 4 0
      (mkWorld (mkConn [] 0
                  (bufOf (B "5" ++ CRLF ++ B "hello" ++ CRLF
                            ++ B "12" ++ CRLF ++ B ", chunked me" ++ CRLF
                            ++ B "0" ++ CRLF ++ CRLF ++ B "GET") 64))
               [] [readerFromGenerator ChunksStart])
    = (Ret [B "hello"; B ", chunked me"], w') /\
    window (buf (conn w')) = B "GET".
Proof.
  destruct (chunked_body_decoded 0 (-1) [B "hello"; B ", chunked me"] (B "GET") 4
              (mkWorld (mkConn [] 0
                  (bufOf (B "5" ++ CRLF ++ B "hello" ++ CRLF
                            ++ B "12" ++ CRLF ++ B ", chunked me" ++ CRLF
                            ++ B "0" ++ CRLF ++ CRLF ++ B "GET") 64))
               [] [readerFromGenerator ChunksStart]))
    as (w' & Hall & Hwin & _).
  - repeat constructor; discriminate.
  - reflexivity.
  - unfold wf, capacity. vm_compute. split; discriminate.
  - vm_compute. reflexivity.
  - cbn. lia.
  - exists w'. split; [exact Hall|exact Hwin].
Defined.

(** ** The socket wrapper *)

(** The state of a run that follows the protocol. *)
Definition sockInv (r : Socket.Run) : Prop :=
  (Socket.flowing (Socket.tcp r) = true ->
   Socket.ended (Socket.tcp r) = false ->
   Socket.err (Socket.tcp r) = None ->
   Socket.reader (Socket.tcp r) <> None) /\
  NoDup (map Socket.promiseOf (Socket.log r)) /\
  (forall p, In p (map Socket.promiseOf (Socket.log r)) -> (p < Socket.next r)%nat) /\
  (forall p, Socket.reader (Socket.tcp r) = Some p ->
             (p < Socket.next r)%nat /\
             ~ In p (map Socket.promiseOf (Socket.log r))) /\
  (List.length (Socket.log r)
   + (match Socket.reader (Socket.tcp r) with Some _ => 1 | None => 0 end)
   = Socket.next r)%nat.

Lemma NoDup_snoc (l : list nat) (x : nat) :
  NoDup l -> ~ In x l -> NoDup (l ++ [x]).
Proof.
  intros Hl Hx. induction Hl as [|y l Hy Hl IH]; cbn [app].
  - constructor; [intros []|constructor].
  - constructor.
    + intros Hin. apply in_app_or in Hin as [Hin|[<-|[]]]; [contradiction|].
      apply Hx. now left.
    + apply IH. intros Hin. apply Hx. now right.
Qed.

Lemma sockInv_act (a : Socket.Act) (r : Socket.Run) :
  sockInv r -> Socket.allowed a (Socket.tcp r) ->
  exists r', Socket.act a r = Ret r' /\ sockInv r'.
Proof.
  intros (Hflow & Hnd & Hlt & Hrd & Hcount) Hal.
  destruct r as [[e en rd fl] nx lg]. cbn [Socket.tcp Socket.next Socket.log
    Socket.err Socket.ended Socket.reader Socket.flowing] in *.
  destruct a as [|d| |e']; cbn [Socket.allowed Socket.reader Socket.flowing
    Socket.ended Socket.err] in Hal.
  - (* a read *)
    subst rd. unfold Socket.act, Socket.soRead.
    cbn [Socket.tcp Socket.next Socket.log Socket.err Socket.ended].
    assert (Hfresh : ~ In nx (map Socket.promiseOf lg)).
    { intros Hin. apply Hlt in Hin. lia. }
    destruct e as [e|]; [|destruct en].
    + eexists. split; [reflexivity|]. unfold sockInv.
      cbn [Socket.tcp Socket.next Socket.log Socket.err Socket.ended
           Socket.reader Socket.flowing].
      rewrite map_app, length_app. cbn [map Socket.promiseOf List.length].
      split; [discriminate|]. split; [now apply NoDup_snoc|].
      split.
      { intros p Hin. apply in_app_or in Hin as [Hin|[<-|[]]]; [apply Hlt in Hin|]; lia. }
      split; [discriminate|lia].
    + eexists. split; [reflexivity|]. unfold sockInv.
      cbn [Socket.tcp Socket.next Socket.log Socket.err Socket.ended
           Socket.reader Socket.flowing].
      rewrite map_app, length_app. cbn [map Socket.promiseOf List.length].
      split; [discriminate|]. split; [now apply NoDup_snoc|].
      split.
      { intros p Hin. apply in_app_or in Hin as [Hin|[<-|[]]]; [apply Hlt in Hin|]; lia. }
      split; [discriminate|lia].
    + eexists. split; [reflexivity|]. unfold sockInv.
      cbn [Socket.tcp Socket.next Socket.log Socket.err Socket.ended
           Socket.reader Socket.flowing].
      rewrite app_nil_r.
      split; [discriminate|]. split; [exact Hnd|].
      split; [intros p Hin; apply Hlt in Hin; lia|].
      split; [intros p [= <-]; split; [lia|exact Hfresh]|lia].
  - (* data *)
    destruct Hal as (-> & -> & ->).
    destruct rd as [p|]; [|exfalso; now apply Hflow].
    destruct (Hrd p eq_refl) as [Hp Hnew].
    eexists. split; [reflexivity|]. unfold sockInv.
    cbn [Socket.tcp Socket.next Socket.log Socket.err Socket.ended
         Socket.reader Socket.flowing].
    rewrite map_app, length_app. cbn [map Socket.promiseOf List.length].
    split; [discriminate|]. split; [now apply NoDup_snoc|].
    split.
    { intros q Hin. apply in_app_or in Hin as [Hin|[<-|[]]]; [now apply Hlt|exact Hp]. }
    split; [discriminate|lia].
  - (* the end of the stream *)
    destruct Hal as (-> & -> & ->).
    destruct rd as [p|]; [|exfalso; now apply Hflow].
    destruct (Hrd p eq_refl) as [Hp Hnew].
    eexists. split; [reflexivity|]. unfold sockInv.
    cbn [Socket.tcp Socket.next Socket.log Socket.err Socket.ended
         Socket.reader Socket.flowing].
    rewrite map_app, length_app. cbn [map Socket.promiseOf List.length].
    split; [discriminate|]. split; [now apply NoDup_snoc|].
    split.
    { intros q Hin. apply in_app_or in Hin as [Hin|[<-|[]]]; [now apply Hlt|exact Hp]. }
    split; [discriminate|lia].
  - (* an error *)
    subst e. destruct rd as [p|].
    + destruct (Hrd p eq_refl) as [Hp Hnew].
      eexists. split; [reflexivity|]. unfold sockInv.
      cbn [Socket.tcp Socket.next Socket.log Socket.err Socket.ended
           Socket.reader Socket.flowing].
      rewrite map_app, length_app. cbn [map Socket.promiseOf List.length].
      split; [discriminate|]. split; [now apply NoDup_snoc|].
      split.
      { intros q Hin. apply in_app_or in Hin as [Hin|[<-|[]]]; [now apply Hlt|exact Hp]. }
      split; [discriminate|lia].
    + eexists. split; [reflexivity|]. unfold sockInv.
      cbn [Socket.tcp Socket.next Socket.log Socket.err Socket.ended
           Socket.reader Socket.flowing].
      rewrite app_nil_r.
      split; [discriminate|]. split; [exact Hnd|].
      split; [exact Hlt|]. split; [discriminate|exact Hcount].
Qed.

Lemma sockInv_start : sockInv Socket.start.
Proof.
  unfold sockInv, Socket.start, Socket.soInit.
  cbn [Socket.tcp Socket.next Socket.log Socket.err Socket.ended
       Socket.reader Socket.flowing map List.length].
  split; [discriminate|]. split; [constructor|].
  split; [intros p []|]. split; [discriminate|reflexivity].
Qed.

Lemma sockInv_run (acts : list Socket.Act) :
  forall r, sockInv r -> Socket.inProtocol r acts ->
            exists r', Socket.run acts r = Ret r' /\ sockInv r'.
Proof.
  induction acts as [|a acts IH]; intros r Hinv Hp.
  - exists r. split; [reflexivity|exact Hinv].
  - cbn [Socket.inProtocol] in Hp. destruct Hp as [Hal Hrest].
    destruct (sockInv_act a r Hinv Hal) as (r1 & Hact & Hinv1).
    rewrite Hact in Hrest. cbn [Socket.run]. rewrite Hact.
    apply IH; assumption.
Qed.

(** X19. The socket wrapper under its protocol: the application starts
    a read only when none is pending, and the socket emits data or the
    end of the stream only while it is flowing, before the end and
    before any error.  Then, whatever the order of reads and events, no
    handler fails (the data handler always finds a reader), every
    promise returned by [soRead] is either settled once or is the one
    pending read, and no promise is settled twice. *)
Theorem socket_wrapper_settles_once (acts : list Socket.Act) :
  Socket.inProtocol Socket.start acts ->
  exists r,
    Socket.run acts Socket.start = Ret r /\
    NoDup (map Socket.promiseOf (Socket.log r)) /\
    (forall p, In p (map Socket.promiseOf (Socket.log r)) -> (p < Socket.next r)%nat) /\
    (forall p, Socket.reader (Socket.tcp r) = Some p ->
               (p < Socket.next r)%nat /\
               ~ In p (map Socket.promiseOf (Socket.log r))) /\
    (List.length (Socket.log r)
     + (match Socket.reader (Socket.tcp r) with Some _ => 1 | None => 0 end)
     = Socket.next r)%nat.
Proof.
  intros Hp.
  destruct (sockInv_run acts Socket.start sockInv_start Hp)
    as (r & Hrun & _ & Hnd & Hlt & Hrd & Hcount).
  exists r. split; [exact Hrun|]. split; [exact Hnd|].
  split; [exact Hlt|]. split; [exact Hrd|exact Hcount].
Qed.

Lemma socket_wrapper_settles_once_witness :
  exists r,
    Socket.run [Socket.Read; Socket.Data (B "a"); Socket.Fail (Error "reset");
                Socket.Read]
               Socket.start = Ret r /\
    Socket.log r = [Socket.Resolve 0 (B "a"); Socket.Reject 1 (Error "reset")].
Proof.
  destruct (socket_wrapper_settles_once
              [Socket.Read; Socket.Data (B "a"); Socket.Fail (Error "reset");
               Socket.Read])
    as (r & Hrun & _).
  - cbn. repeat split.
  - exists r. split; [exact Hrun|].
    cbn in Hrun. injection Hrun as <-. reflexivity.
Defined.

(** Awaited reads, one after the other. *)
Lemma awaitReads_deliveries (n : nat) :
  forall (ds : list bytes) (r : Socket.Run) (b : DynBuf) (k : nat),
    Socket.reader (Socket.tcp r) = None ->
    Socket.err (Socket.tcp r) = None ->
    (Socket.ended (Socket.tcp r) = true -> ds = []) ->
    exists r' ds',
      Socket.awaitReads n r ds = Ret (r', ds') /\
      Socket.log r'
      = Socket.log r
          ++ map (fun i => Socket.Resolve (Socket.next r + i) (nth i ds []))
                 (seq 0 n) /\
      map (fun i => nth i ds []) (seq 0 n) = readN n (mkConn ds k b).
Proof.
  induction n as [|n IH]; intros ds r b k Hrd Herr Hend.
  - exists r, ds. split; [reflexivity|]. split; [now rewrite app_nil_r|reflexivity].
  - destruct r as [[e en rd fl] nx lg]. cbn [Socket.tcp Socket.next Socket.log
      Socket.err Socket.ended Socket.reader Socket.flowing] in *.
    subst rd e.
    cbn [Socket.awaitReads]. unfold Socket.awaitRead, Socket.act, Socket.soRead.
    cbn [Socket.tcp Socket.next Socket.log Socket.err Socket.ended
         Socket.reader Socket.flowing].
    cbn [seq map]. rewrite <- seq_shift, !map_map.
    destruct en.
    + (* after the end: settled at once *)
      rewrite (Hend eq_refl).
      cbn [Socket.tcp Socket.reader].
      destruct (IH [] (Socket.mkRun (Socket.mkTCP None true None fl) (S nx)
                                    (lg ++ [Socket.Resolve nx []])) b (S k))
        as (r' & ds' & Hrun & Hlog & Hreads); try reflexivity.
      exists r', ds'. split; [exact Hrun|].
      cbn [Socket.log Socket.next] in Hlog.
      split.
      * rewrite Hlog, <- app_assoc. cbn [app nth]. rewrite Nat.add_0_r.
        do 2 f_equal. apply map_ext. intros i.
        replace (S nx + i)%nat with (nx + S i)%nat by lia.
        now destruct i.
      * cbn [readN soRead incoming reads buf nth]. f_equal.
        rewrite <- Hreads. apply map_ext. intros i. now destruct i.
    + cbn [Socket.tcp Socket.reader]. destruct ds as [|d ds].
      * (* the peer has closed: the end event resolves the read *)
        unfold Socket.onEnd.
        cbn [Socket.tcp Socket.next Socket.log Socket.err Socket.ended
             Socket.reader Socket.flowing].
        destruct (IH [] (Socket.mkRun (Socket.mkTCP None true None true) (S nx)
                                      ((lg ++ []) ++ [Socket.Resolve nx []])) b (S k))
          as (r' & ds' & Hrun & Hlog & Hreads); try reflexivity.
        exists r', ds'. split; [exact Hrun|].
        cbn [Socket.log Socket.next] in Hlog.
        split.
        -- rewrite Hlog, app_nil_r, <- app_assoc. cbn [app nth]. rewrite Nat.add_0_r.
           do 2 f_equal. apply map_ext. intros i.
           replace (S nx + i)%nat with (nx + S i)%nat by lia.
           now destruct i.
        -- cbn [readN soRead incoming reads buf nth]. f_equal.
           rewrite <- Hreads. apply map_ext. intros i. now destruct i.
      * (* the next delivery resolves the read *)
        unfold Socket.onData.
        cbn [Socket.tcp Socket.next Socket.log Socket.err Socket.ended
             Socket.reader Socket.flowing].
        destruct (IH ds (Socket.mkRun (Socket.mkTCP None false None false) (S nx)
                                      ((lg ++ []) ++ [Socket.Resolve nx d])) b (S k))
          as (r' & ds' & Hrun & Hlog & Hreads); try reflexivity.
        { discriminate. }
        exists r', ds'. split; [exact Hrun|].
        cbn [Socket.log Socket.next] in Hlog.
        split.
        -- rewrite Hlog, app_nil_r, <- app_assoc. cbn [app nth]. rewrite Nat.add_0_r.
           do 2 f_equal. apply map_ext. intros i.
           replace (S nx + i)%nat with (nx + S i)%nat by lia. reflexivity.
        -- cbn [readN soRead incoming reads buf nth]. f_equal. exact Hreads.
Qed.

(** X20. Reads awaited one after the other on a fresh wrapper, against
    a peer that sends the deliveries [ds] and then closes: the i-th read
    is resolved, never rejected, with the i-th delivery, and with the
    empty buffer once the deliveries are exhausted; no handler fails.
    These are the results of [soRead] on the receiving side
    [mkConn ds], which is how the servers see the connection. *)
Theorem awaited_reads_follow_the_stream
        (n : nat) (ds : list bytes) (b : DynBuf) (k : nat) :
  exists r ds',
    Socket.awaitReads n Socket.start ds = Ret (r, ds') /\
    Socket.log r = map (fun i => Socket.Resolve i (nth i ds [])) (seq 0 n) /\
    map (fun i => nth i ds []) (seq 0 n) = readN n (mkConn ds k b).
Proof.
  destruct (awaitReads_deliveries n ds Socket.start b k)
    as (r & ds' & Hrun & Hlog & Hreads); try reflexivity.
  { discriminate. }
  exists r, ds'. split; [exact Hrun|]. split; [exact Hlog|exact Hreads].
Qed.

(** ** The buffer out of contract *)

Lemma bufPush_negative (b : DynBuf) (d : bytes) :
  length b < 0 ->
  exists b', bufPush b d = (Some RangeError, b') /\ length b' = length b.
Proof.
  intros Hneg. unfold bufPush.
  assert (Hc : forall store, Buf.copy d store (length b) = None).
  { intros store. unfold Buf.copy.
    destruct (length b <? 0) eqn:E; [reflexivity|apply Z.ltb_ge in E; lia]. }
  destruct (blen (data b) <? length b + blen d).
  - unfold Buf.copy at 1. cbn [Z.ltb Z.compare].
    destruct (blen (Buf.alloc _) <=? 0);
      rewrite Hc; eexists; split; reflexivity.
  - rewrite Hc. eexists. split; reflexivity.
Qed.

(** X21. An eviction that asks for more bytes than the buffer holds
    leaves it with a negative length, and every later append then fails
    with a [RangeError], whatever is appended; the length stays
    negative. *)
Theorem bufPush_after_overlong_pop (b : DynBuf) (n : Z) (d : bytes) :
  length b < n ->
  length (bufPop b n) = length b - n /\
  exists b',
    bufPush (bufPop b n) d = (Some RangeError, b') /\
    length b' = length b - n.
Proof.
  intros Hn. split; [reflexivity|].
  destruct (bufPush_negative (bufPop b n) d) as (b' & Hpush & Hlen).
  - cbn [bufPop length]. lia.
  - exists b'. split; [exact Hpush|]. rewrite Hlen. reflexivity.
Qed.

Lemma bufPush_after_overlong_pop_witness :
  exists b',
    bufPush (bufPop (bufOf (B "a") 32) 2) (B "hello") = (Some RangeError, b') /\
    length b' = -1.
Proof.
  destruct (bufPush_after_overlong_pop (bufOf (B "a") 32) 2 (B "hello"))
    as (_ & b' & Hpush & Hlen).
  - cbn. lia.
  - exists b'. split; [exact Hpush|exact Hlen].
Defined.

(** ** The server before chunked bodies *)

Lemma http1_readerFromReq_unfold (req : HTTPReq) (w : World) :
  Http1.readerFromReq req w =
  match bodyLenOf (headers req) with
  | None => (Throw (HTTPError 400 "bad Content-Length."), w)
  | Some n =>
      let forbidden := equals (method req) (B "GET") || equals (method req) (B "HEAD") in
      if forbidden && ((0 <? n) || chunkedFlag (headers req))
      then (Throw (HTTPError 400 "HTTP body not allowed."), w)
      else if 0 <=? (if forbidden then 0 else n)
           then newReader (readerFromConnLength (if forbidden then 0 else n)) w
           else (Throw (HTTPError 501 "TODO"), w)
  end.
Proof.
  unfold Http1.readerFromReq, bodyLenOf, chunkedFlag, bind, ret, throw.
  destruct (fieldGet (headers req) (B "Content-Length")) as [cl|].
  - destruct (parseDec cl) as [n|]; [|reflexivity].
    cbv zeta. rewrite negb_involutive.
    destruct (_ && _); [reflexivity|].
    destruct (0 <=? _); [reflexivity|].
    destruct (fieldGet (headers req) (B "Transfer-Encoding")) as [v|]; [|reflexivity].
    destruct (equals v (B "chunked")); reflexivity.
  - cbv zeta. rewrite negb_involutive.
    destruct (_ && _); [reflexivity|].
    destruct (0 <=? _); [reflexivity|].
    destruct (fieldGet (headers req) (B "Transfer-Encoding")) as [v|]; [|reflexivity].
    destruct (equals v (B "chunked")); reflexivity.
Qed.

Lemma http1_writeBody_agrees (ref : nat) :
  forall (fuel : nat) (w : World) (r : BodyReader),
    nth_error (heap w) ref = Some r -> 0 <= rlength r ->
    Http1.writeBody fuel ref w = writeBody fuel ref w.
Proof.
  induction fuel as [|f IH]; intros w r Hr Hpos; [reflexivity|].
  cbn [Http1.writeBody writeBody]. unfold bind at 1 3.
  destruct (read f ref w) as [[d|e|] w1] eqn:Hread; try reflexivity.
  destruct (read_keeps_length f ref w w1 r d Hr Hread) as (r' & Hr' & Hlen).
  erewrite (bind_Ret (lengthOf ref)).
  2:{ unfold lengthOf. rewrite Hr'. reflexivity. }
  rewrite Hlen.
  destruct (rlength r <? 0) eqn:E; [apply Z.ltb_lt in E; lia|].
  destruct (blen d =? 0) eqn:Ed.
  - reflexivity.
  - unfold bind, soWrite. cbn [conn written heap].
    apply (IH _ r'); [exact Hr'|lia].
Qed.

Lemma http1_writeHTTPResp_agrees (fuel : nat) (resp : HTTPRes) (w : World)
      (r : BodyReader) :
  nth_error (heap w) (body resp) = Some r -> 0 <= rlength r ->
  Http1.writeHTTPResp fuel resp w = writeHTTPResp fuel resp w.
Proof.
  intros Hr Hpos.
  assert (Hlen : lengthOf (body resp) w = (Ret (rlength r), w))
    by (unfold lengthOf; now rewrite Hr).
  assert (E : (rlength r <? 0) = false) by (apply Z.ltb_ge; lia).
  unfold Http1.writeHTTPResp, writeHTTPResp.
  rewrite (bind_Ret _ _ _ _ _ Hlen), (bind_Ret _ _ _ _ _ Hlen).
  unfold lengthHeader. rewrite E.
  unfold bind, liftO, soWrite.
  destruct (encodeHTTPResp (code resp) _) as [enc|e|]; cbv beta iota;
    try reflexivity.
  apply (http1_writeBody_agrees (body resp) fuel _ r); [exact Hr|exact Hpos].
Qed.

Lemma http1_readerFromReq_agrees (req : HTTPReq) (w : World) :
  Http1.readerFromReq req w = readerFromReq req w \/
  (Http1.readerFromReq req w = (Throw (HTTPError 501 "TODO"), w) /\
   exists r,
     readerFromReq req w = newReader r w /\
     (r = readerFromConnEOF \/ r = readerFromGenerator ChunksStart)).
Proof.
  rewrite http1_readerFromReq_unfold, readerFromReq_unfold.
  destruct (bodyLenOf (headers req)) as [n|]; [|now left].
  cbv zeta.
  destruct (_ && _); [now left|].
  destruct (0 <=? _); [now left|].
  right. split; [reflexivity|].
  destruct (chunkedFlag (headers req)); eexists; split; try reflexivity; auto.
Qed.

Lemma http1_handleReq_agrees (req : HTTPReq) (ref : nat) (w : World) :
  equals (uri req) (B "/sheep") = false ->
  Http1.handleReq req ref w = handleReq req ref w.
Proof.
  intros Hs. unfold Http1.handleReq, handleReq. rewrite Hs. reflexivity.
Qed.

(** X22. The two HTTP servers, function by function.  On a response
    whose body declares a length that is not negative, the older
    [writeHTTPResp] does exactly what the newer one does; for a negative
    length it fails with "TODO: chunked encoding" before it writes
    anything.  The older [readerFromReq] either does exactly what the
    newer one does, or fails with the status-501 error "TODO" where the
    newer one builds the read-until-close or the chunked reader.  For
    any target but [/sheep] the two handlers do the same. *)
Theorem older_server_agrees_on_known_lengths :
  (forall fuel resp w r,
     nth_error (heap w) (body resp) = Some r -> 0 <= rlength r ->
     Http1.writeHTTPResp fuel resp w = writeHTTPResp fuel resp w) /\
  (forall fuel resp w r,
     nth_error (heap w) (body resp) = Some r -> rlength r < 0 ->
     Http1.writeHTTPResp fuel resp w = (Throw (Error "TODO: chunked encoding"), w)) /\
  (forall req w,
     Http1.readerFromReq req w = readerFromReq req w \/
     (Http1.readerFromReq req w = (Throw (HTTPError 501 "TODO"), w) /\
      exists r,
        readerFromReq req w = newReader r w /\
        (r = readerFromConnEOF \/ r = readerFromGenerator ChunksStart))) /\
  (forall req ref w,
     equals (uri req) (B "/sheep") = false ->
     Http1.handleReq req ref w = handleReq req ref w).
Proof.
  split; [exact http1_writeHTTPResp_agrees|].
  split.
  { intros fuel resp w r Hr Hneg.
    unfold Http1.writeHTTPResp, bind, lengthOf. rewrite Hr.
    apply Z.ltb_lt in Hneg. now rewrite Hneg. }
  split; [exact http1_readerFromReq_agrees|exact http1_handleReq_agrees].
Qed.

Lemma older_server_agrees_on_known_lengths_witness :
  Http1.writeHTTPResp 3%nat (mkRes 200 [] 0%nat)
    (mkWorld (mkConn [] 0%nat emptyBuf) [] [readerFromMemory (B "ok")])
  = writeHTTPResp 3%nat (mkRes 200 [] 0%nat)
      (mkWorld (mkConn [] 0%nat emptyBuf) [] [readerFromMemory (B "ok")]).
Proof.
  apply (proj1 older_server_agrees_on_known_lengths 3%nat (mkRes 200 [] 0%nat)
           (mkWorld (mkConn [] 0%nat emptyBuf) [] [readerFromMemory (B "ok")])
           (readerFromMemory (B "ok"))).
  - reflexivity.
  - cbn. lia.
Defined.

(** One turn of the older server's loop when the buffer holds no whole
    header. *)
Lemma http1_serveLoop_no_header (f : nat) (c : Conn) (out : list bytes)
      (h : list BodyReader) (d : bytes) (rest : list bytes) (b1 : DynBuf) :
  cutMessage (buf c) = (Ret None, buf c) ->
  (incoming c = d :: rest \/ (incoming c = [] /\ d = [] /\ rest = [])) ->
  bufPush (buf c) d = (None, b1) ->
  Http1.serveLoop (S f) (mkWorld c out h) =
    let w1 := mkWorld (mkConn rest (S (reads c)) b1) out h in
    if (blen d =? 0) && (length b1 =? 0) then (Ret tt, w1)
    else if blen d =? 0 then (Throw (HTTPError 400 "Expected EOF."), w1)
         else Http1.serveLoop f w1.
Proof.
  intros Hcut Hin Hpush. cbn [Http1.serveLoop].
  erewrite bind_Ret.
  2:{ apply liftC_mk. unfold cutMessageM. rewrite Hcut, conn_eta. reflexivity. }
  cbv beta iota.
  erewrite bind_Ret.
  2:{ apply liftC_mk. unfold soRead.
      destruct Hin as [Hin|(Hin & -> & ->)]; rewrite Hin; reflexivity. }
  erewrite bind_Ret.
  2:{ apply liftC_mk. unfold bufPushM. cbn [buf]. rewrite Hpush. reflexivity. }
  erewrite bind_Ret.
  2:{ apply liftC_mk. unfold getBuf. reflexivity. }
  unfold setBuf. cbn [buf incoming reads].
  destruct ((blen d =? 0) && (length b1 =? 0)); [reflexivity|].
  destruct (blen d =? 0); reflexivity.
Qed.

Lemma http1_serveLoop_request (f : nat) (c : Conn) (out : list bytes)
      (h : list BodyReader) (req : HTTPReq) (b2 : DynBuf) :
  cutMessage (buf c) = (Ret (Some req), b2) ->
  Http1.serveLoop (S f) (mkWorld c out h)
  = (reqBody <- Http1.readerFromReq req ;;
     res <- Http1.handleReq req reqBody ;;
     Http1.writeHTTPResp f res ;;
     if equals (version req) (B "1.0") then ret tt
     else drain f reqBody ;; Http1.serveLoop f) (mkWorld (setBuf b2 c) out h).
Proof.
  intros Hcut. cbn [Http1.serveLoop].
  erewrite bind_Ret.
  2:{ apply liftC_mk. unfold cutMessageM. rewrite Hcut. reflexivity. }
  reflexivity.
Qed.

Lemma http1_unknown_length
      (m u v : bytes) (kvs : list (bytes * bytes)) (d0 : bytes)
      (ds : list bytes) (fuel : nat) :
  ~ In SP m -> ~ In SP u ->
  ~ In CR m -> ~ In CR u -> ~ In CR v ->
  goodFields kvs ->
  equals m (B "GET") || equals m (B "HEAD") = false ->
  find isContentLength kvs = None ->
  exists w1,
    Http1.serveClient (4 + fuel)
      (connOf ((headerBlock m u v (map fieldOf kvs) ++ d0) :: ds))
    = (Throw (HTTPError 501 "TODO"), w1) /\
    written w1 = [] /\
    exists w2,
      Http1.newConn (4 + fuel)
        (connOf ((headerBlock m u v (map fieldOf kvs) ++ d0) :: ds))
      = (Ret tt, w2) /\
      written w2
      = [B "HTTP/1.1 501 Not Implemented" ++ CRLF
           ++ B "Content-Length: 5" ++ CRLF ++ CRLF;
         B "TODO" ++ [LF]].
Proof.
  intros Hm Hu Hmc Huc Hvc Hgood Hmethod Hfind.
  set (block := headerBlock m u v (map fieldOf kvs)).
  assert (Hwf0 : wf emptyBuf) by (unfold wf, capacity; cbn; lia).
  destruct (bufPush_wf emptyBuf (block ++ d0) Hwf0)
    as (b1 & Hpush & Hwf1 & _ & Hwin1 & _).
  change (window emptyBuf) with (@nil byte) in Hwin1. cbn [app] in Hwin1.
  destruct (cutMessage_block b1 m u v (map fieldOf kvs) d0
                             Hwf1 Hwin1 Hm Hu Hmc Huc Hvc
                             (goodFields_lines kvs Hgood))
    as (b2 & Hcut & _).
  fold (parsedReq m u v kvs) in Hcut.
  set (req := parsedReq m u v kvs) in *.
  assert (Hparse : parseHTTPReq block = Ret req).
  { apply parseHTTPReq_block; try assumption. now apply goodFields_lines. }
  set (w1 := mkWorld (mkConn ds 1 b2) [] []).
  assert (Hserve : Http1.serveClient (4 + fuel) (connOf ((block ++ d0) :: ds))
                   = (Throw (HTTPError 501 "TODO"), w1)).
  { change (Http1.serveClient (4 + fuel) (connOf ((block ++ d0) :: ds)))
      with (Http1.serveLoop (S (S (2 + fuel)))
              (mkWorld (mkConn ((block ++ d0) :: ds) 0 emptyBuf) [] [])).
    rewrite (http1_serveLoop_no_header (S (2 + fuel))
               (mkConn ((block ++ d0) :: ds) 0 emptyBuf) [] [] (block ++ d0) ds b1).
    2:{ cbn [buf]. apply cutMessage_none; [exact no_headerEnd_in_nil|reflexivity]. }
    2:{ left. reflexivity. }
    2:{ exact Hpush. }
    cbv zeta.
    destruct (blen (block ++ d0) =? 0) eqn:E0;
      [apply Z.eqb_eq in E0; now apply headerBlock_nonempty in E0|].
    cbn [andb reads].
    rewrite (http1_serveLoop_request (2 + fuel) (mkConn ds 1 b1) [] [] req b2 Hcut).
    unfold setBuf. cbn [incoming reads]. fold w1.
    eapply bind_Throw.
    rewrite http1_readerFromReq_unfold.
    destruct (bodyLenOf_parsed m u v kvs Hgood) as [_ Hnone].
    fold req in Hnone. rewrite (Hnone Hfind).
    cbv zeta. change (method req) with m. rewrite Hmethod. reflexivity. }
  exists w1. split; [exact Hserve|]. split; [reflexivity|].
  eexists. split.
  - unfold Http1.newConn. rewrite Hserve. reflexivity.
  - reflexivity.
Qed.

(** X23. The older server and a body of unknown length: for a
    well-formed request with a method other than GET and HEAD and no
    Content-Length field, whose header block arrives within the first
    delivery, [serveClient] fails with the status-501 error "TODO"
    without writing anything, and [newConn] answers
    [HTTP/1.1 501 Not Implemented] with [Content-Length: 5] and the body
    [TODO] and a line feed. *)
Theorem older_server_answers_501
        (m u v : bytes) (kvs : list (bytes * bytes)) (d0 : bytes)
        (ds : list bytes) (fuel : nat) :
  ~ In SP m -> ~ In SP u ->
  ~ In CR m -> ~ In CR u -> ~ In CR v ->
  goodFields kvs ->
  equals m (B "GET") || equals m (B "HEAD") = false ->
  find isContentLength kvs = None ->
  exists w1,
    Http1.serveClient (4 + fuel)
      (connOf ((headerBlock m u v (map fieldOf kvs) ++ d0) :: ds))
    = (Throw (HTTPError 501 "TODO"), w1) /\
    written w1 = [] /\
    exists w2,
      Http1.newConn (4 + fuel)
        (connOf ((headerBlock m u v (map fieldOf kvs) ++ d0) :: ds))
      = (Ret tt, w2) /\
      written w2
      = [B "HTTP/1.1 501 Not Implemented" ++ CRLF
           ++ B "Content-Length: 5" ++ CRLF ++ CRLF;
         B "TODO" ++ [LF]].
Proof. apply http1_unknown_length. Qed.

Lemma older_server_answers_501_witness :
  exists w2,
    Http1.newConn 4
      (connOf [headerBlock (B "POST") (B "/echo") (B "HTTP/1.1") [B "Host: a"]
                 ++ B "hello"])
    = (Ret tt, w2) /\
    written w2
    = [B "HTTP/1.1 501 Not Implemented" ++ CRLF
         ++ B "Content-Length: 5" ++ CRLF ++ CRLF;
       B "TODO" ++ [LF]].
Proof.
  destruct (older_server_answers_501 (B "POST") (B "/echo") (B "HTTP/1.1")
              [(B "Host", B "a")] (B "hello") [] 0)
    as (_ & _ & _ & w2 & Hrun & Hout).
  - cbv; intuition discriminate.
  - cbv; intuition discriminate.
  - cbv; intuition discriminate.
  - cbv; intuition discriminate.
  - cbv; intuition discriminate.
  - repeat constructor; cbv; intuition discriminate.
  - reflexivity.
  - reflexivity.
  - exists w2. split; [exact Hrun|exact Hout].
Defined.

(** ** A body cut short *)





(** ** A header line without a colon *)






(** ** The older server, request after request *)

Lemma http1_isLoop :
  isLoopOf Http1.readerFromReq Http1.handleReq Http1.writeHTTPResp Http1.serveLoop.
Proof. intros f w. reflexivity. Qed.

Lemma http1_readerFromReq_wellFramed (q : Request) (w : World) :
  wellFramed q ->
  Http1.readerFromReq (parsedReq (qMethod q) (qUri q) (qVersion q) (qFields q)) w
  = (Ret (List.length (heap w)),
     mkWorld (conn w) (written w)
             (heap w ++ [readerFromConnLength (blen (qBody q))])).
Proof.
  intros Hq. destruct (readerFromReq_wellFramed q w Hq) as [_ Hreader].
  cbv zeta in Hreader.
  destruct (http1_readerFromReq_agrees
              (parsedReq (qMethod q) (qUri q) (qVersion q) (qFields q)) w)
    as [Hsame|(_ & r & Hnew & Hr)].
  - now rewrite Hsame.
  - exfalso. rewrite Hreader in Hnew. unfold newReader in Hnew.
    injection Hnew as Hheap. apply app_inv_head in Hheap.
    injection Hheap as Hr'. destruct Hr as [-> | ->]; discriminate.
Qed.

(** One turn of the older server on a buffer that starts with the whole
    header of a well-framed request. *)
Lemma http1_turn_one_request :
  answers Http1.readerFromReq Http1.handleReq Http1.writeHTTPResp responseTo1.
Proof.
  intros q tail f again ds r b rest out h Hq Hwf Hlive Hwin Hstream Hf1 Hf2.
  pose proof Hq as (Hm & Hu & Hmc & Huc & Hvc & Hgood & _ & _).
  set (n := blen (qBody q)) in *.
  assert (Hn : 0 <= n) by apply blen_nonneg.
  destruct (cutMessage_block b (qMethod q) (qUri q) (qVersion q)
                             (map fieldOf (qFields q)) rest
                             Hwf Hwin Hm Hu Hmc Huc Hvc (goodFields_lines _ Hgood))
    as (b2 & Hcut & Hwf2 & Hwin2 & _).
  fold (parsedReq (qMethod q) (qUri q) (qVersion q) (qFields q)) in Hcut.
  set (req := parsedReq (qMethod q) (qUri q) (qVersion q) (qFields q)) in *.
  rewrite (turn_request Http1.readerFromReq Http1.handleReq Http1.writeHTTPResp
                        f again (mkConn ds r b) out h req b2 Hcut).
  unfold setBuf. cbn [incoming reads].
  destruct (readerFromReq_wellFramed q (mkWorld (mkConn ds r b2) out h) Hq)
    as [Hparse _].
  pose proof (http1_readerFromReq_wellFramed q (mkWorld (mkConn ds r b2) out h) Hq)
    as Hreader.
  fold req in Hparse, Hreader. fold n in Hreader. cbn [heap conn written] in Hreader.
  erewrite bind_Ret by exact Hreader.
  set (rd := readerFromConnLength n).
  set (w3 := mkWorld (mkConn ds r b2) out (h ++ [rd])).
  assert (Hnth : nth_error (heap w3) (List.length h) = Some (mkReader n (ConnLength n)))
    by apply nth_error_new.
  assert (Hpend : pending (conn w3) = qBody q ++ tail).
  { unfold pending, w3. cbn [conn buf incoming]. now rewrite Hwin2. }
  pose proof (parsed_version_never_1_0 _ req Hparse) as Hver.
  destruct (equals (qUri q) (B "/echo")) eqn:Eecho.
  - (* the body is the response body *)
    assert (Hhandle : Http1.handleReq req (List.length h) w3
                      = (Ret (mkRes 200 [B "Server: my_first_http_server"]
                                    (List.length h)), w3)).
    { unfold Http1.handleReq. change (uri req) with (qUri q). rewrite Eecho.
      reflexivity. }
    erewrite bind_Ret by exact Hhandle.
    destruct (readAll_connLength (List.length h) n f w3 n Hnth Hwf2 Hlive)
      as (cs & c' & Hall & Hcat & Hrest & Hwf' & Hlive' & Hseen & Hreads).
    { rewrite Hpend, blen_app. fold n. pose proof (blen_nonneg tail). lia. }
    { lia. }
    rewrite Hpend in Hcat, Hrest.
    assert (Hnb : Z.to_nat n = List.length (qBody q)) by (unfold n, blen; lia).
    rewrite Hnb, firstn_app, Nat.sub_diag, firstn_all, firstn_O, app_nil_r in Hcat.
    rewrite Hnb, skipn_app, Nat.sub_diag, skipn_all, skipn_O in Hrest.
    cbn [app] in Hrest.
    destruct (writeHTTPResp_plain f (mkRes 200 [B "Server: my_first_http_server"]
                                           (List.length h))
                w3 _ (mkReader n (ConnLength n)) (echoHead n) cs Hnth Hn
                (echoHead_encode n) Hall) as [Hwrite _].
    rewrite <- (http1_writeHTTPResp_agrees f
                  (mkRes 200 [B "Server: my_first_http_server"] (List.length h))
                  w3 (mkReader n (ConnLength n)) Hnth Hn)
      in Hwrite.
    erewrite bind_Ret by exact Hwrite.
    rewrite Hver.
    destruct f as [|f']; [lia|].
    erewrite bind_Ret.
    2:{ apply (drain_done f' (List.length h) _ n). unfold setWritten. cbn [heap].
        eapply nth_error_setNth, Hnth. }
    eexists c', _, _. split; [reflexivity|].
    split.
    { unfold setWritten, w3. cbn [written]. rewrite !concat_app, Hcat.
      cbn [List.concat]. rewrite app_nil_r.
      unfold responseTo1. rewrite Eecho. reflexivity. }
    split; [exact Hwf'|]. split; [exact Hlive'|]. split; [exact Hrest|].
    split; [now rewrite Hseen|exact Hreads].
  - (* the fixed answer; the request body is drained *)
    set (ref2 := List.length (h ++ [rd])).
    set (w3m := mkWorld (mkConn ds r b2) out
                        ((h ++ [rd]) ++ [readerFromMemory helloBody])).
    assert (Hhandle : Http1.handleReq req (List.length h) w3
                      = (Ret (mkRes 200 [B "Server: my_first_http_server"] ref2), w3m)).
    { unfold Http1.handleReq. change (uri req) with (qUri q). rewrite Eecho.
      reflexivity. }
    erewrite bind_Ret by exact Hhandle.
    destruct f as [|[|f']]; try lia.
    assert (Hnth2 : nth_error (heap w3m) ref2 = Some (readerFromMemory helloBody))
      by apply nth_error_new.
    destruct (writeHTTPResp_plain (S (S f'))
                (mkRes 200 [B "Server: my_first_http_server"] ref2) w3m
                (mkWorld (mkConn ds r b2) out
                         (setNth ((h ++ [rd]) ++ [readerFromMemory helloBody]) ref2
                                 (mkReader (blen helloBody) (Memory helloBody true))))
                (readerFromMemory helloBody) helloHead [helloBody])
      as [Hwrite _].
    { exact Hnth2. }
    { cbn. lia. }
    { exact helloHead_encode. }
    { apply readAll_memory; [exact Hnth2|discriminate]. }
    rewrite <- (http1_writeHTTPResp_agrees (S (S f'))
                  (mkRes 200 [B "Server: my_first_http_server"] ref2) w3m
                  (readerFromMemory helloBody) Hnth2 ltac:(cbn; lia)) in Hwrite.
    erewrite bind_Ret by exact Hwrite.
    rewrite Hver. unfold setWritten, w3m. cbn [conn written heap].
    unfold ref2. rewrite setNth_new.
    destruct (drain_body (S (S f')) (List.length h)
                (mkWorld (mkConn ds r b2) (out ++ [helloHead] ++ [helloBody])
                         ((h ++ [rd])
                            ++ [mkReader (blen helloBody) (Memory helloBody true)]))
                n n (qBody q) tail)
      as (c' & Hd & Hp & Hwf' & Hlive' & Hseen & Hreads).
    { cbn [heap]. rewrite nth_error_app1 by (rewrite length_app; cbn; lia).
      apply nth_error_new. }
    { exact Hwf2. }
    { exact Hlive. }
    { exact Hpend. }
    { reflexivity. }
    { lia. }
    erewrite bind_Ret by exact Hd.
    exists c'. eexists. eexists. split; [reflexivity|].
    split.
    { cbn [written]. rewrite !concat_app. cbn [List.concat]. rewrite !app_nil_r.
      unfold responseTo1. rewrite Eecho. reflexivity. }
    split; [exact Hwf'|]. split; [exact Hlive'|]. split; [exact Hp|].
    split; [exact Hseen|exact Hreads].
Qed.

(** X26. The older server and well-framed requests sent one after the
    other on a connection, the bytes cut into non-empty deliveries in any
    way, and then the end of the stream: [serveClient] returns after
    reading every delivery and the end of the stream, and the bytes it
    has written are the responses to the requests in order: for [/echo]
    the head with the Content-Length of the request body and then that
    body; for any other target, [/sheep] included, the head with
    [Content-Length: 13] and [hello world.], the request body being
    skipped. *)
Theorem older_server_answers_in_order
        (qs : list Request) (ds : list bytes) (fuel : nat) :
  Forall wellFramed qs -> liveStream ds ->
  List.concat ds = List.concat (map wire qs) ->
  (List.length ds + List.length qs
   + Z.to_nat (blen (List.concat ds)) + 103 <= fuel)%nat ->
  exists w',
    Http1.serveClient fuel (connOf ds) = (Ret tt, w') /\
    List.concat (written w') = List.concat (map responseTo1 qs) /\
    reads (conn w') = S (List.length ds).
Proof.
  intros Hqs Hlive Hstream Hfuel.
  assert (Hwf0 : wf emptyBuf) by (unfold wf, capacity; cbn; lia).
  destruct (loop_requests Http1.readerFromReq Http1.handleReq Http1.writeHTTPResp
                          Http1.serveLoop responseTo1 qs
                          http1_isLoop http1_turn_one_request Hqs
                          fuel ds emptyBuf 0 [] [] Hwf0 Hlive Hstream Hfuel)
    as (w' & Hrun & Hcat & Hr).
  exists w'. split; [exact Hrun|]. split; [exact Hcat|exact Hr].
Qed.

Lemma older_server_answers_in_order_witness :
  exists w',
    Http1.serveClient 200
      (connOf [B "GET /sheep HTTP/1.1" ++ CRLF ++ B "Host";
               B ": a" ++ CRLF ++ CRLF ++ B "POST /echo HTTP/1.1" ++ CRLF
                 ++ B "Content-Length: 2" ++ CRLF ++ CRLF ++ B "h";
               B "i"])
    = (Ret tt, w') /\
    List.concat (written w')
    = (helloHead ++ helloBody) ++ (echoHead 2 ++ B "hi").
Proof.
  destruct (older_server_answers_in_order
              [mkRequest (B "GET") (B "/sheep") (B "HTTP/1.1") [(B "Host", B "a")] [];
               mkRequest (B "POST") (B "/echo") (B "HTTP/1.1")
                         [(B "Content-Length", B "2")] (B "hi")]
              [B "GET /sheep HTTP/1.1" ++ CRLF ++ B "Host";
               B ": a" ++ CRLF ++ CRLF ++ B "POST /echo HTTP/1.1" ++ CRLF
                 ++ B "Content-Length: 2" ++ CRLF ++ CRLF ++ B "h";
               B "i"] 200)
    as (w' & Hrun & Hcat & _).
  - constructor; [|constructor; [|constructor]].
    + unfold wellFramed. cbn [qMethod qUri qVersion qFields qBody].
      split; [cbv; intuition discriminate|].
      split; [cbv; intuition discriminate|].
      split; [cbv; intuition discriminate|].
      split; [cbv; intuition discriminate|].
      split; [cbv; intuition discriminate|].
      split; [repeat constructor; cbv; intuition discriminate|].
      split; [vm_compute; discriminate|].
      split; reflexivity.
    + unfold wellFramed. cbn [qMethod qUri qVersion qFields qBody].
      split; [cbv; intuition discriminate|].
      split; [cbv; intuition discriminate|].
      split; [cbv; intuition discriminate|].
      split; [cbv; intuition discriminate|].
      split; [cbv; intuition discriminate|].
      split; [repeat constructor; cbv; intuition discriminate|].
      split; [vm_compute; discriminate|].
      exists (B "Content-Length"). reflexivity.
  - repeat constructor; discriminate.
  - reflexivity.
  - vm_compute. lia.
  - exists w'. split; [exact Hrun|]. rewrite Hcat.
    cbn [map List.concat responseTo1]. now rewrite app_nil_r.
Defined.

(** ** The head of a response on the wire *)

Lemma reasonOf_known (c : Z) (reason : bytes) :
  reasonOf c = Ret reason ->
  (c = 200 /\ reason = B "OK") \/
  (c = 400 /\ reason = B "Bad Request") \/
  (c = 413 /\ reason = B "Request Entity Too Large") \/
  (c = 501 /\ reason = B "Not Implemented").
Proof.
  unfold reasonOf.
  destruct (c =? 200) eqn:E1; [apply Z.eqb_eq in E1; intros [= <-]; auto|].
  destruct (c =? 400) eqn:E2; [apply Z.eqb_eq in E2; intros [= <-]; auto|].
  destruct (c =? 413) eqn:E3; [apply Z.eqb_eq in E3; intros [= <-]; auto 6|].
  destruct (c =? 501) eqn:E4; [apply Z.eqb_eq in E4; intros [= <-]; auto 6|].
  discriminate.
Qed.

Lemma encodeHTTPResp_block (c : Z) (reason : bytes) (hs : list bytes) :
  reasonOf c = Ret reason ->
  encodeHTTPResp c hs
  = Ret (headerBlock (B "HTTP/1.1") (numToString 10 c) reason hs) /\
  ~ In CR (B "HTTP/1.1" ++ SP :: numToString 10 c ++ SP :: reason).
Proof.
  intros Hr. split.
  - rewrite (encodeHTTPResp_known c reason hs Hr). unfold headerBlock.
    f_equal.
    change (B "HTTP/1.1 ") with (B "HTTP/1.1" ++ [SP]).
    change (B " ") with [SP].
    change (SP :: numToString 10 c ++ SP :: reason)
      with ([SP] ++ numToString 10 c ++ [SP] ++ reason).
    rewrite <- !app_assoc. reflexivity.
  - destruct (reasonOf_known c reason Hr)
      as [[-> ->]|[[-> ->]|[[-> ->]|[-> ->]]]];
      vm_compute; intuition discriminate.
Qed.

(** X27. The head [encodeHTTPResp] makes for a known status code and
    header fields that are not empty and hold no CR: it is the status
    line [HTTP/1.1 code reason] and the fields, each followed by CRLF,
    and an empty line; and whatever bytes follow it on the wire, the
    first CRLF CRLF of the stream is the one that ends the head. *)
Theorem response_head_ends_at_first_blank_line
        (c : Z) (reason : bytes) (hs : list bytes) (rest : bytes) :
  reasonOf c = Ret reason ->
  Forall (fun h => ~ In CR h /\ h <> []) hs ->
  exists head,
    encodeHTTPResp c hs = Ret head /\
    head = (B "HTTP/1.1 " ++ numToString 10 c ++ B " " ++ reason) ++ CRLF
             ++ List.concat (map (fun h => h ++ CRLF) hs) ++ CRLF /\
    Buf.indexOf (head ++ rest) headerEnd = blen head - 4.
Proof.
  intros Hr Hhs.
  destruct (encodeHTTPResp_block c reason hs Hr) as [Henc Hline].
  exists (headerBlock (B "HTTP/1.1") (numToString 10 c) reason hs).
  split; [exact Henc|]. split.
  - unfold headerBlock.
    change (B "HTTP/1.1 ") with (B "HTTP/1.1" ++ [SP]).
    change (B " ") with [SP].
    change (SP :: numToString 10 c ++ SP :: reason)
      with ([SP] ++ numToString 10 c ++ [SP] ++ reason).
    rewrite <- !app_assoc. reflexivity.
  - apply indexOf_headerBlock; assumption.
Qed.

Lemma response_head_ends_at_first_blank_line_witness :
  exists head,
    encodeHTTPResp 200 [B "Server: my_first_http_server"; B "Content-Length: 4"]
    = Ret head /\
    Buf.indexOf (head ++ CRLF ++ CRLF) headerEnd = blen head - 4.
Proof.
  destruct (response_head_ends_at_first_blank_line 200 (B "OK")
              [B "Server: my_first_http_server"; B "Content-Length: 4"]
              (CRLF ++ CRLF))
    as (head & Henc & _ & Hidx).
  - reflexivity.
  - repeat constructor; cbv; intuition discriminate.
  - exists head. split; [exact Henc|exact Hidx].
Defined.
